(** * preprocess.py: text normalisation and sentence segmentation

    A shallow embedding of [src/preprocess.py].  A Python [str] is a
    sequence of Unicode code points; the patterns of the module are values
    of a small regular-expression syntax, run by a backtracking matcher
    that follows the priority order of Python's [re] (left alternative
    first, greedy repetition), and [re.sub] / [re.split] scan the subject
    from left to right over non-overlapping matches.

    Two things the module takes from outside are parameters of the
    embedding: the Unicode tables of the interpreter ([ucd]) and
    [ftfy.fix_text], a total function from text to text.  The input of
    [preprocess] is any Python value ([pyval]); a call returns a record
    or raises ([result]). *)

From Stdlib Require Import String Ascii DecimalString.
From Stdlib Require Import NArith ZArith Lia Bool List.
Import ListNotations.

Set Implicit Arguments.

(* ================================================================= *)
(** ** Python strings *)

(** A code point. *)
Definition char := N.

(** A Python [str]. *)
Definition str := list char.

(** Decoding of the UTF-8 bytes of a literal of this file into code points,
    so that the literals below read as they do in the source. *)
Fixpoint utf8_go (bs : list N) (need : nat) (acc : N) : str :=
  match bs with
  | [] => []
  | b :: bs' =>
      match need with
      | S k =>
          let acc' := (acc * 64 + b mod 64)%N in
          match k with
          | O => acc' :: utf8_go bs' 0 0%N
          | S _ => utf8_go bs' k acc'
          end
      | O =>
          if (b <? 128)%N then b :: utf8_go bs' 0 0%N
          else if (b <? 224)%N then utf8_go bs' 1 (b mod 32)%N
          else if (b <? 240)%N then utf8_go bs' 2 (b mod 16)%N
          else utf8_go bs' 3 (b mod 8)%N
      end
  end.

(** The [str] a literal of this file denotes. *)
Definition u (s : string) : str :=
  utf8_go (map N_of_ascii (list_ascii_of_string s)) 0 0%N.

(** The first code point of a literal. *)
Definition ch (s : string) : char := hd 0%N (u s).

(** The double quote, U+0022. *)
Definition dquote : char := 34%N.

(** [lo <= c <= hi] *)
Definition in_range (lo hi c : N) : bool := ((lo <=? c) && (c <=? hi))%N.

(** [Py_UNICODE_ISSPACE]: the code points [str.isspace], [str.strip] and
    the pattern [\s] treat as whitespace. *)
Definition is_space (c : char) : bool :=
  (((9 <=? c) && (c <=? 13)) || ((28 <=? c) && (c <=? 32))
   || (c =? 133) || (c =? 160) || (c =? 5760)
   || ((8192 <=? c) && (c <=? 8202))
   || (c =? 8232) || (c =? 8233) || (c =? 8239) || (c =? 8287)
   || (c =? 12288))%N.

(** [s] without its longest prefix of characters satisfying [p]. *)
Fixpoint dropwhile (p : char -> bool) (s : str) : str :=
  match s with
  | [] => []
  | c :: s' => if p c then dropwhile p s' else s
  end.

(** [s.lstrip()] and [s.rstrip()] *)
Definition lstrip (s : str) : str := dropwhile is_space s.
Definition rstrip (s : str) : str := rev (dropwhile is_space (rev s)).

(** [s.strip()] *)
Definition strip (s : str) : str := rstrip (lstrip s).

(** [s.startswith(p)] *)
Fixpoint starts_with (p s : str) : bool :=
  match p, s with
  | [], _ => true
  | a :: p', b :: s' => (a =? b)%N && starts_with p' s'
  | _ :: _, [] => false
  end.

(** [s.replace(old, new)] for a non-empty [old]: the occurrences of [old]
    are found from left to right and do not overlap; [skip] counts the
    characters of the occurrence being replaced that are still to pass. *)
Fixpoint replace_go (old new s : str) (skip : nat) : str :=
  match s with
  | [] => []
  | c :: s' =>
      match skip with
      | S k => replace_go old new s' k
      | O =>
          if starts_with old s
          then new ++ replace_go old new s' (length old - 1)
          else c :: replace_go old new s' 0
      end
  end.

(** [s.replace(old, new)]; with an empty [old] Python puts [new] before
    every character and at the end. *)
Definition replace (old new s : str) : str :=
  match old with
  | [] => new ++ flat_map (fun c => c :: new) s
  | _ :: _ => replace_go old new s 0
  end.

(** [sep.join(xs)] *)
Fixpoint join (sep : str) (xs : list str) : str :=
  match xs with
  | [] => []
  | [x] => x
  | x :: xs' => x ++ sep ++ join sep xs'
  end.

(** [w in s] *)
Fixpoint contains (w s : str) : bool :=
  starts_with w s ||
  match s with
  | [] => false
  | _ :: s' => contains w s'
  end.

(* ================================================================= *)
(** ** The Unicode tables behind [re] *)

(** What Python's [re] reads from the interpreter's Unicode database.  The
    tables change with the Unicode version an interpreter ships, so they
    are a parameter of the matcher: [u_decimal] is [Py_UNICODE_ISDECIMAL]
    (the pattern [\d]), [u_alnum] is [Py_UNICODE_ISALNUM] (with the
    underscore, the word characters of [\b]), [u_lower] and [u_upper] are
    the one-character case mappings and [u_fixes] the extra case
    equivalents [re] adds under IGNORECASE. *)
Record ucd : Type := {
  u_decimal : char -> bool;
  u_alnum : char -> bool;
  u_lower : char -> char;
  u_upper : char -> char;
  u_fixes : char -> list char
}.

(* ================================================================= *)
(** ** Regular expressions *)

Module Re.

(** An item of a bracketed set, or a category escape. *)
Inductive citem : Type :=
| CChar (c : char)          (* a character *)
| CRange (lo hi : char)     (* lo-hi *)
| CDigit                    (* \d *)
| CSpace                    (* \s *)
| CNotSpace.                (* \S *)

(** A set [[...]]: its items. *)
Definition cset := list citem.

(** The part of the pattern syntax the module uses.  Every quantifier of
    the source applies to a single character or set, which is what [Rep]
    carries: [Rep cs lo hi] is [cs{lo,hi}], greedy, [hi = None] for no
    upper bound. *)
Inductive re : Type :=
| Lit (c : char)                             (* a literal character *)
| LitI (c : char)                            (* a literal under (?i) *)
| Cls (cs : cset)                             (* [...] , \d , \s , \S *)
| Rep (cs : cset) (lo : nat) (hi : option nat)
| Cat (a b : re)                             (* ab *)
| Or (a b : re)                              (* a|b *)
| Grp (n : nat) (a : re)                     (* the n-th group (a) *)
| WordB                                      (* \b *)
| Bol                                        (* ^ without MULTILINE *)
| Behind (cs : cset)                         (* (?<=[...]) *)
| Ahead (cs : cset).                         (* (?=[...]) *)

(** A position of the matcher in the subject: the text before it
    (reversed, nearest character first), the text after it, and the groups
    closed so far (latest first). *)
Record mstate : Type := {
  before : str;
  after : str;
  caps : list (nat * str)
}.

(** An item of a replacement template: literal text or [\n]. *)
Inductive titem : Type :=
| TStr (s : str)
| TGrp (n : nat).

Section Matcher.

Variable U : ucd.

(** [c] is in the item, in the set. *)
Definition item_mem (i : citem) (c : char) : bool :=
  match i with
  | CChar a => (c =? a)%N
  | CRange lo hi => (lo <=? c)%N && (c <=? hi)%N
  | CDigit => u_decimal U c
  | CSpace => is_space c
  | CNotSpace => negb (is_space c)
  end.

Definition cset_mem (cs : cset) (c : char) : bool :=
  existsb (fun i => item_mem i c) cs.

(** A word character of [\b]. *)
Definition is_word (c : char) : bool := u_alnum U c || (c =? 95)%N.

(** [_sre.unicode_iscased] *)
Definition iscased (c : char) : bool :=
  negb (c =? u_lower U c)%N || negb (c =? u_upper U c)%N.

(** A literal [c] of a pattern compiled with IGNORECASE against the
    subject's character [x]: an uncased literal is compared as it is; a
    cased one is lowered, and [x] matches when its lower case is that or one
    of its extra equivalents. *)
Definition lit_ignore (c x : char) : bool :=
  if iscased c
  then let lo := u_lower U c in
       existsb (N.eqb (u_lower U x)) (lo :: u_fixes U lo)
  else (x =? c)%N.

(** Consume one character satisfying [p]. *)
Definition eat (p : char -> bool) (st : mstate) : list mstate :=
  match after st with
  | c :: t =>
      if p c then [{| before := c :: before st; after := t; caps := caps st |}]
      else []
  | [] => []
  end.

(** [k] characters taken leave room for one more under the bound [hi]. *)
Definition under (hi : option nat) (k : nat) : bool :=
  match hi with
  | None => true
  | Some h => Nat.ltb k h
  end.

(** The positions a greedy repetition can stop at, the longest run first,
    each with its count of characters; [k] characters are already taken. *)
Fixpoint greedy (p : char -> bool) (hi : option nat) (k : nat)
    (bef aft : str) : list (nat * (str * str)) :=
  match aft with
  | c :: t =>
      if p c && under hi k
      then greedy p hi (S k) (c :: bef) t ++ [(k, (bef, aft))]
      else [(k, (bef, aft))]
  | [] => [(k, (bef, aft))]
  end.

(** The matches of a repetition: the stops of [greedy] with at least [lo]
    characters, the longest first. *)
Definition rep (p : char -> bool) (lo : nat) (hi : option nat)
    (st : mstate) : list mstate :=
  map (fun x => {| before := fst (snd x); after := snd (snd x);
                   caps := caps st |})
      (filter (fun x => Nat.leb lo (fst x))
              (greedy p hi 0 (before st) (after st))).

(** The text between two positions of one subject. *)
Definition consumed (st st' : mstate) : str :=
  rev (firstn (length (before st') - length (before st)) (before st')).

(** [\b]: of the characters before and after the position, one is a word
    character and the other is not (or is missing). *)
Definition at_boundary (st : mstate) : bool :=
  let that := match before st with c :: _ => is_word c | [] => false end in
  let this := match after st with c :: _ => is_word c | [] => false end in
  xorb this that.

(** An assertion: the position stays where it is, when [b] holds. *)
Definition holds (b : bool) (st : mstate) : list mstate :=
  if b then [st] else [].

(** All the ways [r] matches at [st], in the order the backtracking
    matcher of [re] tries them: the first is the match [re] reports, and
    the later ones are what it falls back on when the rest of a pattern
    fails. *)
Fixpoint m (r : re) (st : mstate) : list mstate :=
  match r with
  | Lit c => eat (fun x => (x =? c)%N) st
  | LitI c => eat (lit_ignore c) st
  | Cls cs => eat (cset_mem cs) st
  | Rep cs lo hi => rep (cset_mem cs) lo hi st
  | Cat a b => flat_map (m b) (m a st)
  | Or a b => m a st ++ m b st
  | Grp n a =>
      map (fun st' => {| before := before st'; after := after st';
                         caps := (n, consumed st st') :: caps st' |})
          (m a st)
  | WordB => holds (at_boundary st) st
  | Bol => holds (match before st with [] => true | _ :: _ => false end) st
  | Behind cs =>
      holds (match before st with c :: _ => cset_mem cs c | [] => false end) st
  | Ahead cs =>
      holds (match after st with c :: _ => cset_mem cs c | [] => false end) st
  end.

(** The match of [r] that starts at the position between [bef] and [aft],
    if any: its length and its groups.  What [re.sub] and [re.split] do
    with a match of no character is not modelled: such a match is no match
    here, and no pattern of the module has one
    ([patterns_take_a_character], [match_at_first]). *)
Definition match_at (r : re) (bef aft : str) : option (nat * list (nat * str)) :=
  match m r {| before := bef; after := aft; caps := [] |} with
  | st' :: _ =>
      match length aft - length (after st') with
      | O => None
      | S k => Some (S k, caps st')
      end
  | [] => None
  end.

(** The text of group [n], empty when the group did not take part. *)
Fixpoint group (n : nat) (cs : list (nat * str)) : str :=
  match cs with
  | [] => []
  | (k, s) :: cs' => if Nat.eqb k n then s else group n cs'
  end.

(** The text a template stands for after a match. *)
Fixpoint expand (tpl : list titem) (cs : list (nat * str)) : str :=
  match tpl with
  | [] => []
  | TStr s :: tpl' => s ++ expand tpl' cs
  | TGrp n :: tpl' => group n cs ++ expand tpl' cs
  end.

(** [re.sub]: at each position, from the left, the match that starts there
    is replaced by the template and the scan goes on after it; where
    nothing matches the character is copied.  [skip] counts the characters
    of the current match still to pass. *)
Fixpoint sub_go (r : re) (tpl : list titem) (bef aft : str) (skip : nat) : str :=
  match aft with
  | [] => []
  | c :: t =>
      match skip with
      | S k => sub_go r tpl (c :: bef) t k
      | O =>
          match match_at r bef aft with
          | Some (len, cs) => expand tpl cs ++ sub_go r tpl (c :: bef) t (len - 1)
          | None => c :: sub_go r tpl (c :: bef) t 0
          end
      end
  end.

(** [re.sub(r, tpl, s)] *)
Definition sub (r : re) (tpl : list titem) (s : str) : str :=
  sub_go r tpl [] s 0.

(** [re.split] for a pattern without groups: the pieces between the
    matches; [cur] is the piece being read, reversed. *)
Fixpoint split_go (r : re) (bef aft : str) (skip : nat) (cur : str) : list str :=
  match aft with
  | [] => [rev cur]
  | c :: t =>
      match skip with
      | S k => split_go r (c :: bef) t k cur
      | O =>
          match match_at r bef aft with
          | Some (len, _) => rev cur :: split_go r (c :: bef) t (len - 1) []
          | None => split_go r (c :: bef) t 0 (c :: cur)
          end
      end
  end.

(** [re.split(r, s)] *)
Definition split (r : re) (s : str) : list str := split_go r [] s 0 [].

(** [re.search(r, s) is not None], from the position between [bef] and
    [aft] on. *)
Fixpoint search_go (r : re) (bef aft : str) : bool :=
  match match_at r bef aft with
  | Some _ => true
  | None =>
      match aft with
      | [] => false
      | c :: t => search_go r (c :: bef) t
      end
  end.

(** [re.search(r, s) is not None] *)
Definition search (r : re) (s : str) : bool := search_go r [] s.

End Matcher.

(** The least number of characters a match of [r] takes. *)
Fixpoint min_len (r : re) : nat :=
  match r with
  | Lit _ | LitI _ | Cls _ => 1
  | Rep _ lo _ => lo
  | Cat a b => min_len a + min_len b
  | Or a b => Nat.min (min_len a) (min_len b)
  | Grp _ a => min_len a
  | WordB | Bol | Behind _ | Ahead _ => 0
  end.

(** The literal text [s], character by character. *)
Fixpoint lits_of (lit : char -> re) (s : str) : re :=
  match s with
  | [] => Rep [] 0 (Some 0)
  | [c] => lit c
  | c :: s' => Cat (lit c) (lits_of lit s')
  end.

(** A literal text of a pattern, without and with [(?i)]. *)
Definition lits (s : string) : re := lits_of Lit (u s).
Definition ilits (s : string) : re := lits_of LitI (u s).

(** [a|b|...] *)
Fixpoint alt (rs : list re) : re :=
  match rs with
  | [] => Cls []
  | [r] => r
  | r :: rs' => Or r (alt rs')
  end.

(** [abc...] *)
Fixpoint cat (rs : list re) : re :=
  match rs with
  | [] => Rep [] 0 (Some 0)
  | [r] => r
  | r :: rs' => Cat r (cat rs')
  end.

End Re.

Import Re.

(* ================================================================= *)
(** ** The patterns of the module *)

(** The sentinel [<DOT>] of [split_sentences] and the other literals. *)
Definition DOT : str := Eval vm_compute in u "<DOT>".
Definition PERIOD : str := Eval vm_compute in u ".".
Definition SPACE : str := Eval vm_compute in u " ".
Definition EMAIL_TOKEN : str := Eval vm_compute in u "<EMAIL>".
Definition URL_TOKEN : str := Eval vm_compute in u "<URL>".

(** [https?://\S+|www\.\S+|bit\.ly/\S+] *)
Definition URL_PATTERN : re := Eval vm_compute in
  alt [ cat [lits "http"; Rep [CChar (ch "s")] 0 (Some 1); lits "://";
             Rep [CNotSpace] 1 None];
        cat [lits "www"; Lit (ch "."); Rep [CNotSpace] 1 None];
        cat [lits "bit"; Lit (ch "."); lits "ly/"; Rep [CNotSpace] 1 None] ].

(** [\b[A-Za-z0-9._%+-]+@[A-Za-z0-9.-]+\.[A-Z|a-z]{2,7}\b] *)
Definition EMAIL_PATTERN : re := Eval vm_compute in
  cat [ WordB;
        Rep [CRange (ch "A") (ch "Z"); CRange (ch "a") (ch "z");
             CRange (ch "0") (ch "9"); CChar (ch "."); CChar (ch "_");
             CChar (ch "%"); CChar (ch "+"); CChar (ch "-")] 1 None;
        Lit (ch "@");
        Rep [CRange (ch "A") (ch "Z"); CRange (ch "a") (ch "z");
             CRange (ch "0") (ch "9"); CChar (ch "."); CChar (ch "-")] 1 None;
        Lit (ch ".");
        Rep [CRange (ch "A") (ch "Z"); CChar (ch "|");
             CRange (ch "a") (ch "z")] 2 (Some 7);
        WordB ].

(** [[«»“”„]] *)
Definition QUOTES_PATTERN : re := Eval vm_compute in
  Cls [CChar (ch "«"); CChar (ch "»"); CChar (ch "“"); CChar (ch "”");
      CChar (ch "„")].

(** [[—–]] *)
Definition DASHES_PATTERN : re := Eval vm_compute in
  Cls [CChar (ch "—"); CChar (ch "–")].

(** [[`’‘ʼ]] *)
Definition APOSTROPHES_PATTERN : re := Eval vm_compute in
  Cls [CChar (ch "`"); CChar (ch "’"); CChar (ch "‘"); CChar (ch "ʼ")].

(** [(?i)\b(м|вул|просп|пров|бул|буд|кв|р|рр|ім|о|ст|тис|млн|млрд|див|с|смт|обл|т\.д|т\.п)\.]:
    the flag [(?i)] makes every literal of the pattern case-insensitive. *)
Definition UA_ABBREVIATIONS : re := Eval vm_compute in
  cat [ WordB;
        Grp 1 (alt [ ilits "м"; ilits "вул"; ilits "просп"; ilits "пров";
                     ilits "бул"; ilits "буд"; ilits "кв"; ilits "р";
                     ilits "рр"; ilits "ім"; ilits "о"; ilits "ст";
                     ilits "тис"; ilits "млн"; ilits "млрд"; ilits "див";
                     ilits "с"; ilits "смт"; ilits "обл"; ilits "т.д";
                     ilits "т.п" ]);
        LitI (ch ".") ].

(** [[А-ЯІЇЄҐ]] *)
Definition UA_UPPER : cset := Eval vm_compute in
  [CRange (ch "А") (ch "Я"); CChar (ch "І"); CChar (ch "Ї"); CChar (ch "Є");
   CChar (ch "Ґ")].

(** [[а-яіїєґ]] *)
Definition UA_LOWER : cset := Eval vm_compute in
  [CRange (ch "а") (ch "я"); CChar (ch "і"); CChar (ch "ї"); CChar (ch "є");
   CChar (ch "ґ")].

(** [^\([А-ЯІЇЄҐ][а-яіїєґ]+\)\s*-\s*], the pattern of [clean_news_artifacts] *)
Definition NEWS_CITY : re := Eval vm_compute in
  cat [ Bol; Lit (ch "("); Cls UA_UPPER; Rep UA_LOWER 1 None; Lit (ch ")");
        Rep [CSpace] 0 None; Lit (ch "-"); Rep [CSpace] 0 None ].

(** [(\d)\.(\d)], the second pattern of [split_sentences] *)
Definition DECIMAL_DOT : re := Eval vm_compute in
  cat [ Grp 1 (Cls [CDigit]); Lit (ch "."); Grp 2 (Cls [CDigit]) ].

(** [\b([А-ЯІЇЄҐA-Z])\.], its third pattern *)
Definition INITIAL_DOT : re := Eval vm_compute in
  cat [ WordB; Grp 1 (Cls (UA_UPPER ++ [CRange (ch "A") (ch "Z")]));
        Lit (ch ".") ].

(** [[.!?…]], the marks that end a sentence *)
Definition TERMINAL : cset := Eval vm_compute in
  [CChar (ch "."); CChar (ch "!"); CChar (ch "?"); CChar (ch "…")].

(** The set [А-ЯІЇЄҐA-Z0-9] with the double quote and the opening
    guillemet: what a sentence may start with *)
Definition OPENING : cset := Eval vm_compute in
  UA_UPPER ++ [CRange (ch "A") (ch "Z"); CRange (ch "0") (ch "9");
               CChar dquote; CChar (ch "«")].

(** [(?<=[.!?…])\s+(?=[...])] with the set above in the lookahead, the
    pattern of [re.split] *)
Definition SENTENCE_END : re :=
  cat [ Behind TERMINAL; Rep [CSpace] 1 None; Ahead OPENING ].

(** [\s+], the pattern of [clean_whitespace] *)
Definition SPACES : re := Rep [CSpace] 1 None.

(** Two or more double quotes in a row, the pattern of step 5 *)
Definition QUOTE_RUN : re := cat [ Lit dquote; Rep [CChar dquote] 1 None ].

(** [Посмотреть эту публикацию в Instagram] with [re.IGNORECASE] *)
Definition INSTAGRAM_NOISE : re := Eval vm_compute in
  ilits "Посмотреть эту публикацию в Instagram".

(** The templates [\1<DOT>] and [\1<DOT>\2]. *)
Definition KEEP1_DOT : list titem := [TGrp 1; TStr DOT].
Definition KEEP1_DOT_KEEP2 : list titem := [TGrp 1; TStr DOT; TGrp 2].

(* ================================================================= *)
(** ** Python values *)

(** What [preprocess] can be called with ([text: Any]): [None], a [bool],
    an [int], a [str], or any other object, known by what [bool(obj)] and
    [str(obj)] give, [None] standing for a call that raises (the truth
    value of a NumPy array with several elements, of [pandas.NA]). *)
Inductive pyval : Type :=
| PyNone
| PyBool (b : bool)
| PyInt (z : Z)
| PyStr (s : str)
| PyObj (truth : option bool) (rendering : option str).

(** The outcome of a call: a value, or an exception. *)
Inductive result (A : Type) : Type :=
| Ok (a : A)
| Raised.

Arguments Raised {A}.

Definition bind {A B : Type} (x : result A) (f : A -> result B) : result B :=
  match x with
  | Ok a => f a
  | Raised => Raised
  end.

Notation "x <- e ;; k" := (bind e (fun x => k))
  (at level 61, e at next level, right associativity).

Definition of_option {A : Type} (o : option A) : result A :=
  match o with
  | Some a => Ok a
  | None => Raised
  end.

(** The truth value of a [str] or of a list: it is not empty. *)
Definition nonempty {A : Type} (s : list A) : bool :=
  match s with
  | [] => false
  | _ :: _ => true
  end.

(** [bool(v)], the test of [if v] *)
Definition truth (v : pyval) : result bool :=
  match v with
  | PyNone => Ok false
  | PyBool b => Ok b
  | PyInt z => Ok (negb (Z.eqb z 0))
  | PyStr s => Ok (nonempty s)
  | PyObj t _ => of_option t
  end.

(** [sys.int_info.default_max_str_digits]: the number of decimal digits
    above which CPython (3.11, and 3.10.7 on), as it is set by default,
    refuses to convert an [int] to a [str]. *)
Definition INT_MAX_STR_DIGITS : Z := 4300.

(** [10 ** 4300], the least magnitude with more digits than that. *)
Definition INT_STR_BOUND : Z := Eval vm_compute in (10 ^ INT_MAX_STR_DIGITS)%Z.

(** [str(v)]; of an [int] of more than 4300 digits it raises
    [ValueError]. *)
Definition py_str (v : pyval) : result str :=
  match v with
  | PyNone => Ok (u "None")
  | PyBool b => Ok (if b then u "True" else u "False")
  | PyInt z =>
      if (INT_STR_BOUND <=? Z.abs z)%Z then Raised
      else Ok (u (NilEmpty.string_of_int (Z.to_int z)))
  | PyStr s => Ok s
  | PyObj _ r => of_option r
  end.

(** The dictionary [preprocess] returns, with its three fixed keys. *)
Record ResultRecord : Type := {
  raw : str;
  clean : str;
  sentences : list str
}.

(* ================================================================= *)
(** ** The functions of the module *)

Section Pipeline.

(** The interpreter's Unicode tables and [ftfy.fix_text], the library
    function that repairs the encoding. *)
Variable U : ucd.
Variable fix_text : str -> str.

Definition fix_encoding (text : str) : str := fix_text text.

Definition normalize_typography (text : str) : str :=
  let text := sub U APOSTROPHES_PATTERN [TStr (u "'")] text in
  let text := sub U QUOTES_PATTERN [TStr [dquote]] text in
  let text := sub U DASHES_PATTERN [TStr (u "-")] text in
  text.

Definition mask_pii (text : str) : str :=
  let text := sub U EMAIL_PATTERN [TStr EMAIL_TOKEN] text in
  let text := sub U URL_PATTERN [TStr URL_TOKEN] text in
  text.

Definition clean_whitespace (text : str) : str :=
  strip (sub U SPACES [TStr SPACE] text).

Definition clean_news_artifacts (text : str) : str :=
  let text := sub U NEWS_CITY [] text in
  text.

(** The body of the loop of [split_sentences]: one raw sentence is
    restored, trimmed and appended unless it is empty. *)
Definition restore_step (sentences : list str) (s : str) : list str :=
  let restored_sentence := strip (replace DOT PERIOD s) in
  if nonempty restored_sentence
  then sentences ++ [restored_sentence]
  else sentences.

(** The protect phase of [split_sentences], its three substitutions. *)
Definition protect (text : str) : str :=
  let protected_text := sub U UA_ABBREVIATIONS KEEP1_DOT text in
  let protected_text := sub U DECIMAL_DOT KEEP1_DOT_KEEP2 protected_text in
  let protected_text := sub U INITIAL_DOT KEEP1_DOT protected_text in
  protected_text.

Definition split_sentences (text : str) : list str :=
  if negb (nonempty text) then []
  else
    let protected_text := protect text in
    let sentences_raw := split U SENTENCE_END protected_text in
    let sentences := fold_left restore_step sentences_raw [] in
    if negb (nonempty sentences) && nonempty text
    then [text]
    else sentences.

(** The record of the first branch of [preprocess]: [raw] is
    [str(text) if text else ""], where the test [if text] is evaluated
    first and [str(text)] only when it is true. *)
Definition rejected (text : pyval) : result ResultRecord :=
  t <- truth text ;;
  raw <- (if t then py_str text else Ok []) ;;
  Ok {| raw := raw; clean := []; sentences := [] |}.

(** The guard [not isinstance(text, str) or not text.strip()] reads
    [text.strip()] only of a [str]. *)
Definition preprocess (text : pyval) : result ResultRecord :=
  match text with
  | PyStr s =>
      if negb (nonempty (strip s))
      then rejected text
      else
        let raw_text := s in
        let clean := fix_encoding raw_text in
        let clean := clean_news_artifacts clean in
        let clean := normalize_typography clean in
        let clean := replace (u "|") SPACE clean in
        let clean := sub U QUOTE_RUN [TStr [dquote]] clean in
        let clean := sub U INSTAGRAM_NOISE [] clean in
        let clean := mask_pii clean in
        let clean := clean_whitespace clean in
        let sentences := split_sentences clean in
        Ok {| raw := raw_text; clean := clean; sentences := sentences |}
  | _ => rejected text
  end.

(** Steps 1 to 6 of [preprocess]: the text as it reaches [mask_pii]. *)
Definition before_masking (raw_text : str) : str :=
  let clean := fix_encoding raw_text in
  let clean := clean_news_artifacts clean in
  let clean := normalize_typography clean in
  let clean := replace (u "|") SPACE clean in
  let clean := sub U QUOTE_RUN [TStr [dquote]] clean in
  let clean := sub U INSTAGRAM_NOISE [] clean in
  clean.

End Pipeline.

(* ================================================================= *)
(** ** An instance of the tables, for the examples *)

(** CPython 3.11 (Unicode 14) on Basic Latin, Latin-1 Supplement, Cyrillic
    and Cyrillic Supplement.  Outside these blocks the instance answers
    not decimal, not alphanumeric and uncased, which is also what CPython
    says of the punctuation the examples use; the theorems that hold for
    every text are proved for every table, not for this one. *)
Definition latin_cyrillic_alnum (c : char) : bool :=
  existsb (fun r => in_range (fst r) (snd r) c)
    [(48, 57); (65, 90); (97, 122); (170, 170); (178, 179); (181, 181);
     (185, 186); (188, 190); (192, 214); (216, 246); (248, 255);
     (1024, 1153); (1162, 1327)]%N.

Definition latin_cyrillic_lower (c : char) : char :=
  (if in_range 65 90 c || in_range 192 214 c || in_range 216 222 c
      || in_range 1040 1071 c then c + 32
   else if in_range 1024 1039 c then c + 80
   else if c =? 1216 then 1231
   else if (in_range 1120 1152 c || in_range 1162 1214 c
            || in_range 1232 1326 c) && N.even c then c + 1
   else if in_range 1217 1229 c && N.odd c then c + 1
   else c)%N.

Definition latin_cyrillic_upper (c : char) : char :=
  (if in_range 97 122 c || in_range 224 246 c || in_range 248 254 c
      || in_range 1072 1103 c then c - 32
   else if in_range 1104 1119 c then c - 80
   else if c =? 181 then 924
   else if c =? 223 then 83
   else if c =? 255 then 376
   else if c =? 1231 then 1216
   else if (in_range 1121 1153 c || in_range 1163 1215 c
            || in_range 1233 1327 c) && N.odd c then c - 1
   else if in_range 1218 1230 c && N.even c then c - 1
   else c)%N.

Definition latin_cyrillic_fixes (c : char) : list char :=
  (if c =? 105 then [305]
   else if c =? 115 then [383]
   else if c =? 181 then [956]
   else if c =? 1074 then [7296]
   else if c =? 1076 then [7297]
   else if c =? 1086 then [7298]
   else if c =? 1089 then [7299]
   else if c =? 1090 then [7300; 7301]
   else if c =? 1098 then [7302]
   else if c =? 1123 then [7303]
   else [])%N.

Definition latin_cyrillic : ucd :=
  {| u_decimal := in_range 48 57;
     u_alnum := latin_cyrillic_alnum;
     u_lower := latin_cyrillic_lower;
     u_upper := latin_cyrillic_upper;
     u_fixes := latin_cyrillic_fixes |}.

(** [ftfy.fix_text] on a text that needs no repair: well-encoded text
    without escapes comes back as it is. *)
Definition no_repair (text : str) : str := text.

(* ================================================================= *)
(** ** The vocabulary of the statements *)

(** The first character is whitespace. *)
Definition starts_space (s : str) : bool :=
  match s with
  | c :: _ => is_space c
  | [] => false
  end.

(** [not s.strip()]: the string is empty or whitespace only. *)
Definition blank (s : str) : bool := forallb is_space s.

(** [st'] is [st] moved over the text [w]. *)
Definition advances (st st' : mstate) (w : str) : Prop :=
  after st = w ++ after st' /\ before st' = rev w ++ before st.

(** Replacing every character of a set by one character. *)
Definition swap (U : ucd) (cs : cset) (x c : char) : char :=
  if cset_mem U cs c then x else c.

(** What [normalize_typography] does to one character. *)
Definition typo (c : char) : char :=
  if ((c =? 96) || (c =? 8217) || (c =? 8216) || (c =? 700))%N then 39%N
  else if ((c =? 171) || (c =? 187) || (c =? 8220) || (c =? 8221)
           || (c =? 8222))%N then 34%N
  else if ((c =? 8212) || (c =? 8211))%N then 45%N
  else c.

(** The longest prefix of characters satisfying [p]. *)
Fixpoint takewhile (p : char -> bool) (s : str) : str :=
  match s with
  | [] => []
  | c :: s' => if p c then c :: takewhile p s' else []
  end.

(** Every run of whitespace becomes one space: what
    [re.sub(r'\s+', ' ', text)] computes. *)
Fixpoint collapse (s : str) : str :=
  match s with
  | [] => []
  | c :: s' =>
      if is_space c
      then if starts_space s' then collapse s' else 32%N :: collapse s'
      else c :: collapse s'
  end.

(** Every whitespace character is a space, U+0020, and no whitespace
    follows it. *)
Fixpoint spaced (s : str) : bool :=
  match s with
  | [] => true
  | c :: s' =>
      (negb (is_space c) || ((c =? 32)%N && negb (starts_space s')))
      && spaced s'
  end.

(** Two whitespace characters in a row somewhere. *)
Fixpoint space_run (s : str) : bool :=
  match s with
  | [] => false
  | c :: s' => (is_space c && starts_space s') || space_run s'
  end.

(** The last character is whitespace. *)
Definition ends_space (s : str) : bool := starts_space (rev s).

(** Whitespace-normal: no whitespace at either end, and inside only
    single spaces. *)
Definition ws_normal (s : str) : Prop :=
  starts_space s = false /\ ends_space s = false /\ spaced s = true.

(** [dotted t p]: [p] is [t] with some of its periods written [<DOT>]. *)
Inductive dotted : str -> str -> Prop :=
| dotted_nil : dotted [] []
| dotted_copy (c : char) (t p : str) : dotted t p -> dotted (c :: t) (c :: p)
| dotted_dot (t p : str) : dotted t p -> dotted (46%N :: t) (DOT ++ p).

(** The period is not a cased character, so that [(?i)] leaves the literal
    [\.] of [UA_ABBREVIATIONS] a plain literal. *)
Definition period_uncased (U : ucd) : Prop := iscased U 46%N = false.

(** The literal [\.] takes a period, with [(?i)] or without. *)
Definition takes_period (U : ucd) (D : re) : Prop :=
  forall s s', In s' (m U D s) ->
               after s = 46%N :: after s' /\ before s' = 46%N :: before s /\
               caps s' = caps s.

(** A mark that ends a sentence: period, exclamation mark, question mark
    or ellipsis. *)
Definition is_terminal (c : char) : bool :=
  ((c =? 46) || (c =? 33) || (c =? 63) || (c =? 8230))%N.

(** What a sentence may start with: an uppercase letter of the Ukrainian
    or the Latin alphabet, a digit, a double quote or an opening
    guillemet. *)
Definition is_opening (c : char) : bool :=
  in_range 1040 1071 c
  || ((c =? 1030) || (c =? 1031) || (c =? 1028) || (c =? 1168))%N
  || in_range 65 90 c || in_range 48 57 c || ((c =? 34) || (c =? 171))%N.

(** After the whitespace [s] starts with comes a character a sentence may
    start with. *)
Definition opening_after (s : str) : bool :=
  match dropwhile is_space s with
  | d :: _ => is_opening d
  | [] => false
  end.

(** Somewhere in [s] a terminal mark is followed by whitespace and then by
    a character a sentence may start with. *)
Fixpoint split_points (s : str) : bool :=
  match s with
  | [] => false
  | c :: s' =>
      (is_terminal c && starts_space s' && opening_after s') || split_points s'
  end.

(** The sentences of the loop of [split_sentences], written with [map] and
    [filter]. *)
Definition restored (pieces : list str) : list str :=
  filter nonempty (map (fun s => strip (replace DOT PERIOD s)) pieces).

(** The character before a position, as a text of at most one character. *)
Definition last_read (bef : str) : str := firstn 1 bef.

(** A text without whitespace in it. *)
Definition solid (w : str) : bool := forallb (fun c => negb (is_space c)) w.

(** The next character is there and is not whitespace. *)
Definition solid_next (s : str) : bool :=
  match s with
  | c :: _ => negb (is_space c)
  | [] => false
  end.

(** The four ways a link begins for [URL_PATTERN]. *)
Definition URL_HEADS : list str := Eval vm_compute in
  [u "http://"; u "https://"; u "www."; u "bit.ly/"].

(** [s] begins with one of them and then a character that is not
    whitespace. *)
Definition link_here (s : str) : bool :=
  existsb (fun h => starts_with h s && solid_next (skipn (length h) s))
          URL_HEADS.

(** A link begins somewhere in [s]. *)
Fixpoint has_link (s : str) : bool :=
  link_here s ||
  match s with
  | [] => false
  | _ :: s' => has_link s'
  end.

(** [masked t o]: [o] is [t] up to a place where a link begins in [t] and
    [<URL>] stands in [o]. *)
Inductive masked : str -> str -> Prop :=
| masked_nil : masked [] []
| masked_copy (c : char) (t o : str) : masked t o -> masked (c :: t) (c :: o)
| masked_token (t o : str) : link_here t = true -> masked t (URL_TOKEN ++ o).

(** A text without its whitespace: two texts are equal up to whitespace
    when their squeezed forms are equal. *)
Definition squeeze (s : str) : str := filter (fun c => negb (is_space c)) s.

(** An input that takes the first branch of [preprocess]. *)
Definition degenerate (v : pyval) : bool :=
  match v with
  | PyStr s => blank s
  | _ => true
  end.

(** The text of the abbreviation example. *)
Definition lviv : str := u "Зустріч відбудеться у м. Львів. Всі раді.".

(** Its two sentences. *)
Definition lviv_first : str := u "Зустріч відбудеться у м. Львів.".

Definition lviv_second : str := u "Всі раді.".

(** An address inside a link, and the same address again before an
    underscore. *)
Definition link_with_address : str := u "http://x.ua/a@b.co a@b.co_".

(** The characters [normalize_typography] rewrites: the four apostrophes,
    the five quotation marks and the two dashes of its patterns. *)
Definition TYPOGRAPHIC : str := Eval vm_compute in u "`’‘ʼ«»“”„—–".

Definition is_typographic (c : char) : bool := existsb (N.eqb c) TYPOGRAPHIC.

(** [[А-ЯІЇЄҐ]] and [[а-яіїєґ]], the letters of [clean_news_artifacts]. *)
Definition is_ua_upper (c : char) : bool :=
  in_range 1040 1071 c
  || ((c =? 1030) || (c =? 1031) || (c =? 1028) || (c =? 1168))%N.

Definition is_ua_lower (c : char) : bool :=
  in_range 1072 1103 c
  || ((c =? 1110) || (c =? 1111) || (c =? 1108) || (c =? 1169))%N.

(** A dateline as [clean_news_artifacts] removes it: a city in
    parentheses, an uppercase letter and lowercase letters after it, then
    a hyphen with any whitespace around it. *)
Definition dateline (p : str) : Prop :=
  exists C city w1 w2,
    p = [40%N; C] ++ city ++ [41%N] ++ w1 ++ [45%N] ++ w2 /\
    is_ua_upper C = true /\ city <> [] /\ forallb is_ua_lower city = true /\
    blank w1 = true /\ blank w2 = true.

(** Masking the links of a text, written without [re]: where a link
    begins, the characters up to the next whitespace (or the end of the
    text) become one [<URL>]; [inside] says that the scan is inside a
    link. *)
Fixpoint mask_links_go (s : str) (inside : bool) : str :=
  match s with
  | [] => []
  | c :: s' =>
      if inside && negb (is_space c) then mask_links_go s' true
      else if link_here s then URL_TOKEN ++ mask_links_go s' true
      else c :: mask_links_go s' false
  end.

Definition mask_links (s : str) : str := mask_links_go s false.

(** The commercial at, U+0040. *)
Definition has_at (s : str) : bool := existsb (N.eqb 64%N) s.

(** The first character is one a sentence may start with; the last is a
    terminal mark. *)
Definition starts_opening (s : str) : bool :=
  match s with
  | c :: _ => is_opening c
  | [] => false
  end.

Definition ends_terminal (s : str) : bool := is_terminal (last s 0%N).

(** The character read last, after the piece [p] that follows [bef], is a
    terminal mark. *)
Definition last_terminal (bef p : str) : bool :=
  match rev p ++ bef with
  | c :: _ => is_terminal c
  | [] => false
  end.

(** A character the clean text can hold: not the vertical bar of step 4
    and not a character [normalize_typography] rewrites. *)
Definition plain (c : char) : bool :=
  negb (c =? 124)%N && negb (is_typographic c).

(** Ahead of the position between [bef] and [aft] there is a place to
    cut: a terminal mark, whitespace after it and then a character a
    sentence may start with. *)
Definition seam (bef aft : str) : Prop :=
  exists x w d b,
    aft = x ++ w ++ d :: b /\ w <> [] /\ blank w = true /\
    is_opening d = true /\ last_terminal bef x = true.

(** The pieces of a text put back with what stood between them: the
    first piece, the first gap, the second piece, and so on. *)
Fixpoint weave (pieces gaps : list str) : str :=
  match pieces, gaps with
  | p :: ps, g :: gs => p ++ g ++ weave ps gs
  | p :: _, [] => p
  | [], _ => []
  end.

(** A gap between two sentences: whitespace, at least one character. *)
Definition is_gap (g : str) : Prop := blank g = true /\ g <> [].

(** [[А-ЯІЇЄҐA-Z]], the letter of an initial. *)
Definition is_initial (c : char) : bool := is_ua_upper c || in_range 65 90 c.

(** Whether the character before a position is a word character; at the
    start of the text there is none. *)
Definition word_before (U : ucd) (bef : str) : bool :=
  match bef with
  | c :: _ => is_word U c
  | [] => false
  end.

(** [s] begins with an initial: a letter of [[А-ЯІЇЄҐA-Z]] at a word
    boundary ([prev] says whether the character before it is a word
    character) and a period after it. *)
Definition initial_here (U : ucd) (prev : bool) (s : str) : bool :=
  match s with
  | X :: d :: _ => (d =? 46)%N && is_initial X && xorb (is_word U X) prev
  | _ => false
  end.

(** No initial begins anywhere in [s]. *)
Fixpoint no_initial (U : ucd) (prev : bool) (s : str) : bool :=
  match s with
  | [] => true
  | c :: s' => negb (initial_here U prev s) && no_initial U (is_word U c) s'
  end.

(** Whether the last character of [s] is a word character, [prev] when
    [s] is empty. *)
Fixpoint last_word (U : ucd) (prev : bool) (s : str) : bool :=
  match s with
  | [] => prev
  | c :: s' => last_word U (is_word U c) s'
  end.

(** [s] ends with an initial: its last two characters are a letter of
    [[А-ЯІЇЄҐA-Z]] at a word boundary and a period. *)
Definition ends_with_initial (U : ucd) (s : str) : bool :=
  match rev s with
  | d :: X :: r =>
      (d =? 46)%N && is_initial X && xorb (is_word U X) (word_before U r)
  | _ => false
  end.

(** The period, the closing angle bracket of the sentinel and whitespace
    are not word characters: true of every Unicode version. *)
Definition marks_not_word (U : ucd) : Prop :=
  is_word U 46%N = false /\ is_word U 62%N = false /\
  forall c, is_space c = true -> is_word U c = false.

(* ================================================================= *)
(** ** Facts about strings *)

Lemma app_eq_length (A : Type) (a c b d : list A) :
  a ++ b = c ++ d -> length a = length c -> a = c /\ b = d.
Proof.
  revert c. induction a as [|x a IH]; intros [|y c]; simpl;
    try discriminate; auto.
  intros E L. injection E as -> E. injection L as L.
  destruct (IH _ E L) as [-> ->]. auto.
Qed.

Lemma forallb_eq (p q : char -> bool) (s : str) :
  (forall c, p c = q c) -> forallb p s = forallb q s.
Proof.
  intros E. induction s as [|c s IH]; simpl; [reflexivity|].
  now rewrite E, IH.
Qed.

Lemma dropwhile_app_all (p : char -> bool) (w s : str) :
  forallb p w = true -> dropwhile p (w ++ s) = dropwhile p s.
Proof.
  induction w as [|c w IH]; simpl; intros H; [reflexivity|].
  apply andb_prop in H as [Hc Hw]. rewrite Hc. auto.
Qed.

Lemma dropwhile_split (p : char -> bool) (s : str) :
  exists w, s = w ++ dropwhile p s /\ forallb p w = true.
Proof.
  induction s as [|c s [w [E F]]]; simpl.
  - exists []. auto.
  - destruct (p c) eqn:Hc.
    + exists (c :: w). simpl. rewrite Hc, F. split; [congruence|reflexivity].
    + exists []. auto.
Qed.

Lemma dropwhile_hd (p : char -> bool) (s : str) (c : char) (t : str) :
  dropwhile p s = c :: t -> p c = false.
Proof.
  induction s as [|d s IH]; simpl; [discriminate|].
  destruct (p d) eqn:Hd; auto.
  intros E. injection E as -> _. exact Hd.
Qed.

Lemma dropwhile_idem (p : char -> bool) (s : str) :
  dropwhile p (dropwhile p s) = dropwhile p s.
Proof.
  destruct (dropwhile p s) as [|c t] eqn:E; [reflexivity|].
  simpl. now rewrite (dropwhile_hd _ _ E).
Qed.

Lemma dropwhile_blank (s : str) : blank s = true -> dropwhile is_space s = [].
Proof.
  intros H. rewrite <- (app_nil_r s). now rewrite dropwhile_app_all.
Qed.

Lemma dropwhile_nil_blank (s : str) : dropwhile is_space s = [] -> blank s = true.
Proof.
  intros E. destruct (dropwhile_split is_space s) as [w [Hs Hw]].
  rewrite E, app_nil_r in Hs. now subst.
Qed.

(** What [rstrip] keeps: the text up to its last character that is not
    whitespace. *)
Lemma rstrip_split (s : str) :
  exists w, s = rstrip s ++ w /\ blank w = true.
Proof.
  unfold rstrip. destruct (dropwhile_split is_space (rev s)) as [w [E F]].
  exists (rev w). split.
  - rewrite <- rev_app_distr, <- E. now rewrite rev_involutive.
  - unfold blank. rewrite forallb_forall in *. intros x Hx.
    apply F. now apply in_rev.
Qed.

Lemma rstrip_app_nonspace (s : str) (c : char) :
  is_space c = false -> rstrip (s ++ [c]) = s ++ [c].
Proof.
  intros Hc. unfold rstrip. rewrite rev_app_distr. simpl. rewrite Hc.
  simpl. now rewrite rev_involutive.
Qed.

Lemma rstrip_last (s : str) :
  rstrip s = [] \/ exists a c, rstrip s = a ++ [c] /\ is_space c = false.
Proof.
  unfold rstrip. destruct (dropwhile is_space (rev s)) as [|c t] eqn:E.
  - now left.
  - right. exists (rev t), c. split; [reflexivity|].
    exact (dropwhile_hd _ _ E).
Qed.

Lemma rstrip_idem (s : str) : rstrip (rstrip s) = rstrip s.
Proof.
  destruct (rstrip_last s) as [E | [a [c [E Hc]]]]; rewrite E.
  - reflexivity.
  - now apply rstrip_app_nonspace.
Qed.

Lemma rstrip_cons_nonspace (c : char) (s : str) :
  is_space c = false -> rstrip (c :: s) = c :: rstrip s.
Proof.
  intros Hc. unfold rstrip. simpl.
  destruct (dropwhile_split is_space (rev s)) as [w [E F]].
  rewrite E at 1. rewrite <- app_assoc.
  rewrite dropwhile_app_all by exact F.
  destruct (dropwhile is_space (rev s)) as [|d t] eqn:D.
  - simpl. now rewrite Hc.
  - simpl. rewrite (dropwhile_hd _ _ D). simpl.
    now rewrite rev_app_distr.
Qed.

Lemma rstrip_starts (s : str) :
  starts_space s = false -> starts_space (rstrip s) = false.
Proof.
  destruct s as [|c s]; [reflexivity|]. simpl. intros Hc.
  now rewrite rstrip_cons_nonspace; simpl.
Qed.

Lemma lstrip_starts (s : str) : starts_space (lstrip s) = false.
Proof.
  unfold lstrip. destruct (dropwhile is_space s) as [|c t] eqn:E;
    [reflexivity|]. simpl. exact (dropwhile_hd _ _ E).
Qed.

Lemma strip_starts (s : str) : starts_space (strip s) = false.
Proof. apply rstrip_starts, lstrip_starts. Qed.

Lemma lstrip_fixed (s : str) : starts_space s = false -> lstrip s = s.
Proof.
  destruct s as [|c s]; [reflexivity|]. simpl. unfold lstrip. simpl.
  now intros ->.
Qed.

Lemma strip_idem (s : str) : strip (strip s) = strip s.
Proof.
  unfold strip at 1. rewrite lstrip_fixed by apply strip_starts.
  unfold strip. apply rstrip_idem.
Qed.

(** A trimmed string that is not empty is not blank. *)
Lemma strip_nonempty_not_blank (s : str) :
  nonempty (strip s) = true -> blank (strip s) = false.
Proof.
  pose proof (strip_starts s) as H.
  destruct (strip s) as [|c t]; [discriminate|].
  simpl in *. now rewrite H.
Qed.

Lemma strip_blank (s : str) : blank s = true -> strip s = [].
Proof.
  intros H. unfold strip, lstrip. now rewrite dropwhile_blank.
Qed.

Lemma strip_not_blank (s : str) : blank s = false -> nonempty (strip s) = true.
Proof.
  intros H. unfold strip.
  destruct (lstrip s) as [|c t] eqn:E.
  - apply dropwhile_nil_blank in E. congruence.
  - rewrite rstrip_cons_nonspace by exact (dropwhile_hd _ _ E). reflexivity.
Qed.

(* ================================================================= *)
(** ** Facts about the matcher *)

Section MatcherFacts.

Variable U : ucd.

Lemma advances_refl (st : mstate) : advances st st [].
Proof. split; reflexivity. Qed.

Lemma advances_trans (a b c : mstate) (v w : str) :
  advances a b v -> advances b c w -> advances a c (v ++ w).
Proof.
  intros [A1 A2] [B1 B2]. split.
  - now rewrite A1, B1, app_assoc.
  - now rewrite B2, A2, rev_app_distr, app_assoc.
Qed.

Lemma advances_consumed (st st' : mstate) (w : str) :
  advances st st' w -> consumed st st' = w.
Proof.
  intros [_ B]. unfold consumed. rewrite B, length_app, length_rev.
  replace (length w + length (before st) - length (before st)) with (length w)
    by lia.
  rewrite <- (length_rev w), firstn_app, Nat.sub_diag, firstn_all. simpl.
  now rewrite app_nil_r, rev_involutive.
Qed.

Lemma advances_length (st st' : mstate) (w : str) :
  advances st st' w -> length (after st) - length (after st') = length w.
Proof. intros [A _]. rewrite A, length_app. lia. Qed.

Lemma eat_inv (p : char -> bool) (st st' : mstate) :
  In st' (eat p st) ->
  exists c, p c = true /\ after st = c :: after st' /\
            before st' = c :: before st /\ caps st' = caps st.
Proof.
  unfold eat. destruct (after st) as [|c t]; [intros []|].
  destruct (p c) eqn:Hc; [|intros []].
  intros [<- | []]. exists c. simpl. auto.
Qed.

Lemma holds_inv (b : bool) (st st' : mstate) :
  In st' (holds b st) -> b = true /\ st' = st.
Proof. destruct b; simpl; intuition. Qed.

Lemma greedy_inv (p : char -> bool) (hi : option nat) (aft : str) :
  forall k bef n b a,
    In (n, (b, a)) (greedy p hi k bef aft) ->
    exists w, aft = w ++ a /\ b = rev w ++ bef /\ forallb p w = true /\
              n = k + length w /\ (w = [] \/ under hi (n - 1) = true).
Proof.
  induction aft as [|c t IH]; simpl; intros k bef n b a H.
  - destruct H as [E | []]. injection E as <- <- <-. exists []. simpl.
    repeat split; auto.
  - destruct (p c && under hi k) eqn:Hc.
    + apply in_app_or in H as [H | [E | []]].
      * destruct (IH _ _ _ _ _ H) as [w [E1 [E2 [E3 [E4 E5]]]]].
        exists (c :: w). apply andb_prop in Hc as [Hc Hu]. simpl.
        rewrite Hc, E3. subst. repeat split; auto; try lia.
        -- now rewrite <- app_assoc.
        -- right. destruct E5 as [-> | E5]; [|exact E5].
           assert (X : S k + length (@nil char) - 1 = k) by (simpl; lia).
           now rewrite X.
      * injection E as <- <- <-. exists []. simpl. repeat split; auto.
    + destruct H as [E | []]. injection E as <- <- <-. exists []. simpl.
      repeat split; auto.
Qed.

Lemma greedy_ext (p q : char -> bool) (hi : option nat) (E : forall c, p c = q c)
      (aft : str) :
  forall k bef, greedy p hi k bef aft = greedy q hi k bef aft.
Proof.
  induction aft as [|c t IH]; intros k bef; simpl; [reflexivity|].
  now rewrite E, IH.
Qed.

Lemma rep_inv (p : char -> bool) (lo : nat) (hi : option nat) (st st' : mstate) :
  In st' (rep p lo hi st) ->
  exists w, advances st st' w /\ forallb p w = true /\ lo <= length w /\
            caps st' = caps st.
Proof.
  unfold rep. intros H. apply in_map_iff in H as [[n [b a]] [<- H]].
  apply filter_In in H as [H Hlo]. simpl in Hlo.
  apply greedy_inv in H as [w [E1 [E2 [E3 [E4 _]]]]].
  exists w. unfold advances. simpl. apply Nat.leb_le in Hlo.
  repeat split; auto. lia.
Qed.

(** The same, for a repetition of at most [h] characters. *)
Lemma rep_inv_bound (p : char -> bool) (lo h : nat) (st st' : mstate) :
  In st' (rep p lo (Some h) st) ->
  exists w, advances st st' w /\ forallb p w = true /\ lo <= length w /\
            length w <= h /\ caps st' = caps st.
Proof.
  unfold rep. intros H. apply in_map_iff in H as [[n [b a]] [<- H]].
  apply filter_In in H as [H Hlo]. simpl in Hlo.
  apply greedy_inv in H as [w [E1 [E2 [E3 [E4 E5]]]]].
  exists w. unfold advances. simpl. apply Nat.leb_le in Hlo.
  repeat split; auto; try lia.
  destruct E5 as [-> | E5]; [simpl; lia|].
  simpl in E5. apply Nat.ltb_lt in E5. lia.
Qed.

(** Ways to build a match. *)
Lemma greedy_base (p : char -> bool) (hi : option nat) (k : nat) (bef aft : str) :
  In (k, (bef, aft)) (greedy p hi k bef aft).
Proof.
  destruct aft as [|c t]; simpl; [now left|].
  destruct (p c && under hi k); [apply in_or_app; right|]; now left.
Qed.

Lemma greedy_step (p : char -> bool) (hi : option nat) (k : nat) (bef t : str)
      (c : char) (x : nat * (str * str)) :
  p c = true -> under hi k = true ->
  In x (greedy p hi (S k) (c :: bef) t) -> In x (greedy p hi k bef (c :: t)).
Proof.
  intros Hc Hu H. simpl. rewrite Hc, Hu. simpl. apply in_or_app. now left.
Qed.

Lemma in_lit (c : char) (st : mstate) (t : str) :
  after st = c :: t ->
  In {| before := c :: before st; after := t; caps := caps st |}
     (m U (Lit c) st).
Proof.
  intros E. cbn [m]. unfold eat. rewrite E, N.eqb_refl. now left.
Qed.

Lemma in_cat (a b : re) (st s1 s2 : mstate) :
  In s1 (m U a st) -> In s2 (m U b s1) -> In s2 (m U (Cat a b) st).
Proof. intros H1 H2. cbn [m]. apply in_flat_map. eauto. Qed.

Lemma in_rep_none (cs : cset) (hi : option nat) (st : mstate) :
  In st (m U (Rep cs 0 hi) st).
Proof.
  cbn [m]. unfold rep. apply in_map_iff.
  exists (0, (before st, after st)). split; [now destruct st|].
  apply filter_In. split; [apply greedy_base|reflexivity].
Qed.

Lemma in_rep_one (cs : cset) (lo : nat) (hi : option nat) (st : mstate)
      (c : char) (t : str) :
  after st = c :: t -> cset_mem U cs c = true -> lo <= 1 ->
  under hi 0 = true ->
  In {| before := c :: before st; after := t; caps := caps st |}
     (m U (Rep cs lo hi) st).
Proof.
  intros E Hc Hlo Hu. cbn [m]. unfold rep. apply in_map_iff.
  exists (1, (c :: before st, t)). split; [reflexivity|].
  apply filter_In. split.
  - rewrite E. apply greedy_step; auto. apply greedy_base.
  - simpl. now apply Nat.leb_le.
Qed.

(** Every match moves the position forward over a piece of the text after
    it. *)
Lemma m_advances (r : re) :
  forall st st', In st' (m U r st) -> exists w, advances st st' w.
Proof.
  induction r as [c|c|cs|cs lo hi|a IHa b IHb|a IHa b IHb|n a IHa| | |cs|cs];
    simpl; intros st st' H.
  1-3: apply eat_inv in H as [c' [_ [A [B _]]]]; exists [c']; now split.
  - apply rep_inv in H as [w [A _]]. now exists w.
  - apply in_flat_map in H as [st1 [H1 H2]].
    destruct (IHa _ _ H1) as [v A], (IHb _ _ H2) as [w B].
    exists (v ++ w). eapply advances_trans; eauto.
  - apply in_app_or in H as [H | H]; eauto.
  - apply in_map_iff in H as [s [<- H]].
    destruct (IHa _ _ H) as [w A]. exists w. exact A.
  - apply holds_inv in H as [_ ->]. exists []. apply advances_refl.
  - apply holds_inv in H as [_ ->]. exists []. apply advances_refl.
  - apply holds_inv in H as [_ ->]. exists []. apply advances_refl.
  - apply holds_inv in H as [_ ->]. exists []. apply advances_refl.
Qed.

(** A match takes at least [min_len] characters. *)
Lemma m_min_len (r : re) :
  forall st st' w, In st' (m U r st) -> advances st st' w ->
                   min_len r <= length w.
Proof.
  assert (uniq : forall st st' v w, advances st st' v -> advances st st' w ->
                                    length v = length w).
  { intros st st' v w A B. apply advances_length in A, B. congruence. }
  induction r as [c|c|cs|cs lo hi|a IHa b IHb|a IHa b IHb|n a IHa| | |cs|cs];
    simpl; intros st st' w H A; try lia.
  1-3: apply eat_inv in H as [c' [_ [E1 [E2 _]]]];
       rewrite (uniq _ _ w [c'] A); [simpl; lia | now split].
  - apply rep_inv in H as [v [B [_ [L _]]]]. now rewrite (uniq _ _ w v A B).
  - apply in_flat_map in H as [st1 [H1 H2]].
    destruct (m_advances _ _ _ H1) as [v1 A1], (m_advances _ _ _ H2) as [v2 A2].
    pose proof (IHa _ _ _ H1 A1). pose proof (IHb _ _ _ H2 A2).
    rewrite (uniq _ _ w (v1 ++ v2) A (advances_trans A1 A2)), length_app. lia.
  - apply in_app_or in H as [H | H]; [pose proof (IHa _ _ _ H A)
                                     | pose proof (IHb _ _ _ H A)]; lia.
  - apply in_map_iff in H as [s [<- H]]. apply (IHa st s); auto.
Qed.

(** What [match_at] reports is the first of the matches. *)
Lemma match_at_inv (r : re) (bef aft : str) (len : nat) (cs : list (nat * str)) :
  match_at U r bef aft = Some (len, cs) ->
  exists st' w,
    In st' (m U r {| before := bef; after := aft; caps := [] |}) /\
    cs = caps st' /\ aft = w ++ after st' /\ before st' = rev w ++ bef /\
    length w = len /\ w <> [].
Proof.
  unfold match_at.
  destruct (m U r _) as [|st' l] eqn:E; [discriminate|].
  assert (H : In st' (m U r {| before := bef; after := aft; caps := [] |}))
    by (rewrite E; now left).
  destruct (m_advances _ _ _ H) as [w A].
  pose proof (advances_length A) as L. simpl in L. rewrite L.
  destruct A as [A1 A2]. simpl in A1, A2.
  destruct (length w) eqn:Lw; [discriminate|].
  intros Q. inversion Q; subst. exists st', w.
  repeat split; auto; try (now left).
  all: try (intros ->; discriminate).
Qed.

(** For a pattern that takes a character, [match_at] is the first match
    whenever there is one: the case of an empty match does not arise. *)
Lemma match_at_first (r : re) (bef aft : str) (st' : mstate) (l : list mstate) :
  1 <= min_len r ->
  m U r {| before := bef; after := aft; caps := [] |} = st' :: l ->
  match_at U r bef aft = Some (length aft - length (after st'), caps st').
Proof.
  intros Hr E. unfold match_at. rewrite E.
  assert (H : In st' (m U r {| before := bef; after := aft; caps := [] |}))
    by (rewrite E; now left).
  destruct (m_advances _ _ _ H) as [w A].
  pose proof (m_min_len r H A) as L.
  pose proof (advances_length A) as K. cbn [after] in K. rewrite K.
  destruct (length w); [lia | reflexivity].
Qed.

(** Every pattern of the module takes at least one character. *)
Lemma patterns_take_a_character :
  Forall (fun r => 1 <= min_len r)
         [URL_PATTERN; EMAIL_PATTERN; QUOTES_PATTERN; DASHES_PATTERN;
          APOSTROPHES_PATTERN; UA_ABBREVIATIONS; NEWS_CITY; DECIMAL_DOT;
          INITIAL_DOT; SENTENCE_END; SPACES; QUOTE_RUN; INSTAGRAM_NOISE].
Proof. repeat constructor; vm_compute; repeat constructor. Qed.

Lemma match_at_none (r : re) (bef aft : str) :
  m U r {| before := bef; after := aft; caps := [] |} = [] ->
  match_at U r bef aft = None.
Proof. unfold match_at. now intros ->. Qed.

(* ----------------------------------------------------------------- *)
(** *** [re.sub] *)

Lemma sub_go_skip (r : re) (tpl : list titem) (w : str) :
  forall bef aft,
    sub_go U r tpl bef (w ++ aft) (length w) = sub_go U r tpl (rev w ++ bef) aft 0.
Proof.
  induction w as [|c w IH]; intros bef aft; simpl.
  - now destruct aft.
  - now rewrite IH, <- app_assoc.
Qed.

Lemma sub_go_match (r : re) (tpl : list titem) (bef w aft : str)
      (cs : list (nat * str)) :
  w <> [] ->
  match_at U r bef (w ++ aft) = Some (length w, cs) ->
  sub_go U r tpl bef (w ++ aft) 0 = expand tpl cs ++ sub_go U r tpl (rev w ++ bef) aft 0.
Proof.
  intros Hw H. destruct w as [|c w]; [congruence|].
  change ((c :: w) ++ aft) with (c :: (w ++ aft)) in *.
  cbn [sub_go]. rewrite H. cbn [length]. rewrite Nat.sub_succ, Nat.sub_0_r.
  rewrite sub_go_skip. simpl. now rewrite <- app_assoc.
Qed.

(** The scan of [re.sub], as an induction principle: a relation between a
    position and the output from it holds when it holds at the end of the
    text, is kept where a character is copied and is kept over a match. *)
Lemma sub_ind (r : re) (tpl : list titem) (R : str -> str -> str -> Prop) :
  (forall bef, R bef [] []) ->
  (forall bef c t o,
      match_at U r bef (c :: t) = None ->
      R (c :: bef) t o -> R bef (c :: t) (c :: o)) ->
  (forall bef w aft cs o,
      w <> [] -> match_at U r bef (w ++ aft) = Some (length w, cs) ->
      R (rev w ++ bef) aft o -> R bef (w ++ aft) (expand tpl cs ++ o)) ->
  forall bef aft, R bef aft (sub_go U r tpl bef aft 0).
Proof.
  intros Hnil Hcopy Hmatch bef aft.
  remember (length aft) as n eqn:Hn. revert bef aft Hn.
  induction n as [n IH] using lt_wf_ind. intros bef aft Hn.
  destruct aft as [|c t]; [apply Hnil|].
  destruct (match_at U r bef (c :: t)) as [[len cs]|] eqn:E.
  - destruct (match_at_inv _ _ _ E) as [st' [w [_ [_ [A [_ [L Hw]]]]]]].
    rewrite A in *. subst len.
    rewrite sub_go_match with (cs := cs) by assumption.
    apply Hmatch; auto.
    apply (IH (length (after st'))); auto.
    subst n. rewrite length_app. destruct w; [congruence|simpl; lia].
  - cbn [sub_go]. rewrite E. apply Hcopy; auto.
    apply (IH (length t)); auto. subst n. simpl. lia.
Qed.

(* ----------------------------------------------------------------- *)
(** *** [re.split] *)

Lemma split_go_cur (r : re) (aft : str) :
  forall bef k cur,
    split_go U r bef aft k cur =
    match split_go U r bef aft k [] with
    | p :: ps => (rev cur ++ p) :: ps
    | [] => [rev cur]
    end.
Proof.
  induction aft as [|c t IH]; intros bef k cur; simpl.
  - now rewrite app_nil_r.
  - destruct k as [|k].
    + destruct (match_at U r bef (c :: t)) as [[len cs]|].
      * now rewrite app_nil_r.
      * rewrite (IH _ _ (c :: cur)), (IH _ _ [c]).
        destruct (split_go U r (c :: bef) t 0 []); simpl;
          [reflexivity | now rewrite <- app_assoc].
    + apply IH.
Qed.

Lemma split_go_skip (r : re) (w : str) :
  forall bef aft cur,
    split_go U r bef (w ++ aft) (length w) cur =
    split_go U r (rev w ++ bef) aft 0 cur.
Proof.
  induction w as [|c w IH]; intros bef aft cur; simpl.
  - now destruct aft.
  - now rewrite IH, <- app_assoc.
Qed.

Lemma split_go_match (r : re) (bef w aft : str) (cs : list (nat * str)) :
  w <> [] ->
  match_at U r bef (w ++ aft) = Some (length w, cs) ->
  split_go U r bef (w ++ aft) 0 [] = [] :: split_go U r (rev w ++ bef) aft 0 [].
Proof.
  intros Hw H. destruct w as [|c w]; [congruence|].
  change ((c :: w) ++ aft) with (c :: (w ++ aft)) in *.
  cbn [split_go]. rewrite H. cbn [length]. rewrite Nat.sub_succ, Nat.sub_0_r.
  rewrite split_go_skip. simpl. now rewrite <- app_assoc.
Qed.

(** The scan of [re.split], as an induction principle. *)
Lemma split_ind (r : re) (R : str -> str -> list str -> Prop) :
  (forall bef, R bef [] [[]]) ->
  (forall bef c t p ps,
      match_at U r bef (c :: t) = None ->
      R (c :: bef) t (p :: ps) -> R bef (c :: t) ((c :: p) :: ps)) ->
  (forall bef w aft cs p ps,
      w <> [] -> match_at U r bef (w ++ aft) = Some (length w, cs) ->
      R (rev w ++ bef) aft (p :: ps) -> R bef (w ++ aft) ([] :: p :: ps)) ->
  forall bef aft,
    exists p ps, split_go U r bef aft 0 [] = p :: ps /\ R bef aft (p :: ps).
Proof.
  intros Hnil Hcopy Hmatch bef aft.
  remember (length aft) as n eqn:Hn. revert bef aft Hn.
  induction n as [n IH] using lt_wf_ind. intros bef aft Hn.
  destruct aft as [|c t]; [exists [], []; split; [reflexivity|apply Hnil]|].
  destruct (match_at U r bef (c :: t)) as [[len cs]|] eqn:E.
  - destruct (match_at_inv _ _ _ E) as [st' [w [_ [_ [A [_ [L Hw]]]]]]].
    rewrite A in *. subst len. rewrite split_go_match with (cs := cs) by assumption.
    destruct (IH (length (after st'))) with (bef := rev w ++ bef) (aft := after st')
      as [p [ps [E1 HR]]]; auto.
    { subst n. rewrite length_app. destruct w; [congruence|simpl; lia]. }
    exists [], (p :: ps). rewrite E1. split; [reflexivity|].
    eapply Hmatch; eauto.
  - cbn [split_go]. rewrite E.
    destruct (IH (length t)) with (bef := c :: bef) (aft := t)
      as [p [ps [E1 HR]]]; auto.
    { subst n. simpl. lia. }
    rewrite split_go_cur, E1. exists (c :: p), ps. split; [reflexivity|].
    now apply Hcopy.
Qed.

(* ----------------------------------------------------------------- *)
(** *** [re.search] *)

Lemma search_go_none (r : re) (aft : str) :
  forall bef, search_go U r bef aft = false ->
              forall tpl, sub_go U r tpl bef aft 0 = aft.
Proof.
  induction aft as [|c t IH]; intros bef H tpl; [reflexivity|].
  simpl in *. destruct (match_at U r bef (c :: t)); [discriminate|].
  now rewrite IH.
Qed.

End MatcherFacts.

(* ================================================================= *)
(** ** Substituting a set of characters: [normalize_typography] *)

Section Typography.

Variable U : ucd.

Lemma length_cons_sub (c : char) (t : str) : length (c :: t) - length t = 1.
Proof. change (length (c :: t)) with (S (length t)). lia. Qed.

(** A pattern that is one set matches where the next character is in it. *)
Lemma match_at_cls (cs : cset) (bef aft : str) :
  match_at U (Cls cs) bef aft =
  match aft with
  | c :: _ => if cset_mem U cs c then Some (1, []) else None
  | [] => None
  end.
Proof.
  unfold match_at. cbn [m]. unfold eat. cbn [after before caps].
  destruct aft as [|c t]; [reflexivity|].
  destruct (cset_mem U cs c); [|reflexivity].
  cbn [after caps]. now rewrite length_cons_sub.
Qed.

Lemma sub_cls (cs : cset) (x : char) (s : str) :
  sub U (Cls cs) [TStr [x]] s = map (swap U cs x) s.
Proof.
  unfold sub.
  apply (sub_ind U (Cls cs) [TStr [x]] (fun _ aft o => o = map (swap U cs x) aft)).
  - reflexivity.
  - intros bef c t o H ->. rewrite match_at_cls in H. unfold swap at 2.
    simpl. now destruct (cset_mem U cs c).
  - intros bef w aft cs' o Hw H ->. rewrite match_at_cls in H.
    destruct w as [|c w]; [congruence|]. simpl in H.
    destruct (cset_mem U cs c) eqn:Hc; [|discriminate].
    injection H as H <-. destruct w; [|discriminate].
    simpl. unfold swap at 2. now rewrite Hc.
Qed.

Lemma normalize_typography_map (s : str) :
  normalize_typography U s = map typo s.
Proof.
  unfold normalize_typography.
  change APOSTROPHES_PATTERN
    with (Cls [CChar 96; CChar 8217; CChar 8216; CChar 700]%N).
  change QUOTES_PATTERN
    with (Cls [CChar 171; CChar 187; CChar 8220; CChar 8221; CChar 8222]%N).
  change DASHES_PATTERN with (Cls [CChar 8212; CChar 8211]%N).
  change (u "'") with [39%N]. change (u "-") with [45%N].
  unfold dquote. rewrite !sub_cls, !map_map.
  apply map_ext. intros c. unfold swap, typo, cset_mem. cbn [existsb item_mem].
  rewrite !orb_false_r.
  repeat (match goal with
          | |- context [N.eqb c ?k] =>
              destruct (N.eqb_spec c k) as [->|?]; cbn
          end); try reflexivity.
Qed.

Lemma typo_idem (c : char) : typo (typo c) = typo c.
Proof.
  unfold typo.
  repeat (match goal with
          | |- context [N.eqb c ?k] =>
              destruct (N.eqb_spec c k) as [->|?]; cbn
          end); try reflexivity; congruence.
Qed.

End Typography.

(* ================================================================= *)
(** ** Collapsing whitespace: [clean_whitespace] *)

Section Whitespace.

Variable U : ucd.

Lemma takewhile_dropwhile (p : char -> bool) (s : str) :
  takewhile p s ++ dropwhile p s = s.
Proof.
  induction s as [|c s IH]; simpl; [reflexivity|].
  destruct (p c); simpl; congruence.
Qed.

Lemma greedy_head (p : char -> bool) (aft : str) :
  forall k bef, exists l,
    greedy p None k bef aft =
    (k + length (takewhile p aft), (rev (takewhile p aft) ++ bef, dropwhile p aft)) :: l.
Proof.
  induction aft as [|c t IH]; intros k bef; simpl.
  - exists []. now rewrite Nat.add_0_r.
  - destruct (p c); simpl.
    + destruct (IH (S k) (c :: bef)) as [l ->]. eexists. simpl.
      rewrite <- app_assoc. simpl. f_equal. f_equal. lia.
    + exists []. now rewrite Nat.add_0_r.
Qed.

(** [\s+] matches where the next character is whitespace, and takes the
    whole run. *)
Lemma match_at_spaces (bef aft : str) :
  match_at U SPACES bef aft =
  if starts_space aft
  then Some (length (takewhile is_space aft), [])
  else None.
Proof.
  unfold match_at, SPACES. cbn [m]. unfold rep. cbn [before after caps].
  assert (E : forall c, cset_mem U [CSpace] c = is_space c)
    by (intro c; unfold cset_mem; simpl; apply orb_false_r).
  rewrite (@greedy_ext _ _ None E).
  destruct aft as [|c t]; [reflexivity|]. cbn [starts_space].
  destruct (is_space c) eqn:Hc.
  - destruct (greedy_head is_space (c :: t) 0 bef) as [l ->].
    cbn [filter fst]. simpl takewhile. rewrite Hc. cbn [length Nat.add Nat.leb map].
    cbn [after caps snd fst].
    replace (S (length t) - length (dropwhile is_space (c :: t)))
      with (S (length (takewhile is_space t))); [reflexivity|].
    cbn [dropwhile]. rewrite Hc.
    pose proof (f_equal (@length _) (takewhile_dropwhile is_space t)) as L.
    rewrite length_app in L. lia.
  - simpl. now rewrite Hc.
Qed.

Lemma takewhile_all (p : char -> bool) (s : str) :
  forallb p (takewhile p s) = true.
Proof.
  induction s as [|c s IH]; simpl; [reflexivity|].
  destruct (p c) eqn:Hc; simpl; [now rewrite Hc|reflexivity].
Qed.

Lemma dropwhile_starts (s : str) :
  starts_space (dropwhile is_space s) = false.
Proof. apply lstrip_starts. Qed.

Lemma collapse_run (w aft : str) :
  forallb is_space w = true -> w <> [] -> starts_space aft = false ->
  collapse (w ++ aft) = 32%N :: collapse aft.
Proof.
  induction w as [|c w IH]; [congruence|]. intros H _ Ha.
  simpl in H. apply andb_prop in H as [Hc Hw]. simpl. rewrite Hc.
  destruct w as [|d w].
  - simpl. now rewrite Ha.
  - simpl in Hw. apply andb_prop in Hw as [Hd Hw]. cbn [app starts_space].
    rewrite Hd. apply IH; auto; [simpl; now rewrite Hd, Hw | discriminate].
Qed.

(** [re.sub(r'\s+', ' ', text)] *)
Lemma sub_spaces (s : str) : sub U SPACES [TStr SPACE] s = collapse s.
Proof.
  unfold sub.
  apply (sub_ind U SPACES [TStr SPACE] (fun _ aft o => o = collapse aft)).
  - reflexivity.
  - intros bef c t o H ->. rewrite match_at_spaces in H. simpl in H.
    simpl. destruct (is_space c); [discriminate|reflexivity].
  - intros bef w aft cs o Hw H ->. rewrite match_at_spaces in H.
    destruct (starts_space (w ++ aft)); [|discriminate].
    injection H as L <-.
    assert (E : w = takewhile is_space (w ++ aft) /\
                aft = dropwhile is_space (w ++ aft)).
    { pose proof (takewhile_dropwhile is_space (w ++ aft)) as T.
      symmetry in T. now apply app_eq_length in T. }
    destruct E as [E1 E2].
    simpl. rewrite collapse_run; [reflexivity| |assumption|].
    + rewrite E1. apply takewhile_all.
    + rewrite E2. apply dropwhile_starts.
Qed.

Lemma starts_collapse (s : str) : starts_space (collapse s) = starts_space s.
Proof.
  induction s as [|c s IH]; [reflexivity|]. simpl.
  destruct (is_space c) eqn:Hc; simpl; [|exact Hc].
  destruct (starts_space s) eqn:Hs; simpl; [now rewrite IH|reflexivity].
Qed.

Lemma spaced_collapse (s : str) : spaced (collapse s) = true.
Proof.
  induction s as [|c s IH]; [reflexivity|]. simpl.
  destruct (is_space c) eqn:Hc.
  - destruct (starts_space s) eqn:Hs; [exact IH|].
    simpl. now rewrite starts_collapse, Hs, IH.
  - simpl. now rewrite Hc, IH.
Qed.

Lemma collapse_spaced (s : str) : spaced s = true -> collapse s = s.
Proof.
  induction s as [|c s IH]; [reflexivity|]. simpl. intros H.
  apply andb_prop in H as [H1 H2]. rewrite (IH H2).
  destruct (is_space c); [|reflexivity].
  simpl in H1. apply andb_prop in H1 as [H1 H3].
  apply N.eqb_eq in H1. subst c.
  now destruct (starts_space s).
Qed.

Lemma spaced_app_r (a b : str) : spaced (a ++ b) = true -> spaced b = true.
Proof.
  induction a as [|c a IH]; simpl; [auto|].
  intros H. apply andb_prop in H as [_ H]. auto.
Qed.

Lemma spaced_app_l (a b : str) : spaced (a ++ b) = true -> spaced a = true.
Proof.
  induction a as [|c a IH]; simpl; [auto|].
  intros H. apply andb_prop in H as [H1 H2]. rewrite (IH H2), andb_true_r.
  destruct (is_space c); [|reflexivity]. simpl in *.
  apply andb_prop in H1 as [-> H1]. destruct a; [reflexivity|exact H1].
Qed.

Lemma spaced_strip (s : str) : spaced s = true -> spaced (strip s) = true.
Proof.
  intros H. unfold strip.
  destruct (rstrip_split (lstrip s)) as [w [E _]].
  apply spaced_app_l with (b := w). rewrite <- E.
  unfold lstrip. destruct (dropwhile_split is_space s) as [v [E' _]].
  apply spaced_app_r with (a := v). now rewrite <- E'.
Qed.

Lemma strip_ends (s : str) : ends_space (strip s) = false.
Proof.
  unfold ends_space, strip.
  destruct (rstrip_last (lstrip s)) as [-> | [a [c [-> Hc]]]]; [reflexivity|].
  rewrite rev_app_distr. exact Hc.
Qed.

Lemma rstrip_fixed (s : str) : ends_space s = false -> rstrip s = s.
Proof.
  unfold ends_space, rstrip. intros H.
  destruct (rev s) as [|c t] eqn:E.
  - apply (f_equal (@rev _)) in E. rewrite rev_involutive in E. now subst.
  - simpl in *. rewrite H. rewrite <- E. apply rev_involutive.
Qed.

Lemma strip_fixed (s : str) :
  starts_space s = false -> ends_space s = false -> strip s = s.
Proof.
  intros H1 H2. unfold strip. rewrite lstrip_fixed by assumption.
  now apply rstrip_fixed.
Qed.

(** What [clean_whitespace] returns is whitespace-normal. *)
Lemma clean_whitespace_normal (s : str) : ws_normal (clean_whitespace U s).
Proof.
  unfold clean_whitespace. rewrite sub_spaces. repeat split.
  - apply strip_starts.
  - apply strip_ends.
  - apply spaced_strip, spaced_collapse.
Qed.

(** A whitespace-normal text is a fixed point of [clean_whitespace]. *)
Lemma clean_whitespace_fixed (s : str) :
  ws_normal s -> clean_whitespace U s = s.
Proof.
  intros [H1 [H2 H3]]. unfold clean_whitespace.
  rewrite sub_spaces, collapse_spaced by assumption.
  now apply strip_fixed.
Qed.

Lemma spaced_no_run (s : str) : spaced s = true -> space_run s = false.
Proof.
  induction s as [|c s IH]; [reflexivity|]. simpl. intros H.
  apply andb_prop in H as [H1 H2]. rewrite (IH H2), orb_false_r.
  destruct (is_space c); [|reflexivity]. simpl in *.
  apply andb_prop in H1 as [_ H1]. now destruct (starts_space s).
Qed.

End Whitespace.

(* ================================================================= *)
(** ** Protecting and restoring periods: [split_sentences] *)

Section Protect.

Variable U : ucd.
Hypothesis period : period_uncased U.

Lemma dotted_refl (t : str) : dotted t t.
Proof. induction t; constructor; auto. Qed.

Lemma dotted_app (a a' b b' : str) :
  dotted a a' -> dotted b b' -> dotted (a ++ b) (a' ++ b').
Proof.
  induction 1; intros Hb.
  - exact Hb.
  - simpl. constructor; auto.
  - rewrite <- app_assoc. apply (dotted_dot (t := t ++ b)). auto.
Qed.

Lemma dotted_copy_inv (c : char) (p t : str) :
  c <> 60%N -> dotted t (c :: p) -> exists t', t = c :: t' /\ dotted t' p.
Proof.
  intros Hc H. inversion H; subst.
  - eauto.
  - exfalso. unfold DOT in *. simpl in *. congruence.
Qed.

Lemma dotted_keep_inv (c : char) (t p : str) :
  c <> 46%N -> dotted (c :: t) p -> exists p', p = c :: p' /\ dotted t p'.
Proof.
  intros Hc H. inversion H; subst; [eauto | congruence].
Qed.

Lemma dotted_trans (a b c : str) : dotted a b -> dotted b c -> dotted a c.
Proof.
  intros H. revert c. induction H as [|x t p H IH|t p H IH]; intros c Hc.
  - inversion Hc; subst. constructor.
  - inversion Hc; subst.
    + constructor; auto.
    + apply dotted_dot. apply IH.
      match goal with H1 : dotted p _ |- _ => exact H1 end.
  - unfold DOT in Hc. simpl in Hc.
    do 5 (apply dotted_keep_inv in Hc as [? [-> Hc]]; [|discriminate]).
    apply (dotted_dot (IH _ Hc)).
Qed.

(** A substitution that writes [<DOT>] for a period of each match, and
    keeps the rest of the match, gives a dotted text. *)
Lemma sub_dotted (r : re) (tpl : list titem) :
  (forall bef w aft cs,
      w <> [] -> match_at U r bef (w ++ aft) = Some (length w, cs) ->
      dotted w (expand tpl cs)) ->
  forall s, dotted s (sub U r tpl s).
Proof.
  intros Hm s. unfold sub.
  apply (sub_ind U r tpl (fun _ aft o => dotted aft o)).
  - intros _. constructor.
  - intros. now constructor.
  - intros bef w aft cs o Hw H Ho. apply dotted_app; eauto.
Qed.

(** The match found at a position, with the text it takes. *)
Lemma match_at_shape (r : re) (bef w aft : str) (cs : list (nat * str)) :
  match_at U r bef (w ++ aft) = Some (length w, cs) ->
  exists st',
    In st' (m U r {| before := bef; after := w ++ aft; caps := [] |}) /\
    cs = caps st' /\ after st' = aft /\ before st' = rev w ++ bef.
Proof.
  intros H. apply match_at_inv in H as [st' [w' [H [E [A [B [L _]]]]]]].
  apply app_eq_length in A as [-> ->]; auto. exists st'. auto.
Qed.

Lemma advances_same (st st' : mstate) (v w : str) :
  advances st st' v -> after st = w ++ after st' -> v = w.
Proof.
  intros [A _] E. rewrite E in A. now apply app_inv_tail in A.
Qed.

Lemma lit_takes_period : takes_period U (Lit 46%N).
Proof.
  intros s s' H. cbn [m] in H. apply eat_inv in H as [c [Hc [A [B C]]]].
  apply N.eqb_eq in Hc. subst c. auto.
Qed.

Lemma liti_takes_period : takes_period U (LitI 46%N).
Proof.
  intros s s' H. cbn [m] in H. apply eat_inv in H as [c [Hc [A [B C]]]].
  unfold lit_ignore in Hc. unfold period_uncased in period.
  rewrite period in Hc. apply N.eqb_eq in Hc. subst c. auto.
Qed.

(** A pattern [\b(A)\.] matches a text [g] followed by a period, and its
    first group is [g]. *)
Lemma keep1_shape (A D : re) (st st' : mstate) :
  takes_period U D ->
  In st' (m U (Cat WordB (Cat (Grp 1 A) D)) st) ->
  exists g, after st = (g ++ [46%N]) ++ after st' /\ group 1 (caps st') = g.
Proof.
  intros HD H. cbn [m] in H.
  apply in_flat_map in H as [x [Hx H]].
  apply holds_inv in Hx as [_ ->].
  apply in_flat_map in H as [s2 [H2 H]].
  apply in_map_iff in H2 as [s [<- Hs]].
  destruct (m_advances _ _ _ _ Hs) as [g Hg].
  rewrite (advances_consumed Hg) in H.
  apply HD in H as [E1 [E2 E3]]. cbn [after before caps] in *.
  exists g. rewrite E3. split; [|reflexivity].
  destruct Hg as [Hg _]. now rewrite Hg, E1, <- app_assoc.
Qed.

Lemma keep1_dotted (A D : re) (r : re) :
  r = Cat WordB (Cat (Grp 1 A) D) -> takes_period U D ->
  forall s, dotted s (sub U r KEEP1_DOT s).
Proof.
  intros -> HD. apply sub_dotted. intros bef w aft cs Hw H.
  apply match_at_shape in H as [st' [H [-> [E _]]]].
  apply keep1_shape in H as [g [A1 A2]]; auto.
  cbn [after] in A1. rewrite E in A1. apply app_inv_tail in A1. subst w.
  unfold KEEP1_DOT. cbn [expand]. rewrite A2, app_nil_r.
  apply dotted_app; [apply dotted_refl|]. apply (dotted_dot dotted_nil).
Qed.

Lemma decimal_dotted (s : str) : dotted s (sub U DECIMAL_DOT KEEP1_DOT_KEEP2 s).
Proof.
  apply sub_dotted. intros bef w aft cs Hw H.
  apply match_at_shape in H as [st' [H [-> [E _]]]].
  unfold DECIMAL_DOT in H. cbn [m] in H.
  apply in_flat_map in H as [s1 [H1 H]].
  apply in_map_iff in H1 as [x1 [<- H1]].
  pose proof H1 as C1. apply eat_inv in C1 as [d1 [_ [A1 [B1 K1]]]].
  assert (G1 : advances {| before := bef; after := w ++ aft; caps := [] |} x1 [d1])
    by (split; assumption).
  rewrite (advances_consumed G1) in H.
  apply in_flat_map in H as [s2 [H2 H]].
  apply lit_takes_period in H2 as [A2 [B2 K2]].
  apply in_map_iff in H as [x3 [<- H3]].
  pose proof H3 as C3. apply eat_inv in C3 as [d2 [_ [A3 [B3 K3]]]].
  assert (G3 : advances s2 x3 [d2]) by (split; assumption).
  rewrite (advances_consumed G3).
  cbn [after before caps] in *. rewrite A2, A3, E in A1.
  change (w ++ aft = [d1; 46%N; d2] ++ aft) in A1.
  apply app_inv_tail in A1. subst w.
  unfold KEEP1_DOT_KEEP2. cbn [expand group Nat.eqb].
  rewrite K3, K2. cbn [group Nat.eqb]. rewrite app_nil_r.
  apply (dotted_copy d1). apply (dotted_dot (dotted_refl [d2])).
Qed.

(** The protect phase only writes [<DOT>] for periods. *)
Lemma protect_dotted (t : str) : dotted t (protect U t).
Proof.
  unfold protect.
  eapply dotted_trans; [|eapply keep1_dotted; [reflexivity|apply lit_takes_period]].
  eapply dotted_trans; [|apply decimal_dotted].
  eapply keep1_dotted; [reflexivity|apply liti_takes_period].
Qed.

End Protect.

(* ================================================================= *)
(** ** Splitting and restoring: [split_sentences] *)

Section Segment.

Variable U : ucd.

Lemma terminal_mem (c : char) : cset_mem U TERMINAL c = is_terminal c.
Proof.
  unfold cset_mem, TERMINAL, is_terminal. cbn [existsb item_mem].
  now rewrite orb_false_r, !orb_assoc.
Qed.

Lemma opening_mem (c : char) : cset_mem U OPENING c = is_opening c.
Proof.
  unfold cset_mem, OPENING, is_opening, in_range. cbn [existsb item_mem].
  now rewrite orb_false_r, !orb_assoc.
Qed.

Ltac to_prop :=
  rewrite ?orb_true_iff, ?andb_true_iff, ?N.leb_le, ?N.eqb_eq in *.

Lemma opening_not_space (c : char) : is_opening c = true -> is_space c = false.
Proof.
  intros H. destruct (is_space c) eqn:S; [|reflexivity].
  unfold is_opening, is_space, in_range in *. to_prop. lia.
Qed.

Lemma terminal_not_space (c : char) : is_terminal c = true -> is_space c = false.
Proof.
  intros H. destruct (is_space c) eqn:S; [|reflexivity].
  unfold is_terminal, is_space in *. to_prop. lia.
Qed.

(** Where the pattern of [re.split] matches: after a terminal mark, over
    whitespace, before a character a sentence may start with. *)
Lemma sentence_end_shape (bef w aft : str) (cs : list (nat * str)) :
  match_at U SENTENCE_END bef (w ++ aft) = Some (length w, cs) ->
  blank w = true /\
  (exists c bef', bef = c :: bef' /\ is_terminal c = true) /\
  (exists d aft', aft = d :: aft' /\ is_opening d = true).
Proof.
  intros H. apply match_at_shape in H as [st' [H [_ [E _]]]].
  unfold SENTENCE_END in H. cbn [cat m] in H.
  apply in_flat_map in H as [x [Hx H]].
  apply holds_inv in Hx as [Hb ->]. cbn [before] in Hb.
  apply in_flat_map in H as [s [Hs H]].
  apply holds_inv in H as [Ha ->].
  apply rep_inv in Hs as [v [A [Hv _]]].
  pose proof A as [A1 _]. cbn [after] in A1. rewrite E in A1, Ha.
  apply app_inv_tail in A1. subst v. repeat split.
  - unfold blank. rewrite <- Hv. apply forallb_eq.
    intros c. unfold cset_mem. simpl. now rewrite orb_false_r.
  - destruct bef as [|c bef']; [discriminate|].
    exists c, bef'. now rewrite <- terminal_mem.
  - destruct aft as [|d aft']; [discriminate|].
    exists d, aft'. now rewrite <- opening_mem.
Qed.

(* ----------------------------------------------------------------- *)
(** *** [str.replace] *)

Lemma starts_with_app (v s : str) : starts_with v (v ++ s) = true.
Proof.
  induction v as [|c v IH]; [reflexivity|]. simpl. now rewrite N.eqb_refl.
Qed.

Lemma starts_with_split (v s : str) :
  starts_with v s = true -> exists s', s = v ++ s'.
Proof.
  revert s. induction v as [|c v IH]; intros s H; [now exists s|].
  destruct s as [|d s]; [discriminate|]. simpl in H.
  apply andb_prop in H as [E H]. apply N.eqb_eq in E. subst d.
  destruct (IH _ H) as [s' ->]. now exists s'.
Qed.

(** A prefix that is found before a character it does not hold is found
    without what follows that character. *)
Lemma starts_with_cut (v x y : str) (c : char) :
  ~ In c v -> starts_with v (x ++ c :: y) = true -> starts_with v x = true.
Proof.
  revert x. induction v as [|a v IH]; intros x Hc H; [reflexivity|].
  destruct x as [|b x]; simpl in *.
  - apply andb_prop in H as [E _]. apply N.eqb_eq in E. subst. tauto.
  - apply andb_prop in H as [-> H]. simpl. apply IH; tauto.
Qed.

Lemma replace_go_skip (old new w : str) :
  forall s, replace_go old new (w ++ s) (length w) = replace_go old new s 0.
Proof.
  induction w as [|c w IH]; intros s; simpl; [now destruct s|apply IH].
Qed.

Lemma replace_go_hit (old new s : str) :
  old <> [] ->
  replace_go old new (old ++ s) 0 = new ++ replace_go old new s 0.
Proof.
  intros H. destruct old as [|c old]; [congruence|].
  change ((c :: old) ++ s) with (c :: (old ++ s)).
  cbn [replace_go].
  change (c :: old ++ s) with ((c :: old) ++ s). rewrite starts_with_app.
  cbn [length]. rewrite Nat.sub_succ, Nat.sub_0_r. now rewrite replace_go_skip.
Qed.

Lemma replace_go_miss (old new s : str) (c : char) :
  starts_with old (c :: s) = false ->
  replace_go old new (c :: s) 0 = c :: replace_go old new s 0.
Proof. intros H. cbn [replace_go]. now rewrite H. Qed.

(** [s.replace('<DOT>', '.')] on a text cut at a space. *)
Lemma restore_space (x y : str) :
  replace DOT PERIOD (x ++ 32%N :: y) =
  replace DOT PERIOD x ++ 32%N :: replace DOT PERIOD y.
Proof.
  change (replace DOT PERIOD) with (fun s => replace_go DOT PERIOD s 0).
  cbv beta.
  remember (length x) as n eqn:Hn. revert x Hn.
  induction n as [n IH] using lt_wf_ind. intros x Hn.
  destruct x as [|c x].
  - simpl app. now rewrite replace_go_miss by reflexivity.
  - destruct (starts_with DOT (c :: x)) eqn:E.
    + apply starts_with_split in E as [x' E]. rewrite E, <- !app_assoc.
      rewrite !replace_go_hit by discriminate.
      rewrite (IH (length x')); [now rewrite <- app_assoc|  | reflexivity].
      subst n. rewrite E, length_app. unfold DOT. simpl. lia.
    + change ((c :: x) ++ 32%N :: y) with (c :: (x ++ 32%N :: y)).
      rewrite !replace_go_miss; [|assumption|].
      * rewrite (IH (length x)); [reflexivity| |reflexivity].
        subst n. simpl. lia.
      * destruct (starts_with DOT (c :: x ++ 32%N :: y)) eqn:F; [|reflexivity].
        change (c :: x ++ 32%N :: y) with ((c :: x) ++ 32%N :: y) in F.
        apply starts_with_cut in F; [congruence|].
        unfold DOT. simpl. intuition discriminate.
Qed.

Lemma restore_join (pieces : list str) :
  replace DOT PERIOD (join SPACE pieces) =
  join SPACE (map (replace DOT PERIOD) pieces).
Proof.
  induction pieces as [|x [|y l] IH]; [reflexivity|reflexivity|].
  change (join SPACE (x :: y :: l)) with (x ++ 32%N :: join SPACE (y :: l)).
  rewrite restore_space, IH. reflexivity.
Qed.

(* ----------------------------------------------------------------- *)
(** *** Dotted texts *)

Lemma dotted_starts_space (t p : str) :
  dotted t p -> starts_space p = starts_space t.
Proof. now destruct 1. Qed.

Lemma dotted_spaced (t p : str) :
  dotted t p -> spaced t = true -> spaced p = true.
Proof.
  induction 1 as [|c t p H IH|t p H IH]; simpl; auto.
  intros S. apply andb_prop in S as [S1 S2].
  now rewrite (dotted_starts_space H), S1, IH.
Qed.

Lemma dotted_starts (v : str) :
  forallb (fun x => negb (x =? 60)%N) v = true ->
  forall t p, dotted t p -> starts_with v p = true -> starts_with v t = true.
Proof.
  induction v as [|a v IH]; intros Hv t p H S; [reflexivity|].
  simpl in Hv. apply andb_prop in Hv as [Ha Hv].
  destruct p as [|b p]; [discriminate|]. simpl in S.
  apply andb_prop in S as [E S]. apply N.eqb_eq in E. subst b.
  apply dotted_copy_inv in H as [t' [-> H]].
  - simpl. rewrite N.eqb_refl. simpl. eapply IH; eauto.
  - intros ->. discriminate.
Qed.

(** The restore phase undoes the protect phase on a text that does not
    hold the sentinel itself. *)
Lemma restore_dotted (t p : str) :
  dotted t p -> contains DOT t = false -> replace DOT PERIOD p = t.
Proof.
  change (replace DOT PERIOD) with (fun s => replace_go DOT PERIOD s 0).
  cbv beta.
  induction 1 as [|c t p H IH|t p H IH]; intros C.
  - reflexivity.
  - cbn [contains] in C. apply orb_false_elim in C as [C1 C2].
    rewrite replace_go_miss, IH; auto.
    destruct (starts_with DOT (c :: p)) eqn:E; [|reflexivity].
    exfalso. unfold DOT in E, C1. cbn [starts_with] in E, C1.
    apply andb_prop in E as [E1 E2]. rewrite E1 in C1. cbn [andb] in C1.
    change (starts_with [68; 79; 84; 62]%N t = false) in C1.
    assert (S : starts_with [68; 79; 84; 62]%N t = true).
    { eapply dotted_starts; [reflexivity|exact H|exact E2]. }
    congruence.
  - cbn [contains] in C. apply orb_false_elim in C as [_ C2].
    rewrite replace_go_hit by discriminate. now rewrite IH.
Qed.

(* ----------------------------------------------------------------- *)
(** *** The split phase *)

Lemma dotted_dropwhile (t p : str) :
  dotted t p -> dotted (dropwhile is_space t) (dropwhile is_space p).
Proof.
  induction 1 as [|c t p H IH|t p H IH]; simpl.
  - constructor.
  - destruct (is_space c); [exact IH|now constructor].
  - now apply dotted_dot.
Qed.

Lemma dotted_opening_after (t p : str) :
  dotted t p -> opening_after p = opening_after t.
Proof.
  intros H. apply dotted_dropwhile in H. unfold opening_after.
  now destruct H.
Qed.

(** Writing [<DOT>] for periods adds no place to split at. *)
Lemma dotted_split_points (t p : str) :
  dotted t p -> split_points t = false -> split_points p = false.
Proof.
  induction 1 as [|c t p H IH|t p H IH]; simpl; auto.
  - intros S. apply orb_false_elim in S as [S1 S2].
    now rewrite (dotted_starts_space H), (dotted_opening_after H), S1, IH.
  - intros S. apply orb_false_elim in S as [_ S2]. auto.
Qed.

(** Without a place to split at, [re.split] returns the text whole. *)
Lemma split_no_points (p : str) :
  split_points p = false -> split U SENTENCE_END p = [p].
Proof.
  intros H. unfold split.
  destruct (split_ind U SENTENCE_END
              (fun bef aft pieces =>
                 split_points (last_read bef ++ aft) = false -> pieces = [aft]))
    with (bef := @nil char) (aft := p) as [x [xs [E R]]].
  - reflexivity.
  - intros bef c t x xs _ IH S.
    assert (S' : split_points (c :: t) = false).
    { destruct bef; simpl in S; [exact S|].
      now apply orb_false_elim in S as [_ S]. }
    simpl in IH. injection (IH S') as -> ->. reflexivity.
  - intros bef w aft cs x xs Hw M _ S. exfalso.
    apply sentence_end_shape in M as [Bw [[c [bef' [-> Hc]]] [d [aft' [-> Hd]]]]].
    simpl in S. apply orb_false_elim in S as [S _].
    rewrite Hc in S. unfold opening_after in S.
    rewrite dropwhile_app_all in S by exact Bw. simpl in S.
    rewrite (opening_not_space _ Hd), Hd in S.
    destruct w as [|x0 w]; [congruence|]. simpl in Bw, S.
    apply andb_prop in Bw as [Bx _]. rewrite Bx in S. discriminate.
  - rewrite E. apply R. exact H.
Qed.

(** In a text whose whitespace is single spaces, the pieces of [re.split]
    joined by a space give the text back. *)
Lemma split_join (p : str) :
  spaced p = true ->
  exists x xs, split U SENTENCE_END p = x :: xs /\ join SPACE (x :: xs) = p.
Proof.
  intros H. unfold split.
  destruct (split_ind U SENTENCE_END
              (fun bef aft pieces =>
                 spaced aft = true -> join SPACE pieces = aft))
    with (bef := @nil char) (aft := p) as [x [xs [E R]]].
  - reflexivity.
  - intros bef c t x xs _ IH S. simpl in S.
    apply andb_prop in S as [_ S]. specialize (IH S).
    destruct xs; simpl in *; now rewrite IH.
  - intros bef w aft cs x xs Hw M IH S.
    apply sentence_end_shape in M as [Bw _].
    change (join SPACE ([] :: x :: xs)) with (32%N :: join SPACE (x :: xs)).
    rewrite (IH (spaced_app_r _ _ S)).
    destruct w as [|c w]; [congruence|]. simpl in Bw, S.
    apply andb_prop in Bw as [Bc Bw]. rewrite Bc in S. simpl in S.
    apply andb_prop in S as [S _]. apply andb_prop in S as [S1 S2].
    apply N.eqb_eq in S1. subst c.
    destruct w as [|d w]; [reflexivity|].
    simpl in Bw, S2. apply andb_prop in Bw as [Bd _]. now rewrite Bd in S2.
  - exists x, xs. split; [exact E|]. apply R. exact H.
Qed.

(* ----------------------------------------------------------------- *)
(** *** The restore phase *)

Lemma fold_restore (pieces acc : list str) :
  fold_left restore_step pieces acc = acc ++ restored pieces.
Proof.
  revert acc. induction pieces as [|x l IH]; intros acc; cbn [fold_left].
  - unfold restored. simpl. now rewrite app_nil_r.
  - rewrite IH. unfold restore_step, restored. cbn [map filter].
    destruct (nonempty (strip (replace DOT PERIOD x)));
      [now rewrite <- app_assoc|reflexivity].
Qed.

Lemma ends_space_app (a : str) (c : char) (b : str) :
  ends_space (a ++ c :: b) = ends_space (c :: b).
Proof.
  unfold ends_space. rewrite rev_app_distr.
  destruct (rev (c :: b)) as [|d l] eqn:E; [|reflexivity].
  apply (f_equal (@length _)) in E. rewrite length_rev in E. discriminate.
Qed.

(** The parts of a whitespace-normal text between its joining spaces are
    trimmed and are not empty. *)
Lemma normal_join (xs : list str) :
  xs <> [] -> join SPACE xs <> [] -> ws_normal (join SPACE xs) ->
  Forall (fun x => strip x = x /\ nonempty x = true) xs.
Proof.
  induction xs as [|x [|y l] IH]; intros Hx Hn [N1 [N2 N3]]; [congruence| |].
  - simpl in *. constructor; [|constructor]. split.
    + now apply strip_fixed.
    + destruct x; [congruence|reflexivity].
  - change (join SPACE (x :: y :: l)) with (x ++ 32%N :: join SPACE (y :: l)) in *.
    set (rest := join SPACE (y :: l)) in *.
    assert (Sr : spaced (32%N :: rest) = true) by exact (spaced_app_r _ _ N3).
    simpl in Sr. apply andb_prop in Sr as [Sr1 Sr2].
    assert (R1 : starts_space rest = false) by now destruct (starts_space rest).
    assert (R0 : rest <> []).
    { intros E. rewrite E in N2. rewrite ends_space_app in N2. discriminate. }
    assert (R2 : ends_space rest = false).
    { rewrite ends_space_app in N2. destruct rest as [|d r]; [congruence|].
      change (32%N :: d :: r) with ([32%N] ++ d :: r) in N2.
      now rewrite ends_space_app in N2. }
    constructor.
    + destruct x as [|c x]; [discriminate|]. split; [|reflexivity].
      apply strip_fixed; [exact N1|].
      destruct (ends_space (c :: x)) eqn:E; [|reflexivity]. exfalso.
      unfold ends_space in E.
      destruct (rev (c :: x)) as [|d r] eqn:Er; [discriminate|].
      apply (f_equal (@rev _)) in Er. rewrite rev_involutive in Er.
      simpl in Er. rewrite Er, <- app_assoc in N3.
      apply spaced_app_r in N3. simpl in N3, E. rewrite E in N3.
      simpl in N3. now rewrite andb_false_r in N3.
    + apply IH; [discriminate|exact R0|]. repeat split; assumption.
Qed.

Lemma restored_fixed (xs : list str) :
  Forall (fun x => strip x = x /\ nonempty x = true) xs ->
  filter nonempty (map strip xs) = xs.
Proof.
  induction 1 as [|x l [H1 H2] _ IH]; [reflexivity|].
  simpl. now rewrite H1, H2, IH.
Qed.

End Segment.

(* ================================================================= *)
(** ** Masking: [mask_pii] *)

Section Masking.

Variable U : ucd.

Lemma contains_iff (w s : str) :
  contains w s = true <-> exists a b, s = a ++ w ++ b.
Proof.
  split.
  - induction s as [|c s IH]; simpl; intros H.
    + rewrite orb_false_r in H. apply starts_with_split in H as [b E].
      exists [], b. exact E.
    + apply orb_prop in H as [H | H].
      * apply starts_with_split in H as [b E]. exists [], b. exact E.
      * destruct (IH H) as [a [b ->]]. exists (c :: a), b. reflexivity.
  - intros [a [b ->]]. induction a as [|c a IH]; simpl.
    + assert (E : forall x, starts_with w x = true -> contains w x = true)
        by (intros [|? ?] Hx; simpl; now rewrite Hx).
      apply E, starts_with_app.
    + now rewrite IH, orb_true_r.
Qed.

Lemma contains_app_l (w a b : str) :
  contains w a = true -> contains w (a ++ b) = true.
Proof.
  rewrite !contains_iff. intros [x [y ->]]. exists x, (y ++ b).
  now rewrite <- !app_assoc.
Qed.

Lemma contains_app_r (w a b : str) :
  contains w b = true -> contains w (a ++ b) = true.
Proof.
  rewrite !contains_iff. intros [x [y ->]]. exists (a ++ x), y.
  now rewrite <- !app_assoc.
Qed.

(** Where the pattern matches somewhere, the output of [re.sub] with a
    fixed replacement holds the replacement. *)
Lemma sub_go_contains (r : re) (tok : str) (aft : str) :
  forall bef, search_go U r bef aft = true ->
              contains tok (sub_go U r [TStr tok] bef aft 0) = true.
Proof.
  induction aft as [|c t IH]; intros bef H.
  - simpl in H. destruct (match_at U r bef []) as [[len cs]|] eqn:E;
      [|discriminate].
    apply match_at_inv in E as [st' [w [_ [_ [A [_ [_ Hw]]]]]]].
    destruct w; [congruence|discriminate].
  - cbn [search_go] in H. cbn [sub_go].
    destruct (match_at U r bef (c :: t)) as [[len cs]|].
    + cbn [expand]. rewrite app_nil_r. apply contains_app_l.
      apply contains_iff. exists [], []. now rewrite app_nil_r.
    + apply (contains_app_r tok [c]). auto.
Qed.

Lemma sub_contains (r : re) (tok s : str) :
  search U r s = true -> contains tok (sub U r [TStr tok] s) = true.
Proof. apply sub_go_contains. Qed.

Lemma sub_no_match (r : re) (tpl : list titem) (s : str) :
  search U r s = false -> sub U r tpl s = s.
Proof. intros H. now apply search_go_none. Qed.

(** Text without whitespace is kept by the three steps of
    [clean_whitespace]. *)
Lemma collapse_solid (w b : str) :
  solid w = true -> collapse (w ++ b) = w ++ collapse b.
Proof.
  induction w as [|c w IH]; [reflexivity|]. simpl. intros H.
  apply andb_prop in H as [Hc Hw]. apply negb_true_iff in Hc.
  now rewrite Hc, IH.
Qed.

Lemma collapse_keeps (w s : str) :
  solid w = true -> contains w s = true -> contains w (collapse s) = true.
Proof.
  intros Hw H. apply contains_iff in H as [a [b ->]].
  induction a as [|c a IH].
  - simpl. rewrite collapse_solid by assumption.
    apply contains_iff. now exists [], (collapse b).
  - simpl. destruct (is_space c).
    + destruct (starts_space (a ++ w ++ b)); [exact IH|].
      now apply (contains_app_r w [32%N]).
    + now apply (contains_app_r w [c]).
Qed.

Lemma dropwhile_keeps (w s : str) :
  solid w = true -> contains w s = true ->
  contains w (dropwhile is_space s) = true.
Proof.
  intros Hw H. destruct w as [|x w].
  { apply contains_iff. now exists [], (dropwhile is_space s). }
  simpl in Hw. apply andb_prop in Hw as [Hx Hw]. apply negb_true_iff in Hx.
  apply contains_iff in H as [a [b ->]].
  induction a as [|c a IH]; simpl.
  - rewrite Hx. apply contains_iff. now exists [], b.
  - destruct (is_space c); [exact IH|].
    apply contains_iff. now exists (c :: a), b.
Qed.

Lemma contains_rev (w s : str) :
  contains w s = true -> contains (rev w) (rev s) = true.
Proof.
  rewrite !contains_iff. intros [a [b ->]]. exists (rev b), (rev a).
  now rewrite !rev_app_distr, <- app_assoc.
Qed.

Lemma solid_rev (w : str) : solid w = true -> solid (rev w) = true.
Proof.
  unfold solid. rewrite !forallb_forall. intros H c Hc.
  apply H. now apply in_rev.
Qed.

Lemma strip_keeps (w s : str) :
  solid w = true -> contains w s = true -> contains w (strip s) = true.
Proof.
  intros Hw H. unfold strip, rstrip.
  rewrite <- (rev_involutive w). apply contains_rev.
  apply dropwhile_keeps; [now apply solid_rev|].
  apply contains_rev. now apply dropwhile_keeps.
Qed.

Lemma clean_whitespace_keeps (w s : str) :
  solid w = true -> contains w s = true ->
  contains w (clean_whitespace U s) = true.
Proof.
  intros Hw H. unfold clean_whitespace. rewrite sub_spaces.
  apply strip_keeps; auto. now apply collapse_keeps.
Qed.

End Masking.

(* ================================================================= *)
(** ** Links: what [URL_PATTERN] matches *)

Section Links.

Variable U : ucd.

Ltac inv_m :=
  repeat match goal with
         | H : In _ (flat_map _ _) |- _ =>
             apply in_flat_map in H as [? [? ?]]
         | H : In _ (_ ++ _) |- _ => apply in_app_or in H as [H | H]
         | H : In _ (eat _ _) |- _ =>
             apply eat_inv in H as [? [? [? [? ?]]]]
         | H : In _ (rep _ _ (Some _) _) |- _ =>
             apply rep_inv_bound in H as [? [[? ?] [? [? [? ?]]]]]
         | H : In _ (rep _ _ None _) |- _ =>
             apply rep_inv in H as [? [[? ?] [? [? ?]]]]
         | H : N.eqb _ _ = true |- _ => apply N.eqb_eq in H; subst
         end.

Lemma notspace_mem (c : char) :
  cset_mem U [CNotSpace] c = negb (is_space c).
Proof. unfold cset_mem. simpl. apply orb_false_r. Qed.

Lemma solid_run (w rest : str) :
  forallb (cset_mem U [CNotSpace]) w = true -> 1 <= length w ->
  solid_next (w ++ rest) = true.
Proof.
  destruct w as [|c w]; cbn [length forallb app solid_next]; [lia|].
  intros H _. apply andb_prop in H as [H _]. now rewrite notspace_mem in H.
Qed.

Ltac taken l b :=
  lazymatch l with
  | ?x ++ b => constr:(x)
  | ?c :: ?t => let r := taken t b in constr:(c :: r)
  end.

(** What [URL_PATTERN] matches begins like a link. *)
Lemma url_match_shape (st st' : mstate) :
  In st' (m U URL_PATTERN st) ->
  exists w, after st = w ++ after st' /\ link_here w = true.
Proof.
  intros H. unfold URL_PATTERN in H. cbn [m] in H. inv_m.
  all: repeat match goal with
              | H : after _ = _ |- _ => try rewrite H in *; clear H
              end.
  all: repeat match goal with
              | H : forallb (cset_mem U [CChar _]) ?w = true,
                L : length ?w <= 1 |- _ =>
                  destruct w as [|? [|? ?]]; [| |simpl in L; lia];
                  cbn [forallb cset_mem existsb item_mem] in H;
                  rewrite ?orb_false_r, ?andb_true_r in H
              | H : N.eqb _ _ = true |- _ => apply N.eqb_eq in H; subst
              end.
  all: cbn [app];
    match goal with
    | |- exists w, ?l = w ++ ?b /\ _ => let x := taken l b in exists x
    end;
    (split; [reflexivity|]);
    unfold link_here, URL_HEADS; simpl;
    match goal with
    | H : forallb (cset_mem U [CNotSpace]) ?x = true |- _ =>
        rewrite <- (app_nil_r x), solid_run by assumption
    end; reflexivity.
Qed.

Lemma link_here_app (w b : str) :
  link_here w = true -> link_here (w ++ b) = true.
Proof.
  intros H. unfold link_here in *. apply existsb_exists in H as [h [Hh H]].
  apply andb_prop in H as [H1 H2]. apply existsb_exists. exists h.
  split; [exact Hh|]. apply starts_with_split in H1 as [rest ->].
  rewrite <- app_assoc, starts_with_app.
  rewrite !skipn_app, !skipn_all, Nat.sub_diag in *. simpl in *.
  destruct rest; [discriminate|exact H2].
Qed.

(** Where [URL_PATTERN] matches, a link begins. *)
Lemma url_match_here (st st' : mstate) :
  In st' (m U URL_PATTERN st) -> link_here (after st) = true.
Proof.
  intros H. apply url_match_shape in H as [w [-> H]].
  now apply link_here_app.
Qed.

Lemma in_or_l (a b : re) (st s : mstate) :
  In s (m U a st) -> In s (m U (Or a b) st).
Proof. intros H. cbn [m]. apply in_or_app. now left. Qed.

Lemma in_or_r (a b : re) (st s : mstate) :
  In s (m U b st) -> In s (m U (Or a b) st).
Proof. intros H. cbn [m]. apply in_or_app. now right. Qed.

Ltac build :=
  repeat first
    [ eapply in_cat
    | eapply in_lit; cbn [after]; reflexivity
    | eapply in_rep_one;
        [ cbn [after]; reflexivity
        | first [ rewrite notspace_mem; assumption | reflexivity ]
        | lia
        | reflexivity ]
    | apply in_rep_none ].

(** Where a link begins, [URL_PATTERN] matches. *)
Lemma url_here_match (bef aft : str) :
  link_here aft = true ->
  exists st', In st' (m U URL_PATTERN {| before := bef; after := aft; caps := [] |}).
Proof.
  intros H. unfold link_here in H. apply existsb_exists in H as [h [Hh H]].
  apply andb_prop in H as [H1 H2].
  apply starts_with_split in H1 as [rest ->].
  rewrite skipn_app, skipn_all, Nat.sub_diag in H2. simpl in H2.
  destruct rest as [|c rest]; [discriminate|]. simpl in H2.
  unfold URL_HEADS in Hh. simpl in Hh.
  destruct Hh as [<- | [<- | [<- | [<- | []]]]]; eexists; unfold URL_PATTERN.
  - apply in_or_l. build.
  - apply in_or_l. build.
  - apply in_or_r, in_or_l. build.
  - apply in_or_r, in_or_r. build.
Qed.

(** [URL_PATTERN] matches at a position exactly when a link begins
    there. *)
Lemma url_match_iff (bef aft : str) :
  match_at U URL_PATTERN bef aft = None <-> link_here aft = false.
Proof.
  split; intros H.
  - destruct (link_here aft) eqn:L; [|reflexivity].
    destruct (url_here_match bef aft L) as [st' Hs].
    destruct (m U URL_PATTERN {| before := bef; after := aft; caps := [] |})
      as [|s l] eqn:E; [contradiction|].
    rewrite (@match_at_first U URL_PATTERN bef aft s l) in H;
      [discriminate | vm_compute; repeat constructor | exact E].
  - destruct (match_at U URL_PATTERN bef aft) as [[len cs]|] eqn:E;
      [|reflexivity].
    apply match_at_inv in E as [st' [w [Hs _]]].
    apply url_match_here in Hs. cbn [after] in Hs. congruence.
Qed.

Lemma search_has_link (s : str) :
  forall bef, search_go U URL_PATTERN bef s = has_link s.
Proof.
  induction s as [|c s IH]; intros bef; cbn [search_go has_link].
  - destruct (match_at U URL_PATTERN bef []) eqn:E.
    + destruct (link_here []) eqn:L; [reflexivity|].
      apply (proj2 (url_match_iff bef _)) in L. congruence.
    + apply url_match_iff in E. now rewrite E.
  - destruct (match_at U URL_PATTERN bef (c :: s)) eqn:E.
    + destruct (link_here (c :: s)) eqn:L; [reflexivity|].
      apply (proj2 (url_match_iff bef _)) in L. congruence.
    + apply url_match_iff in E. rewrite E. apply IH.
Qed.

Lemma link_here_solid (s : str) : link_here s = true -> solid_next s = true.
Proof.
  intros H. unfold link_here in H. apply existsb_exists in H as [h [Hh H]].
  apply andb_prop in H as [H _]. apply starts_with_split in H as [rest ->].
  unfold URL_HEADS in Hh. simpl in Hh.
  destruct Hh as [<- | [<- | [<- | [<- | []]]]]; reflexivity.
Qed.

(** A beginning of link in the masked text, which has no [<] in it, is a
    beginning of link in the text. *)
Lemma masked_head (h : str) :
  forallb (fun x => negb (x =? 60)%N) h = true ->
  forall t o, masked t o -> starts_with h o = true ->
              solid_next (skipn (length h) o) = true ->
              starts_with h t = true /\ solid_next (skipn (length h) t) = true.
Proof.
  induction h as [|a h IH]; intros Hh t o M S N.
  - split; [reflexivity|]. simpl in *.
    destruct M as [|c t o M|t o L]; [discriminate|exact N|].
    now apply link_here_solid.
  - simpl in Hh. apply andb_prop in Hh as [Ha Hh].
    apply negb_true_iff, N.eqb_neq in Ha.
    destruct o as [|b o]; [discriminate|]. simpl in S.
    apply andb_prop in S as [E S]. apply N.eqb_eq in E. subst b.
    inversion M as [|c t' o' M' |t' o' L]; subst.
    + simpl. rewrite N.eqb_refl. simpl. apply (IH Hh t' o); assumption.
    + exfalso. unfold URL_TOKEN in *. simpl in *. congruence.
Qed.

Lemma link_here_masked (t o : str) :
  masked t o -> link_here o = true -> link_here t = true.
Proof.
  intros M H. unfold link_here in *. apply existsb_exists in H as [h [Hh H]].
  apply andb_prop in H as [H1 H2]. apply existsb_exists. exists h.
  split; [exact Hh|].
  assert (F : forallb (fun x => negb (x =? 60)%N) h = true).
  { unfold URL_HEADS in Hh. simpl in Hh.
    destruct Hh as [<- | [<- | [<- | [<- | []]]]]; reflexivity. }
  destruct (masked_head h F M H1 H2) as [-> ->]. reflexivity.
Qed.

Lemma has_link_token (o : str) : has_link (URL_TOKEN ++ o) = has_link o.
Proof. reflexivity. Qed.

(** After the substitution of [URL_PATTERN] no link begins anywhere. *)
Lemma sub_url_no_link (s : str) :
  has_link (sub U URL_PATTERN [TStr URL_TOKEN] s) = false.
Proof.
  unfold sub.
  apply (sub_ind U URL_PATTERN [TStr URL_TOKEN]
           (fun _ aft o => masked aft o /\ has_link o = false)).
  - intros _. split; [constructor|reflexivity].
  - intros bef c t o H [M L]. split; [now constructor|].
    cbn [has_link]. rewrite L, orb_false_r.
    destruct (link_here (c :: o)) eqn:E; [|reflexivity].
    apply (link_here_masked (masked_copy c M)) in E.
    apply url_match_iff in H. congruence.
  - intros bef w aft cs o Hw H [M L]. cbn [expand]. rewrite app_nil_r.
    split; [|now rewrite has_link_token].
    apply masked_token.
    destruct (link_here (w ++ aft)) eqn:E; [reflexivity|].
    apply (proj2 (url_match_iff bef _)) in E. congruence.
Qed.

(** A link begins somewhere exactly when one of the four beginnings is
    found with a character that is not whitespace after it. *)
Lemma has_link_iff (s : str) :
  has_link s = true <->
  exists h c, In h URL_HEADS /\ is_space c = false /\
              contains (h ++ [c]) s = true.
Proof.
  split.
  - induction s as [|x s IH]; cbn [has_link]; intros H.
    + rewrite orb_false_r in H. discriminate.
    + apply orb_prop in H as [H | H].
      * unfold link_here in H. apply existsb_exists in H as [h [Hh H]].
        apply andb_prop in H as [H1 H2].
        apply starts_with_split in H1 as [rest E]. rewrite E in H2.
        rewrite skipn_app, skipn_all, Nat.sub_diag in H2. simpl in H2.
        destruct rest as [|c rest]; [discriminate|]. simpl in H2.
        exists h, c. repeat split; auto; [now apply negb_true_iff|].
        apply contains_iff. exists [], rest. rewrite E.
        now rewrite <- app_assoc.
      * destruct (IH H) as [h [c [Hh [Hc K]]]]. exists h, c.
        repeat split; auto. now apply (contains_app_r _ [x]).
  - intros [h [c [Hh [Hc K]]]]. apply contains_iff in K as [a [b ->]].
    induction a as [|x a IH].
    + assert (L : link_here ((h ++ [c]) ++ b) = true).
      { unfold link_here. apply existsb_exists. exists h. split; [exact Hh|].
        rewrite <- app_assoc, starts_with_app.
        rewrite skipn_app, skipn_all, Nat.sub_diag. simpl.
        now rewrite Hc. }
      cbn [app]. destruct ((h ++ [c]) ++ b); cbn [has_link]; now rewrite L.
    + cbn [has_link app]. rewrite IH. apply orb_true_r.
Qed.

(** Text without whitespace found in the output of [clean_whitespace] was
    in its input. *)
Lemma starts_with_collapse (w : str) :
  solid w = true ->
  forall y, (w = [] \/ starts_space y = false) ->
            starts_with w (collapse y) = true -> starts_with w y = true.
Proof.
  induction w as [|x w IH]; intros Hw y Hy H; [reflexivity|].
  simpl in Hw. apply andb_prop in Hw as [Hx Hw]. apply negb_true_iff in Hx.
  destruct Hy as [Hy | Hy]; [discriminate|].
  destruct y as [|c y]; [discriminate|]. simpl in Hy, H. rewrite Hy in H.
  simpl in H. apply andb_prop in H as [E H]. simpl. rewrite E. simpl.
  apply IH; auto. destruct w as [|x' w]; [now left|right].
  simpl in Hw. apply andb_prop in Hw as [Hx' _]. apply negb_true_iff in Hx'.
  rewrite <- starts_collapse. destruct (collapse y) as [|d z]; [discriminate|].
  simpl in H. apply andb_prop in H as [E' _]. apply N.eqb_eq in E'. subst d.
  exact Hx'.
Qed.

Lemma collapse_found (w y : str) :
  solid w = true -> w <> [] ->
  contains w (collapse y) = true -> contains w y = true.
Proof.
  intros Hw Hn. induction y as [|c y IH]; intros H.
  - destruct w; [congruence|discriminate].
  - cbn [collapse] in H. destruct (is_space c) eqn:Hc.
    + apply (contains_app_r w [c]). apply IH.
      destruct (starts_space y); [exact H|].
      cbn [contains] in H. apply orb_prop in H as [H | H]; [|exact H].
      exfalso. destruct w as [|x w]; [congruence|]. simpl in H, Hw.
      apply andb_prop in H as [E _]. apply N.eqb_eq in E. subst x.
      apply andb_prop in Hw as [Hx _]. vm_compute in Hx. discriminate.
    + cbn [contains] in H. apply orb_prop in H as [H | H].
      * assert (S : starts_with w (c :: y) = true).
        { apply (starts_with_collapse Hw (c :: y));
            [right; exact Hc | cbn [collapse]; now rewrite Hc]. }
        cbn [contains]. now rewrite S.
      * apply (contains_app_r w [c]). auto.
Qed.

Lemma strip_found (w y : str) :
  contains w (strip y) = true -> contains w y = true.
Proof.
  intros H. unfold strip in H.
  destruct (rstrip_split (lstrip y)) as [b [E _]].
  destruct (dropwhile_split is_space y) as [a [E' _]].
  fold (lstrip y) in E'. rewrite E', E.
  apply contains_app_r, contains_app_l. exact H.
Qed.

Lemma clean_whitespace_no_link (y : str) :
  has_link y = false -> has_link (clean_whitespace U y) = false.
Proof.
  intros H. destruct (has_link (clean_whitespace U y)) eqn:E; [|reflexivity].
  apply has_link_iff in E as [h [c [Hh [Hc K]]]].
  unfold clean_whitespace in K. rewrite sub_spaces in K.
  apply strip_found, collapse_found in K.
  - assert (L : has_link y = true) by (apply has_link_iff; eauto). congruence.
  - unfold solid. rewrite forallb_app. simpl. rewrite Hc. simpl.
    unfold URL_HEADS in Hh. simpl in Hh.
    destruct Hh as [<- | [<- | [<- | [<- | []]]]]; reflexivity.
  - destruct h; discriminate.
Qed.

Lemma link_here_has_link (s : str) : link_here s = true -> has_link s = true.
Proof. intros H. destruct s; cbn [has_link]; now rewrite H. Qed.

Lemma has_link_app_r (a y : str) :
  has_link y = true -> has_link (a ++ y) = true.
Proof.
  intros H. induction a as [|x a IH]; [exact H|].
  cbn [app has_link]. rewrite IH. apply orb_true_r.
Qed.

(** In a text where no link begins, nothing that [URL_PATTERN] matches
    is found. *)
Lemma url_matched_not_found (s bef w aft : str) (cs : list (nat * str)) :
  has_link s = false ->
  match_at U URL_PATTERN bef (w ++ aft) = Some (length w, cs) ->
  contains w s = false.
Proof.
  intros L H. destruct (contains w s) eqn:K; [|reflexivity]. exfalso.
  apply match_at_shape in H as [st' [H [_ [E _]]]].
  apply url_match_shape in H as [w' [A Hw]]. cbn [after] in A.
  rewrite E in A. apply app_inv_tail in A. subst w'.
  apply contains_iff in K as [a [b ->]].
  assert (T : has_link (a ++ w ++ b) = true).
  { apply has_link_app_r, link_here_has_link. now apply link_here_app. }
  congruence.
Qed.

(** The clean text of [preprocess] has no link left. *)
Lemma masked_clean_no_link (t : str) :
  search U URL_PATTERN
    (clean_whitespace U (sub U URL_PATTERN [TStr URL_TOKEN] t)) = false.
Proof.
  unfold search. rewrite search_has_link.
  apply clean_whitespace_no_link, sub_url_no_link.
Qed.

End Links.

(* ================================================================= *)
(** ** The segmentation of a cleaned text *)

Section Sentences.

Variable U : ucd.
Hypothesis period : period_uncased U.

Lemma split_sentences_restored (text : str) :
  nonempty text = true ->
  split_sentences U text =
  match restored (split U SENTENCE_END (protect U text)) with
  | [] => [text]
  | x :: xs => x :: xs
  end.
Proof.
  intros H. unfold split_sentences. rewrite H. cbn [negb].
  rewrite fold_restore. cbn [app].
  destruct (restored _); reflexivity.
Qed.

(** The sentences of a whitespace-normal text without the sentinel, joined
    by single spaces, are the text. *)
Lemma split_sentences_join (t : str) :
  ws_normal t -> contains DOT t = false ->
  join SPACE (split_sentences U t) = t.
Proof.
  intros N C. destruct t as [|c0 t0] eqn:Et; [reflexivity|]. rewrite <- Et in *.
  assert (Hne : nonempty t = true) by now rewrite Et.
  rewrite split_sentences_restored by assumption.
  pose proof (protect_dotted period t) as D.
  destruct N as [N1 [N2 N3]].
  destruct (split_join U _ (dotted_spaced D N3)) as [x [xs [E J]]].
  rewrite E. unfold restored.
  pose proof (restore_dotted D C) as R.
  rewrite <- J, restore_join in R.
  assert (F : Forall (fun x => strip x = x /\ nonempty x = true)
                     (map (replace DOT PERIOD) (x :: xs))).
  { apply normal_join.
    - discriminate.
    - rewrite R, Et. discriminate.
    - rewrite R. repeat split; assumption. }
  rewrite <- map_map, (restored_fixed F). exact R.
Qed.

(** Without a place to split at, and without the sentinel, the text comes
    back whole and trimmed. *)
Lemma split_sentences_whole (t : str) :
  blank t = false -> split_points t = false -> contains DOT t = false ->
  split_sentences U t = [strip t].
Proof.
  intros B S C.
  assert (Hne : nonempty t = true) by (destruct t; [discriminate|reflexivity]).
  rewrite split_sentences_restored by assumption.
  pose proof (protect_dotted period t) as D.
  rewrite (split_no_points U _ (dotted_split_points D S)).
  unfold restored. cbn [map filter].
  rewrite (restore_dotted D C), (strip_not_blank _ B). reflexivity.
Qed.

End Sentences.

Lemma existsb_terminal_not_blank (t : str) :
  existsb is_terminal t = true -> blank t = false.
Proof.
  induction t as [|c t IH]; [discriminate|]. simpl. intros H.
  destruct (is_terminal c) eqn:Hc.
  - assert (S : is_space c = false).
    { destruct (is_space c) eqn:S; [|reflexivity].
      unfold is_terminal, is_space in *.
      rewrite ?orb_true_iff, ?andb_true_iff, ?N.leb_le, ?N.eqb_eq in *. lia. }
    now rewrite S.
  - simpl in H. rewrite (IH H). apply andb_false_r.
Qed.

(** [ftfy.fix_text] matters to [preprocess] only through what it returns
    on the text given. *)
Lemma preprocess_fix_text (U : ucd) (f g : str -> str) (s : str) :
  f s = g s -> preprocess U f (PyStr s) = preprocess U g (PyStr s).
Proof.
  intros E. unfold preprocess, fix_encoding. now rewrite E.
Qed.

(** The two branches of [preprocess] on a [str]. *)
Lemma preprocess_blank (U : ucd) (f : str -> str) (s : str) :
  blank s = true ->
  preprocess U f (PyStr s) = Ok {| raw := s; clean := []; sentences := [] |}.
Proof.
  intros B. unfold preprocess, rejected. rewrite (strip_blank _ B). simpl.
  now destruct s.
Qed.

Lemma preprocess_text (U : ucd) (f : str -> str) (s : str) :
  blank s = false ->
  preprocess U f (PyStr s) =
  let c := clean_whitespace U (mask_pii U (before_masking U f s)) in
  Ok {| raw := s; clean := c; sentences := split_sentences U c |}.
Proof.
  intros B. unfold preprocess. now rewrite (strip_not_blank _ B).
Qed.

(** What [preprocess] returns: the degenerate record, or a text cleaned by
    [clean_whitespace] with its sentences. *)
Lemma preprocess_inv (U : ucd) (f : str -> str) (v : pyval) (r : ResultRecord) :
  preprocess U f v = Ok r ->
  (clean r = [] /\ sentences r = []) \/
  (exists x, clean r = clean_whitespace U x /\
             sentences r = split_sentences U (clean r)).
Proof.
  assert (R : forall w, rejected w = Ok r -> clean r = [] /\ sentences r = []).
  { intros w. unfold rejected. destruct (truth w) as [t|]; [|discriminate].
    cbn [bind]. destruct t; [destruct (py_str w); [|discriminate]|];
      cbn [bind]; intros E; injection E as <-; now split. }
  destruct v as [| b | z | s | t rend];
    try (intros E; left; now apply (R _ E)).
  unfold preprocess. destruct (nonempty (strip s)); cbn [negb]; intros E.
  - injection E as <-. right. eexists. split; reflexivity.
  - left. now apply (R _ E).
Qed.

(* ================================================================= *)
(** ** The first match, and masking again *)

Unset Implicit Arguments.

(* ----------------------------------------------------------------- *)
(** *** The match [re] reports: the first one *)

Section FirstMatch.

Variable U : ucd.

Lemma match_at_head (r : re) (bef aft : str) (len : nat) (cs : list (nat * str)) :
  match_at U r bef aft = Some (len, cs) ->
  exists st' l w,
    m U r {| before := bef; after := aft; caps := [] |} = st' :: l /\
    cs = caps st' /\ aft = w ++ after st' /\ before st' = rev w ++ bef /\
    length w = len /\ w <> [].
Proof.
  unfold match_at.
  destruct (m U r _) as [|st' l] eqn:E; [discriminate|].
  assert (H : In st' (m U r {| before := bef; after := aft; caps := [] |}))
    by (rewrite E; now left).
  destruct (m_advances U r _ _ H) as [w A].
  pose proof (advances_length A) as L. simpl in L. rewrite L.
  destruct A as [A1 A2]. simpl in A1, A2.
  destruct (length w) eqn:Lw; [discriminate|].
  intros Q. inversion Q; subst. exists st', l, w.
  repeat split; auto.
  intros ->; discriminate.
Qed.

Lemma prefix_takewhile (p : char -> bool) (w a : str) :
  forallb p w = true -> length w <= length (takewhile p (w ++ a)).
Proof.
  induction w as [|c w IH]; simpl; [lia|].
  intros H. apply andb_prop in H as [H1 H2]. rewrite H1. simpl.
  apply le_n_S. now apply IH.
Qed.

Lemma filter_none (A : Type) (f : A -> bool) (l : list A) :
  (forall x, In x l -> f x = false) -> filter f l = [].
Proof.
  induction l as [|x l IH]; [reflexivity|]. intros H. simpl.
  rewrite (H x) by now left. apply IH. intros y Hy. apply H. now right.
Qed.

(** A repetition without an upper bound takes, first, the whole run. *)
Lemma rep_first (p : char -> bool) (lo : nat) (st st' : mstate) (l : list mstate) :
  rep p lo None st = st' :: l -> after st' = dropwhile p (after st).
Proof.
  unfold rep.
  destruct (greedy_head p (after st) 0 (before st)) as [l0 E].
  pose proof (fun x H => @greedy_inv p None (after st) 0 (before st)
                           (fst x) (fst (snd x)) (snd (snd x)) H) as G.
  rewrite E in *. cbn [filter fst].
  destruct (Nat.leb lo _) eqn:Hlo; cbn [map].
  - intros Q. injection Q as <- _. reflexivity.
  - rewrite filter_none; [discriminate|].
    intros [n [b a]] Hx. cbn [fst]. apply Nat.leb_gt in Hlo. apply Nat.leb_gt.
    destruct (G (n, (b, a))) as [w [E1 [_ [E3 [E4 _]]]]]; [now right|].
    cbn [fst snd] in *.
    pose proof (prefix_takewhile p w a E3) as L. rewrite <- E1 in L. lia.
Qed.

(** What holds of the first match of the last part of a pattern holds of
    the first match of the pattern. *)
Lemma first_cat (Q : mstate -> Prop) (a b : re) :
  (forall st st' l, m U b st = st' :: l -> Q st') ->
  forall st st' l, m U (Cat a b) st = st' :: l -> Q st'.
Proof.
  intros Hb st st' l. cbn [m]. generalize (m U a st) as xs.
  induction xs as [|x xs IH]; cbn [flat_map]; [discriminate|].
  destruct (m U b x) as [|y ys] eqn:E; cbn [app]; [exact IH|].
  intros H. injection H as <- _. eapply Hb, E.
Qed.

Lemma first_or (Q : mstate -> Prop) (a b : re) :
  (forall st st' l, m U a st = st' :: l -> Q st') ->
  (forall st st' l, m U b st = st' :: l -> Q st') ->
  forall st st' l, m U (Or a b) st = st' :: l -> Q st'.
Proof.
  intros Ha Hb st st' l. cbn [m].
  destruct (m U a st) as [|y ys] eqn:E; cbn [app].
  - apply Hb.
  - intros H. injection H as <- _. eapply Ha, E.
Qed.

Lemma first_rep_space (lo : nat) (st st' : mstate) (l : list mstate) :
  m U (Rep [CSpace] lo None) st = st' :: l -> starts_space (after st') = false.
Proof.
  cbn [m]. intros H.
  assert (E : forall c, cset_mem U [CSpace] c = is_space c)
    by (intro c; unfold cset_mem; simpl; apply orb_false_r).
  unfold rep in H. rewrite (@greedy_ext _ _ None E) in H.
  apply rep_first in H. rewrite H. apply dropwhile_starts.
Qed.

End FirstMatch.

(* ----------------------------------------------------------------- *)
(** *** What [mask_pii] leaves and what it masks *)

Section Mask.

Variable U : ucd.

(** What [EMAIL_PATTERN] matches holds a commercial at. *)
Lemma email_needs_at (st st' : mstate) :
  In st' (m U EMAIL_PATTERN st) -> has_at (after st) = true.
Proof.
  intros H. unfold EMAIL_PATTERN in H. cbn [m] in H.
  repeat match goal with
         | H : In _ (flat_map _ _) |- _ =>
             apply in_flat_map in H as [? [? ?]]
         | H : In _ (eat _ _) |- _ =>
             apply eat_inv in H as [? [? [? [? ?]]]]
         | H : In _ (holds _ _) |- _ => apply holds_inv in H as [? ->]
         | H : In _ (rep _ _ _ _) |- _ =>
             apply rep_inv in H as [? [[? ?] [? [? ?]]]]
         | H : N.eqb _ _ = true |- _ => apply N.eqb_eq in H; subst
         end.
  repeat match goal with
         | H : after _ = _ |- _ => try rewrite H in *; clear H
         end.
  unfold has_at. rewrite existsb_app. cbn [existsb N.eqb Pos.eqb].
  apply orb_true_r.
Qed.

Lemma has_at_tail (c : char) (s : str) : has_at (c :: s) = false -> has_at s = false.
Proof. unfold has_at. cbn [existsb]. intros H. now apply orb_false_elim in H. Qed.

Lemma email_search_none (s : str) :
  has_at s = false -> forall bef, search_go U EMAIL_PATTERN bef s = false.
Proof.
  assert (N : forall bef a, has_at a = false ->
                            match_at U EMAIL_PATTERN bef a = None).
  { intros bef a H. apply match_at_none.
    destruct (m U EMAIL_PATTERN _) as [|st' l] eqn:E; [reflexivity|].
    assert (I : In st' (m U EMAIL_PATTERN {| before := bef; after := a; caps := [] |}))
      by (rewrite E; now left).
    apply email_needs_at in I. cbn [after] in I. congruence. }
  induction s as [|c s IH]; intros H bef; cbn [search_go]; rewrite (N _ _ H);
    [reflexivity|].
  apply IH. eapply has_at_tail, H.
Qed.

Lemma sub_email_no_at (s : str) :
  has_at s = false -> sub U EMAIL_PATTERN [TStr EMAIL_TOKEN] s = s.
Proof. intros H. apply sub_no_match. now apply email_search_none. Qed.

Lemma sub_url_no_head (s : str) :
  has_link s = false -> sub U URL_PATTERN [TStr URL_TOKEN] s = s.
Proof.
  intros H. apply sub_no_match. unfold search. now rewrite search_has_link.
Qed.

(** What [URL_PATTERN] matches holds no whitespace. *)
Lemma url_match_solid (st st' : mstate) :
  In st' (m U URL_PATTERN st) ->
  exists w, after st = w ++ after st' /\ solid w = true.
Proof.
  intros H. unfold URL_PATTERN in H. cbn [m] in H.
  repeat match goal with
         | H : In _ (flat_map _ _) |- _ =>
             apply in_flat_map in H as [? [? ?]]
         | H : In _ (_ ++ _) |- _ => apply in_app_or in H as [H | H]
         | H : In _ (eat _ _) |- _ =>
             apply eat_inv in H as [? [? [? [? ?]]]]
         | H : In _ (rep _ _ (Some _) _) |- _ =>
             apply rep_inv_bound in H as [? [[? ?] [? [? [? ?]]]]]
         | H : In _ (rep _ _ None _) |- _ =>
             apply rep_inv in H as [? [[? ?] [? [? ?]]]]
         | H : N.eqb _ _ = true |- _ => apply N.eqb_eq in H; subst
         end.
  all: repeat match goal with
              | H : after _ = _ |- _ => try rewrite H in *; clear H
              end.
  all: repeat match goal with
              | H : forallb (cset_mem U [CChar _]) ?w = true,
                L : length ?w <= 1 |- _ =>
                  destruct w as [|? [|? ?]]; [| |simpl in L; lia];
                  cbn [forallb cset_mem existsb item_mem] in H;
                  rewrite ?orb_false_r, ?andb_true_r in H
              | H : N.eqb _ _ = true |- _ => apply N.eqb_eq in H; subst
              end.
  all: cbn [app];
    match goal with
    | H : forallb (cset_mem U [CNotSpace]) ?x = true
      |- exists w, ?l = w ++ ?b /\ _ =>
        rewrite (forallb_eq _ (fun c => negb (is_space c)) _ (notspace_mem U)) in H;
        let rec taken l :=
          lazymatch l with
          | x ++ b => constr:(x)
          | ?c :: ?t => let r := taken t in constr:(c :: r)
          end in
        let y := taken l in exists y; split; [reflexivity|];
        cbn [solid forallb]; exact H
    end.
Qed.

Lemma first_rep_notspace (lo : nat) (st st' : mstate) (l : list mstate) :
  m U (Rep [CNotSpace] lo None) st = st' :: l -> solid_next (after st') = false.
Proof.
  cbn [m]. intros H. unfold rep in H.
  rewrite (@greedy_ext _ _ None (notspace_mem U)) in H.
  apply rep_first in H. rewrite H.
  destruct (dropwhile _ (after st)) as [|c t] eqn:E; [reflexivity|].
  apply dropwhile_hd in E. cbn [solid_next]. exact E.
Qed.

(** The first match of [URL_PATTERN] goes on to the next whitespace. *)
Lemma url_first (st st' : mstate) (l : list mstate) :
  m U URL_PATTERN st = st' :: l -> solid_next (after st') = false.
Proof.
  revert st st' l. unfold URL_PATTERN.
  repeat first [ apply (first_or U (fun s => solid_next (after s) = false))
               | apply (first_cat U (fun s => solid_next (after s) = false)) ].
  all: intros st st' l; apply first_rep_notspace.
Qed.

Lemma link_here_space (c : char) (s : str) :
  is_space c = true -> link_here (c :: s) = false.
Proof.
  intros H. destruct (link_here (c :: s)) eqn:L; [|reflexivity].
  apply link_here_solid in L. cbn [solid_next] in L. now rewrite H in L.
Qed.

Lemma mask_links_go_leave (w aft : str) :
  solid w = true -> solid_next aft = false ->
  mask_links_go (w ++ aft) true = mask_links_go aft false.
Proof.
  intros W A. induction w as [|c w IH].
  - destruct aft as [|c t]; [reflexivity|]. cbn [app mask_links_go].
    cbn [solid_next] in A. apply negb_false_iff in A. rewrite A. cbn [negb andb].
    reflexivity.
  - cbn [solid forallb] in W. apply andb_prop in W as [W1 W2].
    cbn [app mask_links_go]. rewrite W1. cbn [andb]. now apply IH.
Qed.

Lemma sub_url_mask_links (s : str) :
  sub U URL_PATTERN [TStr URL_TOKEN] s = mask_links s.
Proof.
  unfold sub, mask_links. symmetry.
  apply (sub_ind U URL_PATTERN [TStr URL_TOKEN]
           (fun _ aft o => mask_links_go aft false = o)).
  - reflexivity.
  - intros bef c t o N IH. apply url_match_iff in N.
    cbn [mask_links_go andb]. rewrite N. now rewrite IH.
  - intros bef w aft cs o W M IH.
    assert (L : link_here (w ++ aft) = true).
    { destruct (link_here (w ++ aft)) eqn:L; [reflexivity|].
      apply (url_match_iff U bef) in L. congruence. }
    apply match_at_head in M as [st' [l [w' [E [_ [A [_ [Lw _]]]]]]]].
    apply app_eq_length in A as [<- A]; [|now symmetry].
    assert (I : In st' (m U URL_PATTERN {| before := bef; after := w ++ aft; caps := [] |}))
      by (rewrite E; now left).
    apply url_match_solid in I as [v [Hv Sv]]. cbn [after] in Hv.
    rewrite <- A in Hv. apply app_inv_tail in Hv. subst v.
    apply url_first in E. rewrite <- A in E.
    destruct w as [|c w]; [contradiction|].
    cbn [app mask_links_go andb]. cbn [app] in L. rewrite L.
    cbn [expand]. rewrite app_nil_r. f_equal.
    rewrite <- IH. cbn [solid forallb] in Sv. apply andb_prop in Sv as [_ Sv].
    now apply mask_links_go_leave.
Qed.

End Mask.

(* ----------------------------------------------------------------- *)
(** *** An address at the start of the text or after whitespace *)

Section Addresses.

Variable U : ucd.

Lemma mem_solid (cs : cset) (w : str) :
  (forall c, cset_mem U cs c = true -> is_space c = false) ->
  forallb (cset_mem U cs) w = true -> solid w = true.
Proof.
  intros H F. unfold solid. apply forallb_forall. intros c I.
  rewrite forallb_forall in F. now rewrite (H c (F c I)).
Qed.

Lemma solid_app (a b : str) : solid (a ++ b) = solid a && solid b.
Proof. apply forallb_app. Qed.

Lemma solid_cons (c : char) (s : str) :
  is_space c = false -> solid (c :: s) = solid s.
Proof. intros H. unfold solid. cbn [forallb]. now rewrite H. Qed.

(** What [EMAIL_PATTERN] matches holds no whitespace. *)
Lemma email_match_solid (st st' : mstate) :
  In st' (m U EMAIL_PATTERN st) ->
  exists w, after st = w ++ after st' /\ solid w = true.
Proof.
  intros H. unfold EMAIL_PATTERN in H. cbn [m] in H.
  repeat match goal with
         | H : In _ (flat_map _ _) |- _ =>
             apply in_flat_map in H as [? [? ?]]
         | H : In _ (eat _ _) |- _ =>
             apply eat_inv in H as [? [? [? [? ?]]]]
         | H : In _ (holds _ _) |- _ => apply holds_inv in H as [? ->]
         | H : In _ (rep _ _ _ _) |- _ =>
             apply rep_inv in H as [? [[? ?] [? [? ?]]]]
         | H : N.eqb _ _ = true |- _ => apply N.eqb_eq in H; subst
         end.
  repeat match goal with
         | H : after _ = _ |- _ => try rewrite H in *; clear H
         end.
  repeat match goal with
         | H : forallb (cset_mem U _) _ = true |- _ =>
             apply mem_solid in H;
             [| intros c Hc; unfold cset_mem in Hc; cbn [existsb item_mem] in Hc;
                destruct (is_space c) eqn:S; [|reflexivity]; unfold is_space in S;
                rewrite ?orb_true_iff, ?andb_true_iff, ?N.leb_le, ?N.eqb_eq in *;
                lia ]
         end.
  match goal with
  | |- exists w, ?x ++ 64%N :: ?y ++ 46%N :: ?z ++ _ = _ /\ _ =>
      exists (x ++ 64%N :: y ++ 46%N :: z)
  end.
  split; [repeat (rewrite <- app_assoc; cbn [app]); reflexivity|].
  repeat first [ rewrite solid_app
               | rewrite solid_cons by reflexivity
               | match goal with
                 | H : solid _ = true |- _ => rewrite H; clear H; cbn [andb]
                 end ].
  reflexivity.
Qed.

Lemma ends_space_cons (c : char) (x : str) :
  x <> [] -> ends_space (c :: x) = ends_space x.
Proof.
  intros N. destruct x as [|d x]; [contradiction|].
  apply (ends_space_app [c] d x).
Qed.

Lemma ends_space_nonempty (x : str) : ends_space x = true -> x <> [].
Proof. intros H ->. discriminate. Qed.

(** A text without whitespace that begins where a text ending in
    whitespace begins is a proper prefix of it. *)
Lemma solid_prefix (w x a y : str) :
  solid w = true -> w ++ x = a ++ y -> ends_space a = true ->
  exists a2, a = w ++ a2 /\ ends_space a2 = true.
Proof.
  revert a. induction w as [|c w IH]; intros a S E A; [now exists a|].
  destruct a as [|d a]; [discriminate|].
  cbn [app] in E. injection E as <- E.
  cbn [solid forallb] in S. apply andb_prop in S as [Sc S].
  destruct a as [|e a].
  - unfold ends_space in A. cbn [rev app starts_space] in A.
    rewrite A in Sc. discriminate.
  - rewrite ends_space_cons in A by discriminate.
    destruct (IH (e :: a) S E A) as [a2 [-> A2]]. now exists a2.
Qed.

(** The substitution of the addresses puts [<EMAIL>] for a match that
    begins the text or follows whitespace, and what stands before the mask
    is again nothing or ends in whitespace. *)
Lemma sub_email_at_boundary (a w b : str) (cs : list (nat * str)) :
  a = [] \/ ends_space a = true ->
  match_at U EMAIL_PATTERN (rev a) (w ++ b) = Some (length w, cs) ->
  exists a' b',
    sub U EMAIL_PATTERN [TStr EMAIL_TOKEN] (a ++ w ++ b) =
      a' ++ EMAIL_TOKEN ++ b' /\
    (a' = [] \/ ends_space a' = true).
Proof.
  intros A M.
  pose (R := fun (bef aft o : str) =>
               forall a w b cs,
                 aft = a ++ w ++ b -> a = [] \/ ends_space a = true ->
                 match_at U EMAIL_PATTERN (rev a ++ bef) (w ++ b) =
                   Some (length w, cs) ->
                 exists a' b',
                   o = a' ++ EMAIL_TOKEN ++ b' /\
                   (a = [] -> a' = []) /\ (a <> [] -> ends_space a' = true)).
  assert (G : forall bef aft,
             R bef aft (sub_go U EMAIL_PATTERN [TStr EMAIL_TOKEN] bef aft 0)).
  { apply (sub_ind U EMAIL_PATTERN [TStr EMAIL_TOKEN] R); unfold R.
    - intros bef a0 w0 b0 cs0 E _ M0. exfalso.
      symmetry in E. apply app_eq_nil in E as [_ E].
      apply app_eq_nil in E as [-> ->].
      apply match_at_inv in M0 as [st' [w' [_ [_ [_ [_ [L N]]]]]]].
      destruct w'; [contradiction|discriminate].
    - intros bef c t o N IH a0 w0 b0 cs0 E A0 M0.
      destruct a0 as [|c0 a1].
      + cbn [app rev] in E, M0. rewrite <- E in M0. congruence.
      + cbn [app] in E. injection E as <- E.
        cbn [rev] in M0. rewrite <- app_assoc in M0. cbn [app] in M0.
        assert (A1 : a1 = [] \/ ends_space a1 = true).
        { destruct a1 as [|d a1]; [now left|right].
          destruct A0 as [A0|A0]; [discriminate|].
          now rewrite ends_space_cons in A0 by discriminate. }
        destruct (IH a1 w0 b0 cs0 E A1 M0) as [a' [b' [-> [H1 H2]]]].
        exists (c :: a'), b'. split; [reflexivity|]. split; [discriminate|].
        intros _. destruct a1 as [|d a1].
        * rewrite (H1 eq_refl). destruct A0 as [A0|A0]; [discriminate|exact A0].
        * assert (X : ends_space a' = true) by (apply H2; discriminate).
          rewrite ends_space_cons; [exact X|]. now apply ends_space_nonempty.
    - intros bef w1 aft c1 o W M1 IH a0 w0 b0 cs0 E A0 M0.
      cbn [expand]. rewrite app_nil_r.
      destruct a0 as [|c0 a1].
      + exists [], o. split; [reflexivity|]. split; [reflexivity|].
        intros X. now contradiction X.
      + destruct A0 as [A0|A0]; [discriminate|].
        pose proof M1 as M1'.
        apply match_at_shape in M1' as [st' [I [_ [Ea _]]]].
        apply email_match_solid in I as [v [Ev Sv]]. cbn [after] in Ev.
        rewrite Ea in Ev. apply app_inv_tail in Ev. subst v.
        destruct (solid_prefix w1 aft (c0 :: a1) (w0 ++ b0) Sv E A0)
          as [a2 [Ea2 A2]].
        rewrite Ea2, <- app_assoc in E. apply app_inv_head in E.
        rewrite Ea2, rev_app_distr, <- app_assoc in M0.
        destruct (IH a2 w0 b0 cs0 E (or_intror A2) M0) as [a' [b' [-> [_ H2]]]].
        assert (X : ends_space a' = true)
          by (apply H2; now apply ends_space_nonempty).
        exists (EMAIL_TOKEN ++ a'), b'. split; [now rewrite <- app_assoc|].
        split; [discriminate|]. intros _.
        destruct a' as [|d a']; [discriminate|].
        now rewrite (ends_space_app EMAIL_TOKEN d a'). }
  unfold sub.
  destruct (G [] (a ++ w ++ b) a w b cs eq_refl A) as [a' [b' [E [H1 H2]]]].
  - now rewrite app_nil_r.
  - exists a', b'. split; [exact E|].
    destruct a as [|c a]; [left; now apply H1 | right; apply H2; discriminate].
Qed.

(** Whitespace ends a link: after it the scan is outside. *)
Lemma mask_links_after_space (a rest : str) :
  ends_space a = true ->
  forall inside, exists o,
    mask_links_go (a ++ rest) inside = o ++ mask_links_go rest false.
Proof.
  induction a as [|c [|d a] IH]; intros A inside.
  - discriminate.
  - unfold ends_space in A. cbn [rev app starts_space] in A.
    cbn [app mask_links_go]. rewrite A. cbn [negb].
    rewrite andb_false_r, (link_here_space c rest A). now exists [c].
  - rewrite ends_space_cons in A by discriminate.
    change ((c :: d :: a) ++ rest) with (c :: ((d :: a) ++ rest)).
    cbn [mask_links_go].
    destruct (inside && negb (is_space c)).
    + apply (IH A).
    + destruct (link_here _).
      * destruct (IH A true) as [o ->]. exists (URL_TOKEN ++ o).
        now rewrite <- app_assoc.
      * destruct (IH A false) as [o ->]. now exists (c :: o).
Qed.

(** No link begins with a character other than [h], [w] and [b]. *)
Lemma link_here_head (c : char) (s : str) :
  c <> 104%N -> c <> 119%N -> c <> 98%N -> link_here (c :: s) = false.
Proof.
  intros H1 H2 H3. unfold link_here, URL_HEADS. cbn [existsb starts_with].
  destruct (N.eqb_spec 104 c) as [E|_]; [now symmetry in E|].
  destruct (N.eqb_spec 119 c) as [E|_]; [now symmetry in E|].
  destruct (N.eqb_spec 98 c) as [E|_]; [now symmetry in E|].
  reflexivity.
Qed.

(** The mask of an address is not part of a link that begins with it. *)
Lemma mask_links_token (b : str) :
  mask_links_go (EMAIL_TOKEN ++ b) false = EMAIL_TOKEN ++ mask_links_go b false.
Proof.
  unfold EMAIL_TOKEN. cbn [app mask_links_go andb].
  repeat (rewrite link_here_head by discriminate; f_equal).
Qed.

(** The mask put for an address at the start of the text or after
    whitespace is in what [mask_pii] returns, and in the text cleaned of
    its whitespace. *)
Lemma email_mask_stays (a w b : str) (cs : list (nat * str)) :
  a = [] \/ ends_space a = true ->
  match_at U EMAIL_PATTERN (rev a) (w ++ b) = Some (length w, cs) ->
  contains EMAIL_TOKEN (clean_whitespace U (mask_pii U (a ++ w ++ b))) = true.
Proof.
  intros A M. apply clean_whitespace_keeps; [reflexivity|].
  unfold mask_pii.
  destruct (sub_email_at_boundary a w b cs A M) as [a' [b' [-> A']]].
  rewrite sub_url_mask_links. unfold mask_links.
  apply contains_iff.
  destruct A' as [-> | A'].
  - cbn [app]. rewrite mask_links_token. now exists [], (mask_links_go b' false).
  - destruct (mask_links_after_space a' (EMAIL_TOKEN ++ b') A' false) as [o ->].
    rewrite mask_links_token. now exists o, (mask_links_go b' false).
Qed.

(** Whether a link begins in [x] does not depend on what follows the
    mask that comes after [x]: the ways a link begins hold no [<]. *)
Lemma head_cut (h x rest : str) :
  ~ In 60%N h ->
  starts_with h (x ++ 60%N :: rest)
    && solid_next (skipn (length h) (x ++ 60%N :: rest)) =
  starts_with h (x ++ [60%N]) && solid_next (skipn (length h) (x ++ [60%N])).
Proof.
  revert x. induction h as [|c h IH]; intros x N.
  - cbn [starts_with length skipn andb]. now destruct x.
  - destruct x as [|d x].
    + cbn [app starts_with].
      destruct (N.eqb_spec c 60) as [->|_]; [|reflexivity].
      exfalso. apply N. now left.
    + cbn [app starts_with length skipn]. rewrite <- !andb_assoc.
      f_equal. apply IH. intros I. apply N. now right.
Qed.

Lemma existsb_eq_in (A : Type) (f g : A -> bool) (l : list A) :
  (forall x, In x l -> f x = g x) -> existsb f l = existsb g l.
Proof.
  induction l as [|x l IH]; intros H; [reflexivity|]. cbn [existsb].
  rewrite (H x) by now left. f_equal. apply IH. intros y I. apply H. now right.
Qed.

Lemma link_here_cut (x rest : str) :
  link_here (x ++ 60%N :: rest) = link_here (x ++ [60%N]).
Proof.
  unfold link_here. apply existsb_eq_in. intros h I. apply head_cut.
  unfold URL_HEADS in I. cbn [In] in I.
  destruct I as [<- | [<- | [<- | [<- | []]]]]; cbn [In];
    intuition discriminate.
Qed.

(** Where no link begins before a mask, the text up to the mask is
    copied. *)
Lemma mask_links_calm (x rest : str) :
  has_link (x ++ [60%N]) = false ->
  mask_links_go (x ++ 60%N :: rest) false =
  x ++ mask_links_go (60%N :: rest) false.
Proof.
  induction x as [|c x IH]; intros H; [reflexivity|].
  cbn [app has_link] in H. apply orb_false_elim in H as [H1 H2].
  change ((c :: x) ++ 60%N :: rest) with (c :: (x ++ 60%N :: rest)).
  cbn [mask_links_go andb].
  change (c :: x ++ 60%N :: rest) with ((c :: x) ++ 60%N :: rest).
  rewrite link_here_cut. cbn [app]. rewrite H1. cbn [app]. f_equal.
  now apply IH.
Qed.

(** A mask that follows the start of the text or whitespace, with no
    link beginning before it since, is in the text [mask_pii] returns. *)
Lemma email_token_stays (a x b : str) :
  a = [] \/ ends_space a = true ->
  has_link (x ++ [60%N]) = false ->
  contains EMAIL_TOKEN
    (clean_whitespace U
       (sub U URL_PATTERN [TStr URL_TOKEN] (a ++ x ++ EMAIL_TOKEN ++ b))) = true.
Proof.
  intros A L. apply clean_whitespace_keeps; [reflexivity|].
  rewrite sub_url_mask_links. unfold mask_links. apply contains_iff.
  assert (E : mask_links_go (x ++ EMAIL_TOKEN ++ b) false =
              x ++ EMAIL_TOKEN ++ mask_links_go b false).
  { rewrite <- mask_links_token. apply (mask_links_calm x _ L). }
  destruct A as [-> | A].
  - cbn [app]. rewrite E. now exists x, (mask_links_go b false).
  - destruct (mask_links_after_space a (x ++ EMAIL_TOKEN ++ b) A false)
      as [o ->].
    rewrite E. exists (o ++ x), (mask_links_go b false).
    now rewrite <- !app_assoc.
Qed.

End Addresses.

(* ================================================================= *)
(** ** The claims *)

(** C1, as stated, fails: when the text holds the sentinel itself, as in
    the input [<DOT>], the restore phase writes a period for it; the clean
    text is [<DOT>], the only sentence is [.], and the two differ by more
    than whitespace. *)
Lemma C1_sentinel_in_text_is_rewritten :
  exists r,
    preprocess latin_cyrillic no_repair (PyStr (u "<DOT>")) = Ok r /\
    clean r = u "<DOT>" /\
    sentences r = [u "."] /\
    squeeze (join SPACE (sentences r)) <> squeeze (clean r).
Proof.
  eexists. split; [vm_compute; reflexivity|].
  cbn [clean sentences]. repeat split. vm_compute. discriminate.
Qed.

(** C1, amended: for every input [preprocess] accepts whose clean text
    does not hold the sentinel [<DOT>], the sentences joined by single
    spaces are the clean text, character for character (so also up to
    whitespace), and restoring the protected clean text gives the clean
    text back: every period the protect phase replaced is a period again
    at its place. *)
Theorem C1_sentences_rebuild_clean
    (U : ucd) (fix_text : str -> str) (text : pyval) (r : ResultRecord) :
  period_uncased U ->
  preprocess U fix_text text = Ok r ->
  contains DOT (clean r) = false ->
  join SPACE (sentences r) = clean r /\
  squeeze (join SPACE (sentences r)) = squeeze (clean r) /\
  replace DOT PERIOD (protect U (clean r)) = clean r.
Proof.
  intros P H C.
  assert (J : join SPACE (sentences r) = clean r).
  { apply preprocess_inv in H as [[E1 E2] | [x [E1 E2]]].
    - now rewrite E1, E2.
    - rewrite E2. apply split_sentences_join; auto.
      rewrite E1. apply clean_whitespace_normal. }
  repeat split; [exact J | now rewrite J |].
  apply restore_dotted; [now apply protect_dotted | exact C].
Qed.

Lemma C1_sentences_rebuild_clean_witness :
  let r := {| raw := lviv; clean := lviv;
              sentences := [lviv_first; lviv_second] |} in
  period_uncased latin_cyrillic /\
  preprocess latin_cyrillic no_repair (PyStr lviv) = Ok r /\
  contains DOT (clean r) = false /\
  join SPACE (sentences r) = clean r /\
  squeeze (join SPACE (sentences r)) = squeeze (clean r) /\
  replace DOT PERIOD (protect latin_cyrillic (clean r)) = clean r.
Proof.
  intros r.
  assert (P : period_uncased latin_cyrillic) by reflexivity.
  assert (H : preprocess latin_cyrillic no_repair (PyStr lviv) = Ok r)
    by (vm_compute; reflexivity).
  assert (C : contains DOT (clean r) = false) by (vm_compute; reflexivity).
  split; [exact P|]. split; [exact H|]. split; [exact C|].
  exact (C1_sentences_rebuild_clean latin_cyrillic no_repair (PyStr lviv) r P H C).
Defined.

(** C2: the input [Зустріч відбудеться у м. Львів. Всі раді.] gives
    exactly two sentences, the first ending [м. Львів.]: the period after
    the abbreviation [м] is protected and does not split, the period after
    [Львів] does.  The abbreviations are matched whatever their case, as
    whole words, and keep their text: [ВУЛ.] is protected as [ВУЛ<DOT>],
    and the [м.] that ends the word [том.] is not an abbreviation. *)
Theorem C2_abbreviation_period_does_not_split (fix_text : str -> str) :
  fix_text lviv = lviv ->
  exists r,
    preprocess latin_cyrillic fix_text (PyStr lviv) = Ok r /\
    sentences r = [lviv_first; lviv_second] /\
    protect latin_cyrillic (clean r) =
      u "Зустріч відбудеться у м<DOT> Львів. Всі раді." /\
    sub latin_cyrillic UA_ABBREVIATIONS KEEP1_DOT (u "ВУЛ. Сумська") =
      u "ВУЛ<DOT> Сумська" /\
    sub latin_cyrillic UA_ABBREVIATIONS KEEP1_DOT (u "том. Далі") =
      u "том. Далі".
Proof.
  intros E.
  rewrite (preprocess_fix_text latin_cyrillic fix_text no_repair lviv E).
  eexists. split; [vm_compute; reflexivity|].
  cbn [clean sentences]. repeat split; vm_compute; reflexivity.
Qed.

Lemma C2_abbreviation_period_does_not_split_witness :
  no_repair lviv = lviv /\
  exists r,
    preprocess latin_cyrillic no_repair (PyStr lviv) = Ok r /\
    sentences r = [lviv_first; lviv_second] /\
    protect latin_cyrillic (clean r) =
      u "Зустріч відбудеться у м<DOT> Львів. Всі раді." /\
    sub latin_cyrillic UA_ABBREVIATIONS KEEP1_DOT (u "ВУЛ. Сумська") =
      u "ВУЛ<DOT> Сумська" /\
    sub latin_cyrillic UA_ABBREVIATIONS KEEP1_DOT (u "том. Далі") =
      u "том. Далі".
Proof.
  split; [reflexivity|].
  apply (C2_abbreviation_period_does_not_split no_repair). reflexivity.
Defined.

(** C3: the code does not do what the claim and its own comment say.  In
    [1.2.3] the substitution of [(\d)\.(\d)] takes [1.2] as one match and
    goes on after the [2], so that the second period is not between two
    digits still to be read: the protected text is [1<DOT>2.3], with one
    period of the two left as it was.  The sentence returned for this
    input is the input: the period left is followed by a digit, not by
    whitespace. *)
Theorem C3_second_period_of_version_unprotected :
  protect latin_cyrillic (u "1.2.3") = u "1<DOT>2.3" /\
  sub latin_cyrillic DECIMAL_DOT KEEP1_DOT_KEEP2 (u "1.2.3") = u "1<DOT>2.3" /\
  split_sentences latin_cyrillic (u "1.2.3") = [u "1.2.3"] /\
  protect latin_cyrillic (u "1.2.3") <> u "1<DOT>2<DOT>3".
Proof.
  split; [vm_compute; reflexivity|]. split; [vm_compute; reflexivity|].
  split; [vm_compute; reflexivity|]. vm_compute. discriminate.
Qed.

(** C4, as stated, fails: [<DOT>.] is not empty, holds a terminal mark and
    has no place to split at, yet the single sentence returned is [..] and
    not the trimmed input: the sentinel the text itself holds is restored
    as a period. *)
Lemma C4_fallback_rewrites_sentinel :
  let text := u "<DOT>." in
  nonempty text = true /\
  existsb is_terminal text = true /\
  split_points text = false /\
  split_sentences latin_cyrillic text = [u ".."] /\
  split_sentences latin_cyrillic text <> [strip text].
Proof.
  cbv zeta. repeat (split; [vm_compute; reflexivity|]).
  vm_compute. discriminate.
Qed.

(** C4, amended: for every string (necessarily not empty) that holds a
    terminal mark, in which no terminal mark is followed by whitespace and
    then by an uppercase letter, a digit or an opening quote, and which
    does not hold the sentinel [<DOT>], [split_sentences] returns the list
    of one element, the trimmed input. *)
Theorem C4_no_boundary_gives_trimmed_input (U : ucd) (text : str) :
  period_uncased U ->
  existsb is_terminal text = true ->
  split_points text = false ->
  contains DOT text = false ->
  split_sentences U text = [strip text].
Proof.
  intros P T S C. apply split_sentences_whole; auto.
  now apply existsb_terminal_not_blank.
Qed.

Lemma C4_no_boundary_gives_trimmed_input_witness :
  let text := u " done. end " in
  period_uncased latin_cyrillic /\
  existsb is_terminal text = true /\
  split_points text = false /\
  contains DOT text = false /\
  split_sentences latin_cyrillic text = [u "done. end"].
Proof.
  intros text.
  assert (P : period_uncased latin_cyrillic) by reflexivity.
  assert (T : existsb is_terminal text = true) by reflexivity.
  assert (S : split_points text = false) by reflexivity.
  assert (C : contains DOT text = false) by reflexivity.
  split; [exact P|]. split; [exact T|]. split; [exact S|]. split; [exact C|].
  exact (C4_no_boundary_gives_trimmed_input latin_cyrillic text P T S C).
Defined.

(** C5, as stated, fails: for an input of three spaces the loop keeps no
    sentence and the fallback returns the input itself, an entry that is
    whitespace only. *)
Lemma C5_blank_input_comes_back :
  let text := u "   " in
  split_sentences latin_cyrillic text = [text] /\ blank text = true.
Proof. cbv zeta. split; vm_compute; reflexivity. Qed.

(** C5, amended: for every input string the list [split_sentences]
    returns has at least one entry when the input is not empty; when the
    input holds a character that is not whitespace no entry is empty or
    whitespace only; and the entries are the restored segments of
    [re.split] that are not empty, in the order of the segments (or, when
    there is none, the input alone). *)
Theorem C5_sentence_list_invariants (U : ucd) (text : str) :
  let segments := split U SENTENCE_END (protect U text) in
  (nonempty text = true -> 1 <= length (split_sentences U text)) /\
  (blank text = false ->
   Forall (fun s => blank s = false) (split_sentences U text)) /\
  (split_sentences U text = restored segments \/
   restored segments = [] /\ split_sentences U text = [text]).
Proof.
  intros segments. destruct (nonempty text) eqn:Hn.
  - pose proof (split_sentences_restored U text Hn) as E.
    fold segments in E. rewrite E.
    destruct (restored segments) as [|x xs] eqn:R; repeat split.
    + simpl. lia.
    + intros B. constructor; [exact B|constructor].
    + now right.
    + simpl. lia.
    + intros _. apply Forall_forall. intros y Hy. rewrite <- R in Hy.
      unfold restored in Hy. apply filter_In in Hy as [Hy Hne].
      apply in_map_iff in Hy as [z [<- _]].
      now apply strip_nonempty_not_blank.
    + now left.
  - destruct text; [|discriminate]. repeat split.
    + discriminate.
    + discriminate.
    + left. vm_compute. reflexivity.
Qed.

(** C6, as stated, fails: for the integer [0], which is not a string, the
    [raw] field is the empty string and not a rendering of the input; for
    an object whose truth value cannot be taken, and for an [int] of more
    than 4300 digits, whose [str] raises, no record is returned at all. *)
Lemma C6_falsy_input_has_empty_raw :
  preprocess latin_cyrillic no_repair (PyInt 0) =
    Ok {| raw := []; clean := []; sentences := [] |} /\
  py_str (PyInt 0) = Ok (u "0") /\
  preprocess latin_cyrillic no_repair (PyObj None (Some (u "NA"))) = Raised /\
  degenerate (PyInt (10 ^ 4300)) = true /\
  preprocess latin_cyrillic no_repair (PyInt (10 ^ 4300)) = Raised.
Proof.
  split; [reflexivity|]. split; [reflexivity|]. split; [reflexivity|].
  split; [reflexivity | vm_compute; reflexivity].
Qed.

(** C6, amended: for every input that is not a string, or is the empty
    string, or holds only whitespace, and whose truth value (and, when it
    is true, whose [str]) can be taken -- [str] of an [int] of more than
    4300 digits cannot --, [preprocess] returns a record with
    an empty [clean] and no sentences; its [raw] is [str] of the input
    when the input is true and the empty string when it is false ([None],
    [0], [False], the empty string).  So [preprocess(None)] has an empty
    [raw] and [preprocess] of three spaces has the three spaces. *)
Theorem C6_degenerate_input
    (U : ucd) (fix_text : str -> str) (v : pyval) (t : bool) (rendering : str) :
  degenerate v = true ->
  truth v = Ok t ->
  (t = true -> py_str v = Ok rendering) ->
  preprocess U fix_text v =
    Ok {| raw := if t then rendering else []; clean := []; sentences := [] |} /\
  preprocess U fix_text PyNone =
    Ok {| raw := []; clean := []; sentences := [] |} /\
  preprocess U fix_text (PyStr (u "   ")) =
    Ok {| raw := u "   "; clean := []; sentences := [] |}.
Proof.
  intros D T R. split; [|split; reflexivity].
  assert (E : preprocess U fix_text v = rejected v).
  { destruct v as [| b | z | s | tr rend]; try reflexivity.
    simpl in D. unfold preprocess. now rewrite (strip_blank _ D). }
  rewrite E. unfold rejected. rewrite T. simpl.
  destruct t; [|reflexivity]. now rewrite (R eq_refl).
Qed.

Lemma C6_degenerate_input_witness :
  degenerate (PyInt 7) = true /\
  truth (PyInt 7) = Ok true /\
  (true = true -> py_str (PyInt 7) = Ok (u "7")) /\
  preprocess latin_cyrillic no_repair (PyInt 7) =
    Ok {| raw := u "7"; clean := []; sentences := [] |} /\
  preprocess latin_cyrillic no_repair PyNone =
    Ok {| raw := []; clean := []; sentences := [] |} /\
  preprocess latin_cyrillic no_repair (PyStr (u "   ")) =
    Ok {| raw := u "   "; clean := []; sentences := [] |}.
Proof.
  assert (D : degenerate (PyInt 7) = true) by reflexivity.
  assert (T : truth (PyInt 7) = Ok true) by reflexivity.
  assert (R : true = true -> py_str (PyInt 7) = Ok (u "7"))
    by (intros _; reflexivity).
  split; [exact D|]. split; [exact T|]. split; [exact R|].
  exact (C6_degenerate_input latin_cyrillic no_repair (PyInt 7) true (u "7") D T R).
Defined.

(** C7, as stated, fails: the pattern of addresses finds [a@b.co] in the
    text above and masks it, the pattern of links then takes the link with
    the mask inside it, and the second [a@b.co], followed by a word
    character, is not matched: the clean text is [<URL> a@b.co_], without
    [<EMAIL>] and with the matched address still in it. *)
Lemma C7_address_in_link_leaves_no_email_token :
  exists r,
    preprocess latin_cyrillic no_repair (PyStr link_with_address) = Ok r /\
    sub latin_cyrillic EMAIL_PATTERN [TStr EMAIL_TOKEN] link_with_address =
      u "http://x.ua/<EMAIL> a@b.co_" /\
    clean r = u "<URL> a@b.co_" /\
    contains EMAIL_TOKEN (clean r) = false /\
    contains (u "a@b.co") (clean r) = true.
Proof.
  eexists. split; [vm_compute; reflexivity|].
  cbn [clean]. repeat split; vm_compute; reflexivity.
Qed.

(** C7, amended: [mask_pii] substitutes the addresses first and the links
    second.  For every text [preprocess] accepts: when the pattern of
    addresses matches at the start of the text that reaches [mask_pii] or
    right after whitespace, the clean text holds [<EMAIL>] (a link cannot
    take that mask with it, since a link neither begins with the mask nor
    goes over whitespace); a mask the first substitution leaves is lost
    only to a link that begins before it and after the last whitespace
    before it; when the pattern matches anywhere, the clean text holds
    [<EMAIL>], or [<URL>] when a link was found afterwards (which may then
    have taken the mask with it); and when the pattern of links matches in
    the text left by the first substitution, the clean text holds [<URL>].
    The pattern of links matches nowhere in the clean text, which holds no
    text that this pattern matches.  A text that is an address and begins
    like a link, [www.a@b.co], is masked as an address.  Nothing is said
    of other occurrences of a matched address. *)
Theorem C7_masking_leaves_a_token
    (U : ucd) (fix_text : str -> str) (s : str) (r : ResultRecord) :
  blank s = false ->
  preprocess U fix_text (PyStr s) = Ok r ->
  let t := before_masking U fix_text s in
  let t' := sub U EMAIL_PATTERN [TStr EMAIL_TOKEN] t in
  clean r = clean_whitespace U (sub U URL_PATTERN [TStr URL_TOKEN] t') /\
  (forall a w b cs,
      t = a ++ w ++ b -> a = [] \/ ends_space a = true ->
      match_at U EMAIL_PATTERN (rev a) (w ++ b) = Some (length w, cs) ->
      contains EMAIL_TOKEN (clean r) = true) /\
  (forall a x b,
      t' = a ++ x ++ EMAIL_TOKEN ++ b -> a = [] \/ ends_space a = true ->
      has_link (x ++ [ch "<"]) = false ->
      contains EMAIL_TOKEN (clean r) = true) /\
  (search U EMAIL_PATTERN t = true ->
   search U URL_PATTERN t' = false ->
   contains EMAIL_TOKEN (clean r) = true) /\
  (search U EMAIL_PATTERN t = true ->
   contains EMAIL_TOKEN (clean r) = true \/ contains URL_TOKEN (clean r) = true) /\
  (search U URL_PATTERN t' = true -> contains URL_TOKEN (clean r) = true) /\
  search U URL_PATTERN (clean r) = false /\
  (forall bef w aft cs,
      match_at U URL_PATTERN bef (w ++ aft) = Some (length w, cs) ->
      contains w (clean r) = false) /\
  mask_pii latin_cyrillic (u "www.a@b.co") = EMAIL_TOKEN.
Proof.
  intros B H t t'. rewrite (preprocess_text U fix_text s B) in H.
  cbv zeta in H. injection H as <-. cbn [clean].
  assert (K0 : forall a w b cs,
             t = a ++ w ++ b -> a = [] \/ ends_space a = true ->
             match_at U EMAIL_PATTERN (rev a) (w ++ b) = Some (length w, cs) ->
             contains EMAIL_TOKEN (clean_whitespace U (mask_pii U t)) = true).
  { intros a w b cs E A M. rewrite E. now apply (email_mask_stays U a w b cs). }
  fold t. revert K0. unfold mask_pii. fold t'. intros K0.
  assert (K3 : search U URL_PATTERN
                 (clean_whitespace U (sub U URL_PATTERN [TStr URL_TOKEN] t'))
               = false) by apply masked_clean_no_link.
  assert (K4 : forall bef w aft cs,
             match_at U URL_PATTERN bef (w ++ aft) = Some (length w, cs) ->
             contains w
               (clean_whitespace U (sub U URL_PATTERN [TStr URL_TOKEN] t'))
             = false).
  { intros bef w aft cs M. eapply url_matched_not_found; [|exact M].
    unfold search in K3. now rewrite search_has_link in K3. }
  assert (K1 : search U EMAIL_PATTERN t = true ->
               search U URL_PATTERN t' = false ->
               contains EMAIL_TOKEN
                 (clean_whitespace U (sub U URL_PATTERN [TStr URL_TOKEN] t')) = true).
  { intros E N. rewrite (sub_no_match U _ _ _ N).
    apply clean_whitespace_keeps; [reflexivity|].
    now apply sub_contains. }
  assert (K2 : search U URL_PATTERN t' = true ->
               contains URL_TOKEN
                 (clean_whitespace U (sub U URL_PATTERN [TStr URL_TOKEN] t')) = true).
  { intros E. apply clean_whitespace_keeps; [reflexivity|].
    now apply sub_contains. }
  assert (K5 : forall a x b,
             t' = a ++ x ++ EMAIL_TOKEN ++ b -> a = [] \/ ends_space a = true ->
             has_link (x ++ [ch "<"]) = false ->
             contains EMAIL_TOKEN
               (clean_whitespace U (sub U URL_PATTERN [TStr URL_TOKEN] t')) = true).
  { intros a x b E A L. rewrite E. now apply (email_token_stays U a x b). }
  split; [reflexivity|]. split; [exact K0|]. split; [exact K5|].
  split; [exact K1|].
  split; [|split; [exact K2|split; [exact K3|split; [exact K4|reflexivity]]]].
  intros E. destruct (search U URL_PATTERN t') eqn:N; auto.
Qed.

Lemma C7_masking_leaves_a_token_witness :
  let s := u "Пишіть на info@news.ua або http://news.ua/a@b.co!" in
  let r := {| raw := s; clean := u "Пишіть на <EMAIL> або <URL>";
              sentences := [u "Пишіть на <EMAIL> або <URL>"] |} in
  let t := before_masking latin_cyrillic no_repair s in
  let t' := sub latin_cyrillic EMAIL_PATTERN [TStr EMAIL_TOKEN] t in
  blank s = false /\
  preprocess latin_cyrillic no_repair (PyStr s) = Ok r /\
  t = u "Пишіть на " ++ u "info@news.ua" ++ u " або http://news.ua/a@b.co!" /\
  match_at latin_cyrillic EMAIL_PATTERN (rev (u "Пишіть на "))
    (u "info@news.ua" ++ u " або http://news.ua/a@b.co!") =
    Some (length (u "info@news.ua"), []) /\
  search latin_cyrillic URL_PATTERN t' = true /\
  contains EMAIL_TOKEN (clean r) = true /\
  contains URL_TOKEN (clean r) = true /\
  search latin_cyrillic URL_PATTERN (clean r) = false.
Proof.
  intros s r t t'.
  assert (B : blank s = false) by reflexivity.
  assert (H : preprocess latin_cyrillic no_repair (PyStr s) = Ok r)
    by (vm_compute; reflexivity).
  assert (E : t = u "Пишіть на " ++ u "info@news.ua"
                  ++ u " або http://news.ua/a@b.co!")
    by (vm_compute; reflexivity).
  assert (M : match_at latin_cyrillic EMAIL_PATTERN (rev (u "Пишіть на "))
                (u "info@news.ua" ++ u " або http://news.ua/a@b.co!") =
              Some (length (u "info@news.ua"), []))
    by (vm_compute; reflexivity).
  assert (L : search latin_cyrillic URL_PATTERN t' = true)
    by (vm_compute; reflexivity).
  pose proof (C7_masking_leaves_a_token latin_cyrillic no_repair s r B H) as T.
  cbv zeta in T. destruct T as [_ [T0 [_ [_ [_ [T2 [T3 _]]]]]]].
  split; [exact B|]. split; [exact H|]. split; [exact E|]. split; [exact M|].
  split; [exact L|]. split; [|split; [exact (T2 L) | exact T3]].
  exact (T0 _ _ _ _ E (or_intror eq_refl) M).
Defined.

(** C8: [normalize_typography] and [clean_whitespace] are idempotent: for
    every string, applying either twice gives what applying it once
    gives. *)
Theorem C8_normalizers_idempotent (U : ucd) (s : str) :
  normalize_typography U (normalize_typography U s) = normalize_typography U s /\
  clean_whitespace U (clean_whitespace U s) = clean_whitespace U s.
Proof.
  split.
  - rewrite !normalize_typography_map, map_map. apply map_ext.
    intros c. apply typo_idem.
  - apply clean_whitespace_fixed, clean_whitespace_normal.
Qed.

(** C9, as stated, fails: the first branch of [preprocess] takes the truth
    value of an input that is not a string, and the [str] of a true one;
    for an object whose [bool] raises (a NumPy array with several
    elements, [pandas.NA]) and for an [int] of more than 4300 digits,
    whose [str] raises, the call raises with it and no record is
    returned. *)
Lemma C9_truth_value_may_raise :
  preprocess latin_cyrillic no_repair (PyObj None (Some (u "[1 2]"))) = Raised /\
  preprocess latin_cyrillic no_repair (PyInt (10 ^ 4300)) = Raised.
Proof. split; [reflexivity | vm_compute; reflexivity]. Qed.

(** C9, amended: for every string, whatever it holds, [preprocess] returns
    a record and raises nothing: the record of that string, with the
    string as [raw], the empty text or the text cleaned stage by stage as
    [clean], and the sentences of [clean].  For any input, [preprocess]
    raises exactly when [bool] of the input raises, or [bool] is true and
    [str] of the input raises, which no string does; otherwise it returns
    a record.  What it returns is decided by the input and by the text
    [ftfy.fix_text] returns for it: two functions that agree on the input
    give the same outcome, and for an input that is not a string
    [ftfy.fix_text] has no part in it. *)
Theorem C9_preprocess_returns_or_raises
    (U : ucd) (fix_text : str -> str) (v : pyval) :
  (forall s, exists r,
      preprocess U fix_text (PyStr s) = Ok r /\ raw r = s /\
      clean r = (if blank s then []
                 else clean_whitespace U
                        (mask_pii U (before_masking U fix_text s))) /\
      sentences r = split_sentences U (clean r)) /\
  (preprocess U fix_text v = Raised <->
   truth v = Raised \/ (truth v = Ok true /\ py_str v = Raised)) /\
  (forall t, truth v = Ok t -> (t = true -> exists x, py_str v = Ok x) ->
             exists r, preprocess U fix_text v = Ok r) /\
  (forall g, (forall s, v = PyStr s -> fix_text s = g s) ->
             preprocess U fix_text v = preprocess U g v).
Proof.
  assert (S : forall s, exists r,
             preprocess U fix_text (PyStr s) = Ok r /\ raw r = s /\
             clean r = (if blank s then []
                        else clean_whitespace U
                               (mask_pii U (before_masking U fix_text s))) /\
             sentences r = split_sentences U (clean r)).
  { intros s. destruct (blank s) eqn:B.
    - rewrite (preprocess_blank U fix_text s B). eexists.
      split; [reflexivity|]. now repeat split.
    - rewrite (preprocess_text U fix_text s B). cbv zeta. eexists.
      split; [reflexivity|]. now repeat split. }
  assert (R : forall w, rejected w = Raised <->
                        truth w = Raised \/ (truth w = Ok true /\ py_str w = Raised)).
  { intros w. unfold rejected.
    destruct (truth w) as [[|]|]; cbn [bind];
      [destruct (py_str w); cbn [bind]| |]; split; intros X;
      try discriminate; try (now left); try (now right).
    all: try reflexivity; destruct X as [X | [X Y]]; discriminate. }
  assert (P : forall s, preprocess U fix_text (PyStr s) = Raised <->
                        rejected (PyStr s) = Raised).
  { intros s. destruct (S s) as [r [E _]]. rewrite E.
    split; [discriminate|]. intros X. apply R in X.
    destruct X as [X | [_ X]]; discriminate. }
  split; [exact S|]. split; [|split].
  - destruct v as [| b | z | s | tr rend]; try apply R.
    rewrite P. apply R.
  - intros t T X. destruct (preprocess U fix_text v) as [r|] eqn:E;
      [now exists r|]. exfalso.
    assert (Q : truth v = Raised \/ (truth v = Ok true /\ py_str v = Raised)).
    { destruct v as [| b | z | s | tr rend]; try (now apply R).
      apply R. now apply P. }
    destruct Q as [Q | [Q1 Q2]]; [congruence|].
    rewrite Q1 in T. injection T as <-.
    destruct (X eq_refl) as [x Hx]. congruence.
  - intros g G. destruct v as [| b | z | s | tr rend]; try reflexivity.
    apply preprocess_fix_text. now apply G.
Qed.

(** C10: for every input, the [clean] text of the record [preprocess]
    returns is whitespace-normal: it neither starts nor ends with
    whitespace, its whitespace characters are single spaces, no two
    whitespace characters follow each other, and [clean_whitespace] leaves
    it as it is; so it is in the degenerate branch, where it is empty. *)
Theorem C10_clean_is_whitespace_normal
    (U : ucd) (fix_text : str -> str) (v : pyval) (r : ResultRecord) :
  preprocess U fix_text v = Ok r ->
  starts_space (clean r) = false /\
  ends_space (clean r) = false /\
  spaced (clean r) = true /\
  space_run (clean r) = false /\
  clean_whitespace U (clean r) = clean r.
Proof.
  intros H.
  assert (N : ws_normal (clean r)).
  { apply preprocess_inv in H as [[E _] | [x [E _]]]; rewrite E.
    - repeat split.
    - apply clean_whitespace_normal. }
  pose proof N as [N1 [N2 N3]]. repeat split; auto.
  - now apply spaced_no_run.
  - now apply clean_whitespace_fixed.
Qed.

Lemma C10_clean_is_whitespace_normal_witness :
  let v := PyStr ([9; 32]%N ++ u "a  :  b" ++ [10; 10; 32]%N) in
  let r := {| raw := [9; 32]%N ++ u "a  :  b" ++ [10; 10; 32]%N;
              clean := u "a : b"; sentences := [u "a : b"] |} in
  preprocess latin_cyrillic no_repair v = Ok r /\
  starts_space (clean r) = false /\
  ends_space (clean r) = false /\
  spaced (clean r) = true /\
  space_run (clean r) = false /\
  clean_whitespace latin_cyrillic (clean r) = clean r.
Proof.
  intros v r.
  assert (H : preprocess latin_cyrillic no_repair v = Ok r)
    by (vm_compute; reflexivity).
  split; [exact H|].
  exact (C10_clean_is_whitespace_normal latin_cyrillic no_repair v r H).
Defined.

(* ================================================================= *)
(** ** More about the functions *)

(* ----------------------------------------------------------------- *)
(** *** [normalize_typography] and [clean_whitespace] *)

Lemma typo_not_typographic (c : char) : is_typographic (typo c) = false.
Proof.
  unfold typo, is_typographic, TYPOGRAPHIC.
  repeat (match goal with
          | |- context [N.eqb c ?k] => destruct (N.eqb c k) eqn:?; cbn
          end); first [reflexivity | discriminate | congruence].
Qed.

Lemma typo_fixed (c : char) : is_typographic c = false -> typo c = c.
Proof.
  unfold typo, is_typographic, TYPOGRAPHIC. cbn [existsb].
  repeat (match goal with
          | |- context [N.eqb c ?k] => destruct (N.eqb c k) eqn:?; cbn
          end); first [reflexivity | discriminate | congruence].
Qed.

Lemma squeeze_collapse (s : str) : squeeze (collapse s) = squeeze s.
Proof.
  induction s as [|c s IH]; [reflexivity|]. cbn [collapse squeeze filter].
  destruct (is_space c) eqn:E; cbn [negb].
  - destruct (starts_space s); [exact IH|].
    cbn [filter]. exact IH.
  - cbn [filter]. rewrite E. cbn [negb]. f_equal. exact IH.
Qed.

Lemma squeeze_dropwhile (s : str) : squeeze (dropwhile is_space s) = squeeze s.
Proof.
  induction s as [|c s IH]; [reflexivity|]. cbn [dropwhile].
  destruct (is_space c) eqn:E; [|reflexivity].
  cbn [squeeze filter]. rewrite E. exact IH.
Qed.

Lemma squeeze_strip (s : str) : squeeze (strip s) = squeeze s.
Proof.
  unfold strip, rstrip, lstrip, squeeze.
  rewrite filter_rev. fold (squeeze (dropwhile is_space (rev (dropwhile is_space s)))).
  rewrite squeeze_dropwhile. unfold squeeze. rewrite filter_rev, rev_involutive.
  apply squeeze_dropwhile.
Qed.

Lemma squeeze_nil (s : str) : squeeze s = [] <-> blank s = true.
Proof.
  induction s as [|c s IH]; [now split|].
  cbn [squeeze filter blank forallb].
  destruct (is_space c); cbn [negb andb]; [exact IH|]. split; discriminate.
Qed.

Lemma length_collapse (s : str) : length (collapse s) <= length s.
Proof.
  induction s as [|c s IH]; [reflexivity|]. cbn [collapse].
  destruct (is_space c); [destruct (starts_space s)|]; simpl; lia.
Qed.

Lemma length_dropwhile (p : char -> bool) (s : str) :
  length (dropwhile p s) <= length s.
Proof.
  induction s as [|c s IH]; [reflexivity|]. cbn [dropwhile].
  destruct (p c); simpl; lia.
Qed.

Lemma length_strip (s : str) : length (strip s) <= length s.
Proof.
  unfold strip, rstrip, lstrip. rewrite length_rev.
  etransitivity; [apply length_dropwhile|]. rewrite length_rev.
  apply length_dropwhile.
Qed.

Lemma blank_starts (s : str) :
  blank s = true -> starts_space s = false -> s = [].
Proof. destruct s as [|c s]; [reflexivity|]. simpl. intros B S. now rewrite S in B. Qed.

(** X1: [normalize_typography] works character by character: the text
    keeps its length, each of the eleven characters of the three patterns
    becomes its plain counterpart ([typo]) where it stands, every other
    character stays, and none of the eleven is left in the result. *)
Theorem X1_normalize_typography_by_character (U : ucd) (s : str) :
  length (normalize_typography U s) = length s /\
  (forall i c, nth_error s i = Some c ->
               nth_error (normalize_typography U s) i = Some (typo c)) /\
  (forall c, is_typographic c = false -> typo c = c) /\
  Forall (fun c => is_typographic c = false) (normalize_typography U s).
Proof.
  rewrite normalize_typography_map. repeat split.
  - apply length_map.
  - intros i c H. now rewrite nth_error_map, H.
  - apply typo_fixed.
  - apply Forall_forall. intros c H. apply in_map_iff in H as [x [<- _]].
    apply typo_not_typographic.
Qed.

(** X2: [clean_whitespace] touches whitespace only: the characters that
    are not whitespace come out the same and in the same order, the text
    does not get longer, and the result is empty exactly when the input
    is empty or whitespace only. *)
Theorem X2_clean_whitespace_keeps_the_text (U : ucd) (s : str) :
  squeeze (clean_whitespace U s) = squeeze s /\
  length (clean_whitespace U s) <= length s /\
  (clean_whitespace U s = [] <-> blank s = true).
Proof.
  assert (Q : squeeze (clean_whitespace U s) = squeeze s).
  { unfold clean_whitespace. now rewrite sub_spaces, squeeze_strip, squeeze_collapse. }
  repeat split.
  - exact Q.
  - unfold clean_whitespace. rewrite sub_spaces.
    etransitivity; [apply length_strip | apply length_collapse].
  - intros E. apply squeeze_nil. now rewrite <- Q, E.
  - intros B. apply squeeze_nil in B. rewrite <- Q in B. apply squeeze_nil in B.
    apply blank_starts; [exact B|].
    apply (clean_whitespace_normal U s).
Qed.

(* ----------------------------------------------------------------- *)
(** *** [clean_news_artifacts] *)

Section News.

Variable U : ucd.

Lemma ua_upper_mem (c : char) : cset_mem U UA_UPPER c = is_ua_upper c.
Proof.
  unfold cset_mem, UA_UPPER, is_ua_upper, in_range. cbn [existsb item_mem].
  now rewrite orb_false_r, !orb_assoc.
Qed.

Lemma ua_lower_mem (c : char) : cset_mem U UA_LOWER c = is_ua_lower c.
Proof.
  unfold cset_mem, UA_LOWER, is_ua_lower, in_range. cbn [existsb item_mem].
  now rewrite orb_false_r, !orb_assoc.
Qed.

Lemma space_mem (c : char) : cset_mem U [CSpace] c = is_space c.
Proof. unfold cset_mem. simpl. apply orb_false_r. Qed.

(** [^] holds at the start of the text only. *)
Lemma news_only_at_start (bef aft : str) :
  bef <> [] -> match_at U NEWS_CITY bef aft = None.
Proof.
  intros H. apply match_at_none. unfold NEWS_CITY. cbn [m before].
  destruct bef; [contradiction|reflexivity].
Qed.

Lemma sub_go_copy (r : re) (tpl : list titem) (aft : str) :
  (forall bef a, bef <> [] -> match_at U r bef a = None) ->
  forall bef, bef <> [] -> sub_go U r tpl bef aft 0 = aft.
Proof.
  intros H. induction aft as [|c t IH]; intros bef Hb; [reflexivity|].
  cbn [sub_go]. rewrite (H bef (c :: t) Hb). f_equal. apply IH. discriminate.
Qed.

(** What [NEWS_CITY] takes is a dateline. *)
Lemma news_match_shape (st st' : mstate) :
  In st' (m U NEWS_CITY st) ->
  exists p, after st = p ++ after st' /\ dateline p.
Proof.
  intros H. unfold NEWS_CITY in H. cbn [m] in H.
  repeat match goal with
         | H : In _ (flat_map _ _) |- _ =>
             apply in_flat_map in H as [? [? ?]]
         | H : In _ (eat _ _) |- _ =>
             apply eat_inv in H as [? [? [? [? ?]]]]
         | H : In _ (holds _ _) |- _ => apply holds_inv in H as [? ->]
         | H : In _ (rep _ _ None _) |- _ =>
             apply rep_inv in H as [? [[? ?] [? [? ?]]]]
         | H : N.eqb _ _ = true |- _ => apply N.eqb_eq in H; subst
         end.
  repeat match goal with
         | H : after _ = _ |- _ => try rewrite H in *; clear H
         end.
  match goal with
  | |- exists p, 40%N :: ?C :: ?city ++ 41%N :: ?w1 ++ 45%N :: ?w2 ++ _ = _ /\ _ =>
      exists ([40%N; C] ++ city ++ [41%N] ++ w1 ++ [45%N] ++ w2);
      split; [now rewrite <- !app_assoc|];
      exists C, city, w1, w2
  end.
  repeat match goal with
         | H : cset_mem U _ _ = true |- _ =>
             first [ change (cset_mem U UA_UPPER x8 = true) in H;
                     rewrite ua_upper_mem in H ]
         | H : forallb (cset_mem U ?cs) _ = true |- _ =>
             first [ change cs with UA_LOWER in H;
                     rewrite (forallb_eq _ is_ua_lower _ ua_lower_mem) in H
                   | rewrite (forallb_eq _ is_space _ space_mem) in H ]
         end.
  repeat split; auto.
  intros ->. simpl in *. lia.
Qed.

Lemma news_first (st st' : mstate) (l : list mstate) :
  m U NEWS_CITY st = st' :: l -> starts_space (after st') = false.
Proof.
  revert st st' l. unfold NEWS_CITY.
  repeat apply (first_cat U (fun s => starts_space (after s) = false)).
  intros st st' l. apply first_rep_space.
Qed.

Lemma clean_news_artifacts_cases (text : str) :
  clean_news_artifacts U text = text \/
  exists p, text = p ++ clean_news_artifacts U text /\ dateline p /\
            starts_space (clean_news_artifacts U text) = false.
Proof.
  unfold clean_news_artifacts, sub.
  destruct text as [|c t]; [now left|].
  destruct (match_at U NEWS_CITY [] (c :: t)) as [[len cs]|] eqn:E.
  - right. apply match_at_head in E as [st' [l [w [E [_ [A [_ [L W]]]]]]]].
    assert (M : match_at U NEWS_CITY [] (w ++ after st') =
                Some (length w, caps st')).
    { rewrite <- A.
      rewrite (@match_at_first U NEWS_CITY [] (c :: t) st' l);
        [| vm_compute; repeat constructor | exact E].
      rewrite A, length_app. do 2 f_equal. lia. }
    rewrite A, (sub_go_match U NEWS_CITY [] [] (after st') W M).
    cbn [expand app].
    rewrite sub_go_copy;
      [| apply news_only_at_start
       | rewrite app_nil_r; intros X; apply (f_equal (@length _)) in X;
         rewrite length_rev in X; destruct w; [contradiction|discriminate]].
    exists w. split; [reflexivity|]. split.
    + assert (H : In st' (m U NEWS_CITY {| before := []; after := c :: t; caps := [] |}))
        by (rewrite E; now left).
      apply news_match_shape in H as [p [Hp D]]. cbn [after] in Hp.
      rewrite A in Hp. apply app_inv_tail in Hp. now subst.
    + eapply news_first, E.
  - left. cbn [sub_go]. rewrite E. f_equal.
    apply sub_go_copy; [apply news_only_at_start | discriminate].
Qed.

End News.

(** X3: [clean_news_artifacts] removes at most one dateline, from the
    start of the text: either the text comes back as it is, or it is a
    dateline followed by the result, and the result does not begin with
    whitespace.  A text that does not begin with an opening parenthesis
    comes back as it is. *)
Theorem X3_clean_news_artifacts_removes_a_dateline (U : ucd) (text : str) :
  (clean_news_artifacts U text = text \/
   exists p, text = p ++ clean_news_artifacts U text /\ dateline p /\
             starts_space (clean_news_artifacts U text) = false) /\
  (starts_with [40%N] text = false -> clean_news_artifacts U text = text).
Proof.
  split; [apply clean_news_artifacts_cases|].
  intros S. destruct (clean_news_artifacts_cases U text) as [E | [p [E [D _]]]];
    [exact E|].
  destruct D as [C [city [w1 [w2 [-> _]]]]]. rewrite E in S. discriminate.
Qed.

(* ----------------------------------------------------------------- *)
(** *** [mask_pii] *)

(** X4: [mask_pii] leaves alone a text in which there is no commercial at
    and no link begins: such a text comes back as it is. *)
Theorem X4_mask_pii_leaves_plain_text (U : ucd) (text : str) :
  has_at text = false -> has_link text = false -> mask_pii U text = text.
Proof.
  intros A L. unfold mask_pii.
  rewrite (sub_email_no_at U text A). now apply sub_url_no_head.
Qed.

Lemma X4_mask_pii_leaves_plain_text_witness :
  let text := u "Ціна: 15.5 грн (див. www. нижче)" in
  has_at text = false /\ has_link text = false /\
  mask_pii latin_cyrillic text = text.
Proof.
  intros text.
  assert (A : has_at text = false) by reflexivity.
  assert (L : has_link text = false) by reflexivity.
  split; [exact A|]. split; [exact L|].
  exact (X4_mask_pii_leaves_plain_text latin_cyrillic text A L).
Defined.

(** X5: the second substitution of [mask_pii] masks every link from the
    place where it begins ([http://], [https://], [www.] or [bit.ly/]
    followed by a character that is not whitespace) up to the next
    whitespace or the end of the text, punctuation included: [mask_pii] is
    [mask_links] after the substitution of the addresses, and [mask_links]
    alone on a text without a commercial at. *)
Theorem X5_mask_pii_masks_links_to_the_next_whitespace (U : ucd) (text : str) :
  mask_pii U text = mask_links (sub U EMAIL_PATTERN [TStr EMAIL_TOKEN] text) /\
  (has_at text = false -> mask_pii U text = mask_links text).
Proof.
  split.
  - unfold mask_pii. apply sub_url_mask_links.
  - intros A. unfold mask_pii. rewrite (sub_email_no_at U text A).
    apply sub_url_mask_links.
Qed.

(* ----------------------------------------------------------------- *)
(** *** [split_sentences]: the restore phase *)

(** Induction along [s.replace('<DOT>', '.')]. *)
Lemma replace_dot_ind (P : str -> str -> Prop) :
  P [] [] ->
  (forall s r, P s r -> P (DOT ++ s) (46%N :: r)) ->
  (forall c s r, starts_with DOT (c :: s) = false -> P s r -> P (c :: s) (c :: r)) ->
  forall s, P s (replace DOT PERIOD s).
Proof.
  intros H0 Hhit Hmiss.
  change (replace DOT PERIOD) with (fun s => replace_go DOT PERIOD s 0).
  cbv beta.
  assert (G : forall n s, length s <= n -> P s (replace_go DOT PERIOD s 0)).
  { induction n as [|n IH]; intros s L.
    - destruct s; [exact H0 | simpl in L; lia].
    - destruct s as [|c s]; [exact H0|].
      destruct (starts_with DOT (c :: s)) eqn:E.
      + apply starts_with_split in E as [s' E]. rewrite E.
        rewrite replace_go_hit by discriminate.
        apply (Hhit s'). apply IH.
        apply (f_equal (@length _)) in E. rewrite length_app in E.
        simpl in E, L. lia.
      + rewrite replace_go_miss by exact E. apply Hmiss; [exact E|].
        apply IH. simpl in L. lia. }
  intros s. now apply (G (length s)).
Qed.

(** The restored text, with its periods written [<DOT>] where the text
    had the sentinel, is the text. *)
Lemma replace_dotted (s : str) : dotted (replace DOT PERIOD s) s.
Proof.
  apply replace_dot_ind.
  - constructor.
  - intros t r H. now apply dotted_dot.
  - intros c t r _ H. now apply dotted_copy.
Qed.

Lemma dotted_blank (t p : str) : dotted t p -> blank p = blank t.
Proof.
  induction 1 as [|c t p H IH|t p H IH]; [reflexivity| |reflexivity].
  cbn [blank forallb]. unfold blank in IH. now rewrite IH.
Qed.

Lemma dotted_starts_fwd (v : str) :
  forallb (fun x => negb (x =? 46)%N) v = true ->
  forall t p, dotted t p -> starts_with v t = true -> starts_with v p = true.
Proof.
  induction v as [|a v IH]; intros Hv t p D S; [reflexivity|].
  cbn [forallb] in Hv. apply andb_prop in Hv as [Ha Hv].
  destruct t as [|c t]; [discriminate|]. cbn [starts_with] in S.
  apply andb_prop in S as [E S]. apply N.eqb_eq in E. subst c.
  apply dotted_keep_inv in D as [p' [-> D]].
  - cbn [starts_with]. rewrite N.eqb_refl. cbn [andb]. now apply (IH Hv t).
  - intros ->. discriminate.
Qed.

(** No sentinel is left after the restore phase. *)
Lemma replace_no_dot (s : str) : contains DOT (replace DOT PERIOD s) = false.
Proof.
  apply (replace_dot_ind (fun s r => dotted r s /\ contains DOT r = false)).
  - split; [constructor|reflexivity].
  - intros t r [D C]. split; [now apply dotted_dot|].
    cbn [contains]. rewrite C. reflexivity.
  - intros c t r E [D C]. split; [now apply dotted_copy|].
    cbn [contains]. rewrite C, orb_false_r.
    destruct (starts_with DOT (c :: r)) eqn:S; [|reflexivity].
    rewrite <- E. unfold DOT in *. cbn [starts_with] in *.
    apply andb_prop in S as [S1 S2]. rewrite S1. cbn [andb].
    symmetry. apply (dotted_starts_fwd [68; 79; 84; 62]%N eq_refl r t D S2).
Qed.

Lemma contains_blank (w s : str) :
  blank w = false -> blank s = true -> contains w s = false.
Proof.
  intros W S. destruct (contains w s) eqn:C; [|reflexivity].
  apply contains_iff in C as [a [b ->]].
  unfold blank in *. rewrite !forallb_app in S.
  apply andb_prop in S as [_ S]. apply andb_prop in S as [S _]. congruence.
Qed.

Lemma strip_nil_blank (s : str) : strip s = [] -> blank s = true.
Proof.
  intros E. destruct (blank s) eqn:B; [reflexivity|].
  apply strip_not_blank in B. now rewrite E in B.
Qed.

Lemma last_app_r (a b : str) (d : char) : b <> [] -> last (a ++ b) d = last b d.
Proof.
  intros H. induction a as [|x a IH]; [reflexivity|].
  cbn [app]. destruct (a ++ b) eqn:E.
  - apply app_eq_nil in E as [_ E]. contradiction.
  - exact IH.
Qed.

Lemma dotted_nil_r (t : str) : dotted t [] -> t = [].
Proof. intros H. inversion H. reflexivity. Qed.

Lemma dotted_nonempty (t p : str) : dotted t p -> p <> [] -> t <> [].
Proof. intros H N. inversion H; subst; congruence. Qed.

Lemma dotted_last (t p : str) :
  dotted t p -> ends_terminal p = true -> ends_terminal t = true.
Proof.
  unfold ends_terminal.
  induction 1 as [|c t p H IH|t p H IH]; intros E; [exact E| |].
  - destruct p as [|x p].
    + apply dotted_nil_r in H. now subst.
    + pose proof (dotted_nonempty _ _ H ltac:(discriminate)) as N.
      destruct t as [|y t]; [contradiction|].
      change (last (c :: y :: t) 0%N) with (last (y :: t) 0%N).
      apply IH. exact E.
  - destruct p as [|x p]; [discriminate|].
    pose proof (dotted_nonempty _ _ H ltac:(discriminate)) as N.
    destruct t as [|y t]; [contradiction|].
    change (last (46%N :: y :: t) 0%N) with (last (y :: t) 0%N).
    apply IH. exact E.
Qed.

Lemma ends_terminal_not_space (s : str) :
  ends_terminal s = true -> ends_space s = false /\ blank s = false.
Proof.
  unfold ends_terminal, ends_space. intros H.
  destruct s as [|c s]; [discriminate|].
  destruct (@exists_last _ (c :: s)) as [a [x E]]; [discriminate|].
  rewrite E in *. rewrite last_last in H. apply terminal_not_space in H.
  rewrite rev_app_distr. cbn [rev app starts_space].
  split; [exact H|].
  unfold blank. rewrite forallb_app. cbn [forallb]. rewrite H.
  now rewrite andb_false_r.
Qed.

Lemma strip_last (s : str) :
  ends_terminal s = true -> ends_terminal (strip s) = true.
Proof.
  intros H. destruct (ends_terminal_not_space s H) as [E B].
  unfold strip, lstrip.
  destruct (dropwhile_split is_space s) as [w [Ew Bw]].
  assert (N : dropwhile is_space s <> []).
  { intros X. apply dropwhile_nil_blank in X. congruence. }
  assert (L : last (dropwhile is_space s) 0%N = last s 0%N).
  { rewrite Ew at 2. symmetry. now apply last_app_r. }
  assert (T : ends_terminal (dropwhile is_space s) = true).
  { unfold ends_terminal. now rewrite L. }
  rewrite rstrip_fixed; [exact T|]. apply (ends_terminal_not_space _ T).
Qed.

Lemma strip_first (c : char) (s : str) :
  is_space c = false -> exists s', strip (c :: s) = c :: s'.
Proof.
  intros H. unfold strip, lstrip. cbn [dropwhile]. rewrite H.
  rewrite rstrip_cons_nonspace by exact H. now eexists.
Qed.

(** The restore phase keeps the first character of a piece that begins a
    sentence and the last of a piece that ends one. *)
Lemma restore_opening (q : str) :
  starts_opening q = true ->
  starts_opening (strip (replace DOT PERIOD q)) = true.
Proof.
  intros H. destruct q as [|d q]; [discriminate|]. cbn [starts_opening] in H.
  pose proof (replace_dotted (d :: q)) as D.
  apply dotted_copy_inv in D as [t' [E _]].
  - rewrite E. destruct (strip_first d t' (opening_not_space d H)) as [s' ->].
    exact H.
  - intros ->. discriminate.
Qed.

Lemma restore_terminal (q : str) :
  ends_terminal q = true ->
  ends_terminal (strip (replace DOT PERIOD q)) = true.
Proof.
  intros H. apply strip_last. eapply dotted_last; [apply replace_dotted|exact H].
Qed.

Lemma restore_no_dot (q : str) :
  contains DOT (strip (replace DOT PERIOD q)) = false.
Proof.
  destruct (contains DOT (strip _)) eqn:C; [|reflexivity].
  apply strip_found in C. now rewrite replace_no_dot in C.
Qed.

Lemma restore_blank (q : str) :
  nonempty (strip (replace DOT PERIOD q)) = false -> blank q = true.
Proof.
  intros H. rewrite (dotted_blank _ _ (replace_dotted q)).
  apply strip_nil_blank. now destruct (strip _).
Qed.

(* ----------------------------------------------------------------- *)
(** *** [split_sentences]: where the text is cut *)

Section Boundaries.

Variable U : ucd.

Lemma blank_app (a b : str) : blank (a ++ b) = blank a && blank b.
Proof. apply forallb_app. Qed.

(** A substitution that writes something visible for every match does
    not turn a text into whitespace. *)
Lemma sub_not_blank (r : re) (tpl : list titem) :
  (forall cs, blank (expand tpl cs) = false) ->
  forall s, blank (sub U r tpl s) = true -> blank s = true.
Proof.
  intros X s. unfold sub.
  apply (sub_ind U r tpl (fun _ aft o => blank o = true -> blank aft = true)).
  - auto.
  - intros bef c t o _ IH H. cbn [blank forallb] in *.
    apply andb_prop in H as [-> H]. now apply IH.
  - intros bef w aft cs o _ _ _ H. rewrite blank_app, X in H. discriminate.
Qed.

Lemma protect_not_blank (t : str) : blank (protect U t) = true -> blank t = true.
Proof.
  unfold protect. intros H.
  repeat (apply sub_not_blank in H;
          [| intros cs; unfold KEEP1_DOT, KEEP1_DOT_KEEP2; cbn [expand];
             rewrite !blank_app; change (blank DOT) with false;
             now rewrite ?andb_false_r, ?andb_false_l ]).
  exact H.
Qed.

Lemma split_not_blank (s : str) :
  forallb blank (split U SENTENCE_END s) = true -> blank s = true.
Proof.
  unfold split.
  destruct (split_ind U SENTENCE_END
              (fun _ aft pieces => forallb blank pieces = true -> blank aft = true))
    with (bef := @nil char) (aft := s) as [p [ps [E R]]].
  - auto.
  - intros bef c t p ps _ IH H. cbn [forallb blank] in *.
    apply andb_prop in H as [H1 H2]. apply andb_prop in H1 as [-> H1].
    apply IH. apply andb_true_intro. split; [exact H1 | exact H2].
  - intros bef w aft cs p ps _ M IH H.
    apply sentence_end_shape in M as [B _]. rewrite blank_app, B.
    apply IH. exact H.
  - rewrite E. exact R.
Qed.

(** The fallback of [split_sentences] is for a text of whitespace only:
    a text with a visible character gives at least one sentence. *)
Lemma fallback_blank (text : str) :
  restored (split U SENTENCE_END (protect U text)) = [] -> blank text = true.
Proof.
  intros H. apply protect_not_blank, split_not_blank.
  apply forallb_forall. intros q Hq. apply restore_blank.
  destruct (nonempty (strip (replace DOT PERIOD q))) eqn:N; [|reflexivity].
  assert (I : In (strip (replace DOT PERIOD q))
                 (restored (split U SENTENCE_END (protect U text)))).
  { unfold restored. apply filter_In. split; [|exact N].
    apply in_map_iff. now exists q. }
  rewrite H in I. contradiction.
Qed.

Lemma last_terminal_ends (bef p : str) :
  p <> [] -> last_terminal bef p = ends_terminal p.
Proof.
  intros N. destruct (exists_last N) as [a [x ->]].
  unfold last_terminal, ends_terminal.
  rewrite rev_app_distr, last_last. reflexivity.
Qed.

(** The pieces of [re.split]: every piece but the last ends with a
    terminal mark, every piece but the first begins with a character a
    sentence may start with. *)
Lemma split_seams (s : str) :
  Forall (fun q => ends_terminal q = true) (removelast (split U SENTENCE_END s)) /\
  Forall (fun q => starts_opening q = true) (tl (split U SENTENCE_END s)).
Proof.
  unfold split.
  destruct (split_ind U SENTENCE_END
              (fun bef aft pieces =>
                 match pieces with
                 | [] => False
                 | p :: ps =>
                     (forall d a, aft = d :: a -> is_space d = false ->
                                  exists p', p = d :: p') /\
                     (ps <> [] -> last_terminal bef p = true) /\
                     Forall (fun q => ends_terminal q = true) (removelast ps) /\
                     Forall (fun q => starts_opening q = true) ps
                 end))
    with (bef := @nil char) (aft := s) as [p [ps [E R]]].
  - intros bef. split; [intros d a X; discriminate|].
    split; [intros X; now contradiction X|]. split; constructor.
  - intros bef c t p ps _ [A [B [C D]]].
    split; [|split; [|split; [exact C | exact D]]].
    + intros d a X _. injection X as <- _. now eexists.
    + intros N. specialize (B N). unfold last_terminal in *.
      cbn [rev]. now rewrite <- app_assoc.
  - intros bef w aft cs p ps W M [A [B [C D]]].
    apply sentence_end_shape in M as [Bw [[c [bef' [-> Tc]]] [d [aft' [-> Od]]]]].
    destruct (A d aft' eq_refl (opening_not_space d Od)) as [p' ->].
    split; [|split; [|split]].
    + intros x a X S. destruct w as [|y w]; [contradiction|].
      injection X as <- _. cbn [blank forallb] in Bw.
      apply andb_prop in Bw as [Bw _]. congruence.
    + intros _. exact Tc.
    + destruct ps as [|q ps]; [constructor|].
      change (removelast ((d :: p') :: q :: ps))
        with ((d :: p') :: removelast (q :: ps)).
      constructor; [|exact C].
      rewrite <- (last_terminal_ends (rev w ++ c :: bef')) by discriminate.
      apply B. discriminate.
    + constructor; [exact Od | exact D].
  - rewrite E. destruct R as [_ [B [C D]]]. split; [|exact D].
    destruct ps as [|q ps]; [constructor|].
    change (removelast (p :: q :: ps)) with (p :: removelast (q :: ps)).
    constructor; [|exact C].
    assert (L : last_terminal [] p = true) by (apply B; discriminate).
    destruct p as [|x p]; [discriminate|].
    now rewrite last_terminal_ends in L by discriminate.
Qed.

Lemma filter_all (A : Type) (f : A -> bool) (l : list A) :
  Forall (fun x => f x = true) l -> filter f l = l.
Proof.
  induction 1 as [|x l H _ IH]; [reflexivity|]. simpl. now rewrite H, IH.
Qed.

Lemma removelast_map (A B : Type) (f : A -> B) (l : list A) :
  removelast (map f l) = map f (removelast l).
Proof.
  induction l as [|x [|y l] IH]; [reflexivity..|].
  change (removelast (map f (x :: y :: l)))
    with (f x :: removelast (map f (y :: l))).
  rewrite IH. reflexivity.
Qed.

(** With two pieces or more, no piece is dropped by the loop. *)
Lemma restored_all (x y : str) (l : list str) :
  Forall (fun q => ends_terminal q = true) (removelast (x :: y :: l)) ->
  Forall (fun q => starts_opening q = true) (y :: l) ->
  restored (x :: y :: l) =
  map (fun s => strip (replace DOT PERIOD s)) (x :: y :: l).
Proof.
  intros T O. unfold restored. apply filter_all. apply Forall_map.
  change (removelast (x :: y :: l)) with (x :: removelast (y :: l)) in T.
  constructor.
  - apply Forall_inv in T. apply restore_terminal in T.
    destruct (strip _); [discriminate|reflexivity].
  - eapply Forall_impl; [|exact O]. intros q H. cbv beta in H.
    apply restore_opening in H.
    destruct (strip _); [discriminate|reflexivity].
Qed.

Lemma restored_seams (pieces : list str) :
  Forall (fun q => ends_terminal q = true) (removelast pieces) ->
  Forall (fun q => starts_opening q = true) (tl pieces) ->
  Forall (fun q => ends_terminal q = true) (removelast (restored pieces)) /\
  Forall (fun q => starts_opening q = true) (tl (restored pieces)).
Proof.
  intros T O. destruct pieces as [|x [|y l]].
  - split; constructor.
  - unfold restored. cbn [map filter]. destruct (nonempty _); split; constructor.
  - cbn [tl] in O. rewrite (restored_all x y l T O), removelast_map. split.
    + apply Forall_map. eapply Forall_impl; [|exact T].
      intros q. apply restore_terminal.
    + cbn [map tl].
      change (Forall (fun q => starts_opening q = true)
                (map (fun s => strip (replace DOT PERIOD s)) (y :: l))).
      apply Forall_map. eapply Forall_impl; [|exact O].
      intros q. apply restore_opening.
Qed.

Lemma split_sentences_no_dot (text : str) :
  Forall (fun q => contains DOT q = false) (split_sentences U text).
Proof.
  destruct text as [|c t] eqn:Et; [constructor|]. rewrite <- Et.
  rewrite split_sentences_restored by now rewrite Et.
  destruct (restored _) as [|x xs] eqn:R.
  - constructor; [|constructor]. apply contains_blank; [reflexivity|].
    now apply fallback_blank.
  - rewrite <- R. unfold restored. apply Forall_forall. intros q H.
    apply filter_In in H as [H _]. apply in_map_iff in H as [y [<- _]].
    apply restore_no_dot.
Qed.

Lemma split_sentences_trimmed (text : str) :
  blank text = false ->
  split_sentences U text = restored (split U SENTENCE_END (protect U text)) /\
  Forall (fun q => strip q = q /\ nonempty q = true) (split_sentences U text).
Proof.
  intros B.
  assert (N : nonempty text = true) by (destruct text; [discriminate|reflexivity]).
  rewrite (split_sentences_restored U text N).
  destruct (restored _) as [|x xs] eqn:R.
  - apply fallback_blank in R. congruence.
  - split; [reflexivity|]. rewrite <- R. unfold restored.
    apply Forall_forall. intros q H.
    apply filter_In in H as [H Hn]. apply in_map_iff in H as [y [<- _]].
    split; [apply strip_idem | exact Hn].
Qed.

End Boundaries.

(** X6: the sentinel [<DOT>] is in no sentence [split_sentences] returns,
    whatever the text; and for a text with a character that is not
    whitespace the fallback is not taken: the sentences are the restored
    pieces, each without whitespace at either end and not empty. *)
Theorem X6_sentences_are_trimmed_and_hold_no_sentinel (U : ucd) (text : str) :
  Forall (fun q => contains DOT q = false) (split_sentences U text) /\
  (blank text = false ->
   split_sentences U text = restored (split U SENTENCE_END (protect U text)) /\
   Forall (fun q => strip q = q /\ nonempty q = true) (split_sentences U text)).
Proof.
  split; [apply split_sentences_no_dot | apply split_sentences_trimmed].
Qed.

(** X7: [split_sentences] cuts only between a terminal mark and a
    character a sentence may start with: every sentence but the last ends
    with a period, an exclamation mark, a question mark or an ellipsis,
    and every sentence but the first begins with an uppercase Ukrainian or
    Latin letter, a digit, a double quote or an opening guillemet. *)
Theorem X7_sentences_end_and_begin_at_a_boundary (U : ucd) (text : str) :
  Forall (fun q => ends_terminal q = true) (removelast (split_sentences U text)) /\
  Forall (fun q => starts_opening q = true) (tl (split_sentences U text)).
Proof.
  destruct text as [|c t] eqn:Et; [split; constructor|]. rewrite <- Et.
  rewrite split_sentences_restored by now rewrite Et.
  destruct (restored _) as [|x xs] eqn:R; [split; constructor|].
  rewrite <- R. apply restored_seams; apply split_seams.
Qed.

(* ----------------------------------------------------------------- *)
(** *** The characters of the result *)

Section Characters.

Variable U : ucd.
Variable P : char -> Prop.

(** A match takes its groups from the text. *)
Lemma m_keeps (r : re) :
  forall st st',
    In st' (m U r st) ->
    Forall P (after st) -> Forall (fun g => Forall P (snd g)) (caps st) ->
    Forall P (after st') /\ Forall (fun g => Forall P (snd g)) (caps st').
Proof.
  induction r as [c|c|cs|cs lo hi|a IHa b IHb|a IHa b IHb|n a IHa| | |cs|cs];
    cbn [m]; intros st st' H A C.
  1-3: apply eat_inv in H as [x [_ [E1 [_ E2]]]]; rewrite E1 in A; rewrite E2;
       split; [now apply Forall_inv_tail in A | exact C].
  - apply rep_inv in H as [w [[E1 _] [_ [_ E2]]]]. rewrite E1 in A. rewrite E2.
    apply Forall_app in A as [_ A]. now split.
  - apply in_flat_map in H as [s1 [H1 H2]].
    destruct (IHa _ _ H1 A C) as [A1 C1]. now apply (IHb _ _ H2).
  - apply in_app_or in H as [H | H]; [now apply (IHa _ _ H) | now apply (IHb _ _ H)].
  - apply in_map_iff in H as [s1 [<- H]]. cbn [after caps].
    destruct (IHa _ _ H A C) as [A1 C1]. split; [exact A1|].
    constructor; [|exact C1]. cbn [snd].
    destruct (m_advances U a _ _ H) as [w W].
    rewrite (advances_consumed W). destruct W as [W _]. rewrite W in A.
    now apply Forall_app in A as [A _].
  - apply holds_inv in H as [_ ->]. now split.
  - apply holds_inv in H as [_ ->]. now split.
  - apply holds_inv in H as [_ ->]. now split.
  - apply holds_inv in H as [_ ->]. now split.
Qed.

Lemma group_keeps (n : nat) (cs : list (nat * str)) :
  Forall (fun g => Forall P (snd g)) cs -> Forall P (group n cs).
Proof.
  induction 1 as [|[k s] cs H _ IH]; [constructor|].
  cbn [group]. destruct (Nat.eqb k n); [exact H | exact IH].
Qed.

Lemma expand_keeps (tpl : list titem) (cs : list (nat * str)) :
  Forall (fun i => match i with TStr s => Forall P s | TGrp _ => True end) tpl ->
  Forall (fun g => Forall P (snd g)) cs ->
  Forall P (expand tpl cs).
Proof.
  intros T C. induction T as [|[s|n] tpl H _ IH]; [constructor| |];
    cbn [expand]; apply Forall_app; split; auto.
  now apply group_keeps.
Qed.

(** A substitution whose template is made of characters of [P] and of
    groups keeps a text of characters of [P] such a text. *)
Lemma sub_keeps (r : re) (tpl : list titem) (s : str) :
  Forall (fun i => match i with TStr s => Forall P s | TGrp _ => True end) tpl ->
  Forall P s -> Forall P (sub U r tpl s).
Proof.
  intros T. unfold sub.
  apply (sub_ind U r tpl (fun _ aft o => Forall P aft -> Forall P o)).
  - auto.
  - intros bef c t o _ IH H. inversion H; subst. constructor; auto.
  - intros bef w aft cs o _ M IH H.
    apply Forall_app. split.
    + apply match_at_inv in M as [st' [w' [I [-> _]]]].
      apply expand_keeps; [exact T|].
      now apply (m_keeps _ _ _ I); cbn [after caps].
    + apply IH. now apply Forall_app in H as [_ H].
Qed.

Lemma split_keeps (r : re) (s : str) :
  Forall P s -> Forall (Forall P) (split U r s).
Proof.
  unfold split.
  destruct (split_ind U r (fun _ aft pieces => Forall P aft -> Forall (Forall P) pieces))
    with (bef := @nil char) (aft := s) as [p [ps [E R]]].
  - repeat constructor.
  - intros bef c t p ps _ IH H. inversion H; subst.
    specialize (IH ltac:(assumption)). inversion IH; subst.
    constructor; [constructor|]; assumption.
  - intros bef w aft cs p ps _ _ IH H. apply Forall_app in H as [_ H].
    constructor; [constructor | now apply IH].
  - now rewrite E.
Qed.

Lemma replace_dot_keeps (s : str) :
  P 46%N -> Forall P s -> Forall P (replace DOT PERIOD s).
Proof.
  intros Hp. apply (replace_dot_ind (fun s r => Forall P s -> Forall P r)).
  - auto.
  - intros t r IH H. apply Forall_app in H as [_ H]. constructor; auto.
  - intros c t r _ IH H. inversion H; subst. constructor; auto.
Qed.

Lemma strip_forall (s : str) : Forall P s -> Forall P (strip s).
Proof.
  intros H. unfold strip, lstrip.
  destruct (dropwhile_split is_space s) as [w [E _]]. rewrite E in H.
  apply Forall_app in H as [_ H].
  destruct (rstrip_split (dropwhile is_space s)) as [v [E' _]]. rewrite E' in H.
  now apply Forall_app in H as [H _].
Qed.

Lemma split_sentences_keeps (text : str) :
  P 46%N -> Forall P DOT -> Forall P text ->
  Forall (Forall P) (split_sentences U text).
Proof.
  intros Hp Hd H. destruct text as [|c t] eqn:Et; [constructor|]. rewrite <- Et in *.
  rewrite split_sentences_restored by now rewrite Et.
  destruct (restored _) as [|x xs] eqn:R; [now repeat constructor|].
  rewrite <- R. unfold restored. apply Forall_forall. intros q I.
  apply filter_In in I as [I _]. apply in_map_iff in I as [y [<- I]].
  apply strip_forall, replace_dot_keeps; [exact Hp|].
  revert y I. apply Forall_forall. apply split_keeps. unfold protect.
  assert (K1 : Forall (fun i => match i with
                                | TStr s => Forall P s
                                | TGrp _ => True
                                end) KEEP1_DOT)
    by (unfold KEEP1_DOT; repeat (constructor; [first [exact I | exact Hd]|]);
        constructor).
  assert (K2 : Forall (fun i => match i with
                                | TStr s => Forall P s
                                | TGrp _ => True
                                end) KEEP1_DOT_KEEP2)
    by (unfold KEEP1_DOT_KEEP2;
        repeat (constructor; [first [exact I | exact Hd]|]); constructor).
  apply sub_keeps; [exact K1|]. apply sub_keeps; [exact K2|].
  apply sub_keeps; [exact K1|]. exact H.
Qed.

End Characters.

Lemma rejected_inv (v : pyval) (r : ResultRecord) :
  rejected v = Ok r -> clean r = [] /\ sentences r = [].
Proof.
  unfold rejected. destruct (truth v) as [t|]; [|discriminate]. cbn [bind].
  destruct t; [destruct (py_str v); [|discriminate]|]; cbn [bind];
    intros E; injection E as <-; now split.
Qed.

(** What [preprocess] returns for a [str]. *)
Lemma preprocess_str (U : ucd) (f : str -> str) (s : str) :
  preprocess U f (PyStr s) =
  if blank s then Ok {| raw := s; clean := []; sentences := [] |}
  else let c := clean_whitespace U (mask_pii U (before_masking U f s)) in
       Ok {| raw := s; clean := c; sentences := split_sentences U c |}.
Proof.
  destruct (blank s) eqn:B; [now apply preprocess_blank | now apply preprocess_text].
Qed.

(** The record of [preprocess] is the empty one, or made from a [str]. *)
Lemma preprocess_cases (U : ucd) (f : str -> str) (v : pyval) (r : ResultRecord) :
  preprocess U f v = Ok r ->
  (clean r = [] /\ sentences r = []) \/
  exists s, v = PyStr s /\ blank s = false /\
            clean r = clean_whitespace U (mask_pii U (before_masking U f s)) /\
            sentences r = split_sentences U (clean r).
Proof.
  intros H. destruct v as [| b | z | s | t rend];
    try (left; now apply rejected_inv in H).
  rewrite preprocess_str in H. destruct (blank s) eqn:B.
  - left. injection H as <-. now split.
  - right. exists s. injection H as <-. now repeat split.
Qed.

Lemma replace_bar_plain (s : str) :
  Forall (fun c => is_typographic c = false) s ->
  Forall (fun c => plain c = true) (replace (u "|") SPACE s).
Proof.
  change (replace (u "|") SPACE s) with (replace_go [124%N] SPACE s 0).
  induction 1 as [|c s H _ IH]; [constructor|].
  cbn [replace_go starts_with length Nat.sub]. rewrite andb_true_r.
  destruct (N.eqb_spec 124 c) as [<-|N].
  - cbn [app SPACE]. constructor; [reflexivity | exact IH].
  - constructor; [|exact IH]. unfold plain. rewrite H.
    destruct (N.eqb_spec c 124); [congruence|reflexivity].
Qed.

Lemma before_masking_plain (U : ucd) (f : str -> str) (s : str) :
  Forall (fun c => plain c = true) (before_masking U f s).
Proof.
  unfold before_masking.
  apply sub_keeps; [constructor|].
  apply sub_keeps; [repeat constructor|].
  apply replace_bar_plain. rewrite normalize_typography_map.
  apply Forall_forall. intros c H. apply in_map_iff in H as [x [<- _]].
  apply typo_not_typographic.
Qed.

Lemma clean_plain (U : ucd) (f : str -> str) (s : str) :
  Forall (fun c => plain c = true)
         (clean_whitespace U (mask_pii U (before_masking U f s))).
Proof.
  unfold clean_whitespace, mask_pii.
  apply strip_forall.
  do 3 (apply sub_keeps; [repeat constructor|]).
  apply before_masking_plain.
Qed.

(** X8: the vertical bar and the typographic apostrophes, quotation marks
    and dashes are in no [clean] text and in no sentence of a record
    [preprocess] returns, whatever [ftfy.fix_text] makes of the input. *)
Theorem X8_no_bar_or_typographic_character_in_the_result
    (U : ucd) (fix_text : str -> str) (v : pyval) (r : ResultRecord) :
  preprocess U fix_text v = Ok r ->
  Forall (fun c => plain c = true) (clean r) /\
  Forall (Forall (fun c => plain c = true)) (sentences r).
Proof.
  intros H.
  destruct (preprocess_cases U fix_text v r H)
    as [[-> ->] | [s [_ [_ [Ec Es]]]]]; [split; constructor|].
  assert (C : Forall (fun c => plain c = true) (clean r))
    by (rewrite Ec; apply clean_plain).
  split; [exact C|]. rewrite Es.
  apply split_sentences_keeps; [reflexivity | repeat constructor | exact C].
Qed.

Lemma X8_no_bar_or_typographic_character_in_the_result_witness :
  let v := PyStr (u "Ціна — 5 | 7 грн. Далі…") in
  let r := {| raw := u "Ціна — 5 | 7 грн. Далі…";
              clean := u "Ціна - 5 7 грн. Далі…";
              sentences := [u "Ціна - 5 7 грн."; u "Далі…"] |} in
  preprocess latin_cyrillic no_repair v = Ok r /\
  Forall (fun c => plain c = true) (clean r) /\
  Forall (Forall (fun c => plain c = true)) (sentences r).
Proof.
  intros v r.
  assert (H : preprocess latin_cyrillic no_repair v = Ok r)
    by (vm_compute; reflexivity).
  split; [exact H|].
  exact (X8_no_bar_or_typographic_character_in_the_result
           latin_cyrillic no_repair v r H).
Defined.

Lemma normal_not_blank (s : str) : ws_normal s -> s <> [] -> blank s = false.
Proof.
  intros [H _] N. destruct s as [|c s]; [contradiction|].
  cbn [starts_space] in H. cbn [blank forallb]. now rewrite H.
Qed.

(** X9: in a record [preprocess] returns the three fields agree: the
    sentences are those of the [clean] text, there is none exactly when
    the [clean] text is empty, each is without whitespace at either end,
    not empty and free of the sentinel [<DOT>], and for a [str] the [raw]
    field is the input as it came. *)
Theorem X9_fields_of_the_record_agree
    (U : ucd) (fix_text : str -> str) (v : pyval) (r : ResultRecord) :
  preprocess U fix_text v = Ok r ->
  sentences r = split_sentences U (clean r) /\
  (sentences r = [] <-> clean r = []) /\
  Forall (fun q => strip q = q /\ nonempty q = true /\ contains DOT q = false)
         (sentences r) /\
  (forall s, v = PyStr s -> raw r = s).
Proof.
  intros H.
  assert (R : forall s, v = PyStr s -> raw r = s).
  { intros s ->. rewrite preprocess_str in H.
    destruct (blank s); injection H as <-; reflexivity. }
  destruct (preprocess_cases U fix_text v r H)
    as [[Ec Es] | [s [_ [_ [Ec Es]]]]].
  - rewrite Ec, Es. repeat split; auto.
  - pose proof (clean_whitespace_normal U (mask_pii U (before_masking U fix_text s))) as N.
    rewrite <- Ec in N.
    destruct (clean r) as [|c t] eqn:E.
    + rewrite Es. repeat split; auto.
    + rewrite <- E in *.
      assert (B : blank (clean r) = false)
        by (apply normal_not_blank; [exact N | rewrite E; discriminate]).
      destruct (split_sentences_trimmed U (clean r) B) as [_ T].
      pose proof (split_sentences_no_dot U (clean r)) as D.
      rewrite <- Es in T, D.
      split; [exact Es|]. split; [|split; [|exact R]].
      * split; intros X; [|rewrite E in X; discriminate].
        rewrite Es, split_sentences_restored in X by now rewrite E.
        destruct (restored _); discriminate.
      * eapply Forall_impl; [|exact (Forall_and T D)].
        intros q [[Q1 Q2] Q3]. auto.
Qed.

Lemma X9_fields_of_the_record_agree_witness :
  let v := PyStr (u "Ціна — 5 | 7 грн. Далі…") in
  let r := {| raw := u "Ціна — 5 | 7 грн. Далі…";
              clean := u "Ціна - 5 7 грн. Далі…";
              sentences := [u "Ціна - 5 7 грн."; u "Далі…"] |} in
  preprocess latin_cyrillic no_repair v = Ok r /\
  sentences r = split_sentences latin_cyrillic (clean r) /\
  (sentences r = [] <-> clean r = []) /\
  Forall (fun q => strip q = q /\ nonempty q = true /\ contains DOT q = false)
         (sentences r) /\
  (forall s, v = PyStr s -> raw r = s).
Proof.
  intros v r.
  assert (H : preprocess latin_cyrillic no_repair v = Ok r)
    by (vm_compute; reflexivity).
  split; [exact H|].
  exact (X9_fields_of_the_record_agree latin_cyrillic no_repair v r H).
Defined.

(* ----------------------------------------------------------------- *)
(** *** [split_sentences]: where the text must be cut *)

Section Cut.

Variable U : ucd.

Lemma in_greedy_run (p : char -> bool) (w rest : str) :
  forallb p w = true ->
  forall k bef,
    In (k + length w, (rev w ++ bef, rest)) (greedy p None k bef (w ++ rest)).
Proof.
  induction w as [|x w IH]; intros H k bef.
  - cbn [app length rev]. rewrite Nat.add_0_r. apply greedy_base.
  - cbn [forallb] in H. apply andb_prop in H as [Hx H].
    cbn [app]. apply greedy_step; [exact Hx | reflexivity|].
    cbn [length rev]. rewrite <- app_assoc, Nat.add_succ_r. cbn [app].
    apply (IH H (S k) (x :: bef)).
Qed.

Lemma in_rep_run (p : char -> bool) (lo : nat) (w rest bef : str)
      (cs : list (nat * str)) :
  forallb p w = true -> lo <= length w ->
  In {| before := rev w ++ bef; after := rest; caps := cs |}
     (rep p lo None {| before := bef; after := w ++ rest; caps := cs |}).
Proof.
  intros H L. unfold rep. cbn [before after caps].
  apply in_map_iff. exists (0 + length w, (rev w ++ bef, rest)).
  split; [reflexivity|]. apply filter_In. split.
  - now apply in_greedy_run.
  - cbn [fst]. now apply Nat.leb_le.
Qed.

(** Where a terminal mark has been read and whitespace and an opening
    character follow, [SENTENCE_END] matches. *)
Lemma sentence_end_match (c : char) (bef w b : str) (d : char) :
  is_terminal c = true -> w <> [] -> blank w = true -> is_opening d = true ->
  match_at U SENTENCE_END (c :: bef) (w ++ d :: b) <> None.
Proof.
  intros Tc W Bw Od.
  assert (I : In {| before := rev w ++ c :: bef; after := d :: b; caps := [] |}
                 (m U SENTENCE_END
                    {| before := c :: bef; after := w ++ d :: b; caps := [] |})).
  { unfold SENTENCE_END. cbn [cat]. eapply in_cat.
    - cbn [m before]. rewrite terminal_mem, Tc. now left.
    - eapply in_cat.
      + cbn [m]. apply in_rep_run.
        * erewrite forallb_eq; [exact Bw|]. apply space_mem.
        * destruct w; [contradiction | simpl; lia].
      + cbn [m after]. rewrite opening_mem, Od. now left. }
  destruct (m U SENTENCE_END _) as [|st' l] eqn:E; [contradiction|].
  rewrite (match_at_first U SENTENCE_END (c :: bef) (w ++ d :: b)) with (st' := st') (l := l);
    [discriminate | vm_compute; repeat constructor | exact E].
Qed.

Lemma split_cut (s : str) :
  seam [] s -> 2 <= length (split U SENTENCE_END s).
Proof.
  unfold split.
  destruct (split_ind U SENTENCE_END
              (fun bef aft pieces => seam bef aft -> 2 <= length pieces))
    with (bef := @nil char) (aft := s) as [p [ps [E R]]].
  - intros bef [x [w [d [b [X _]]]]]. destruct x; [destruct w|]; discriminate.
  - intros bef c t p ps M IH [x [w [d [b [X [W [Bw [Od L]]]]]]]].
    cbn [length]. apply IH. destruct x as [|x0 x].
    + exfalso. cbn [app] in X. unfold last_terminal in L. cbn [rev app] in L.
      destruct bef as [|c0 bef]; [discriminate|].
      rewrite X in M. revert M. now apply sentence_end_match.
    + injection X as <- X. exists x, w, d, b.
      repeat (split; [assumption|]).
      unfold last_terminal in *. cbn [rev] in L. now rewrite <- app_assoc in L.
  - intros bef w aft cs p ps _ _ _ _. cbn [length]. lia.
  - now rewrite E.
Qed.

End Cut.

Lemma dotted_app_inv (x y p : str) :
  dotted (x ++ y) p -> exists x' y', p = x' ++ y' /\ dotted x x' /\ dotted y y'.
Proof.
  revert p. induction x as [|c x IH]; intros p D.
  - exists [], p. repeat split; [constructor | exact D].
  - cbn [app] in D. inversion D as [|c' t p1 D1|t p1 D1]; subst.
    + destruct (IH _ D1) as [x' [y' [-> [Dx Dy]]]].
      exists (c :: x'), y'. repeat split; [now constructor | exact Dy].
    + destruct (IH _ D1) as [x' [y' [-> [Dx Dy]]]].
      exists (DOT ++ x'), y'. split; [now rewrite app_assoc|].
      split; [now apply dotted_dot | exact Dy].
Qed.

Lemma dotted_keep_run (w t p : str) :
  forallb (fun c => negb (c =? 46)%N) w = true ->
  dotted (w ++ t) p -> exists p', p = w ++ p' /\ dotted t p'.
Proof.
  revert p. induction w as [|c w IH]; intros p H D; [now exists p|].
  cbn [forallb] in H. apply andb_prop in H as [Hc H].
  cbn [app] in D. apply dotted_keep_inv in D as [p1 [-> D]].
  - destruct (IH _ H D) as [p' [-> D']]. now exists p'.
  - intros ->. discriminate.
Qed.

Lemma space_not_period (w : str) :
  blank w = true -> forallb (fun c => negb (c =? 46)%N) w = true.
Proof.
  intros H. apply forallb_forall. intros c I.
  unfold blank in H. rewrite forallb_forall in H. specialize (H c I).
  destruct (N.eqb_spec c 46) as [->|]; [discriminate|reflexivity].
Qed.

(** X10: an exclamation mark, a question mark or an ellipsis followed by
    whitespace and then by a character a sentence may start with always
    cuts the text: [split_sentences] returns two sentences or more.  (A
    period there may be protected, as after an abbreviation.) *)
Theorem X10_a_mark_before_a_capital_cuts_the_text
    (U : ucd) (a w b : str) (c d : char) :
  period_uncased U ->
  is_terminal c = true -> c <> 46%N ->
  w <> [] -> blank w = true -> is_opening d = true ->
  2 <= length (split_sentences U (a ++ c :: w ++ d :: b)).
Proof.
  intros P Tc Nc W Bw Od. set (text := a ++ c :: w ++ d :: b).
  assert (Hn : nonempty text = true) by (unfold text; now destruct a).
  pose proof (protect_dotted P text) as D. unfold text in D at 1.
  apply dotted_app_inv in D as [a' [y [Ep [_ D]]]].
  apply dotted_keep_inv in D as [y1 [-> D]]; [|exact Nc].
  apply dotted_keep_run in D as [y2 [-> D]]; [|now apply space_not_period].
  apply dotted_keep_inv in D as [b' [-> _]];
    [|intros ->; discriminate].
  assert (S : seam [] (protect U text)).
  { rewrite Ep. exists (a' ++ [c]), w, d, b'.
    split; [now rewrite <- app_assoc|]. repeat (split; [assumption|]).
    unfold last_terminal. now rewrite rev_app_distr, app_nil_r. }
  apply split_cut with (U := U) in S.
  destruct (split_seams U (protect U text)) as [T O].
  rewrite (split_sentences_restored U text Hn).
  destruct (split U SENTENCE_END (protect U text)) as [|x [|y l]];
    cbn [length] in S; try lia.
  cbn [tl] in O. rewrite (restored_all x y l T O). cbn [map length]. lia.
Qed.

Lemma X10_a_mark_before_a_capital_cuts_the_text_witness :
  let a := u "Невже" in
  let w := u "  " in
  let b := u "ле ні" in
  period_uncased latin_cyrillic /\
  is_terminal 63%N = true /\ 63%N <> 46%N /\
  w <> [] /\ blank w = true /\ is_opening 1040%N = true /\
  2 <= length (split_sentences latin_cyrillic (a ++ 63%N :: w ++ 1040%N :: b)).
Proof.
  intros a w b.
  assert (P : period_uncased latin_cyrillic) by reflexivity.
  assert (Tc : is_terminal 63%N = true) by reflexivity.
  assert (Nc : 63%N <> 46%N) by discriminate.
  assert (W : w <> []) by discriminate.
  assert (Bw : blank w = true) by reflexivity.
  assert (Od : is_opening 1040%N = true) by reflexivity.
  split; [exact P|]. split; [exact Tc|]. split; [exact Nc|].
  split; [exact W|]. split; [exact Bw|]. split; [exact Od|].
  exact (X10_a_mark_before_a_capital_cuts_the_text
           latin_cyrillic a w b 63%N 1040%N P Tc Nc W Bw Od).
Defined.

(* ----------------------------------------------------------------- *)
(** *** [mask_pii] applied twice *)

Lemma has_at_forall (s : str) :
  has_at s = false <-> Forall (fun c => c <> 64%N) s.
Proof.
  unfold has_at. induction s as [|c s IH]; [split; [constructor|reflexivity]|].
  cbn [existsb]. split.
  - intros H. apply orb_false_elim in H as [H1 H2]. constructor; [|now apply IH].
    intros ->. discriminate.
  - intros H. inversion H as [|x l Hc Hs]; subst.
    destruct (N.eqb_spec 64 c) as [E|_]; [now symmetry in E|]. now apply IH.
Qed.

(** X11: on a text without a commercial at, [mask_pii] applied twice
    gives what it gives applied once; with an address in the text it need
    not: in [a@b.cdefghiwww.x] the address is followed by a letter and is
    not matched, the link after it is masked, and the token put there ends
    the address, which a second pass masks. *)
Theorem X11_mask_pii_twice (U : ucd) (text : str) :
  (has_at text = false -> mask_pii U (mask_pii U text) = mask_pii U text) /\
  mask_pii latin_cyrillic (u "a@b.cdefghiwww.x") = u "a@b.cdefghi<URL>" /\
  mask_pii latin_cyrillic (u "a@b.cdefghi<URL>") = u "<EMAIL><URL>".
Proof.
  split; [|split; vm_compute; reflexivity].
  intros A. unfold mask_pii at 2 3. rewrite (sub_email_no_at U text A).
  set (t := sub U URL_PATTERN [TStr URL_TOKEN] text).
  assert (A' : has_at t = false).
  { apply has_at_forall. apply sub_keeps.
    - constructor; [|constructor]. unfold URL_TOKEN.
      repeat (constructor; [discriminate|]). constructor.
    - now apply has_at_forall. }
  unfold mask_pii. rewrite (sub_email_no_at U t A').
  apply sub_url_no_head. apply sub_url_no_link.
Qed.

(* ----------------------------------------------------------------- *)
(** *** [split_sentences]: the sentences and the text *)

Section Weave.

Variable U : ucd.

(** [re.split] on [SENTENCE_END] loses gaps only. *)
Lemma split_weave (s : str) :
  exists gaps,
    s = weave (split U SENTENCE_END s) gaps /\ Forall is_gap gaps /\
    length (split U SENTENCE_END s) = S (length gaps).
Proof.
  unfold split.
  destruct (split_ind U SENTENCE_END
              (fun _ aft pieces =>
                 exists gaps, aft = weave pieces gaps /\ Forall is_gap gaps /\
                              length pieces = S (length gaps)))
    with (bef := @nil char) (aft := s) as [p [ps [E R]]].
  - intros _. exists []. repeat split. constructor.
  - intros bef c t p ps _ [gaps [E [G L]]]. exists gaps.
    split; [|split; [exact G | exact L]].
    rewrite E. destruct gaps; reflexivity.
  - intros bef w aft cs p ps W M [gaps [E [G L]]]. exists (w :: gaps).
    apply sentence_end_shape in M as [Bw _].
    split; [|split].
    + change (weave ([] :: p :: ps) (w :: gaps))
        with ([] ++ w ++ weave (p :: ps) gaps).
      now rewrite <- E.
    + constructor; [now split | exact G].
    + cbn [length] in *. now rewrite L.
  - now rewrite E.
Qed.

End Weave.

Lemma space_not_in_dot (c : char) : is_space c = true -> ~ In c DOT.
Proof.
  intros H I. unfold DOT in I. cbn [In] in I.
  repeat (destruct I as [<- | I]; [discriminate|]). exact I.
Qed.

(** [s.replace('<DOT>', '.')] on a text cut at a whitespace character. *)
Lemma restore_cut (c : char) (x y : str) :
  is_space c = true ->
  replace DOT PERIOD (x ++ c :: y) =
  replace DOT PERIOD x ++ c :: replace DOT PERIOD y.
Proof.
  intros Hc. pose proof (space_not_in_dot c Hc) as Nc.
  change (replace DOT PERIOD) with (fun s => replace_go DOT PERIOD s 0).
  cbv beta.
  remember (length x) as n eqn:Hn. revert x Hn.
  induction n as [n IH] using lt_wf_ind. intros x Hn.
  destruct x as [|a x].
  - cbn [app]. rewrite replace_go_miss; [reflexivity|].
    unfold DOT. cbn [starts_with].
    destruct (N.eqb_spec 60 c) as [<-|]; [discriminate|reflexivity].
  - destruct (starts_with DOT (a :: x)) eqn:E.
    + apply starts_with_split in E as [x' E]. rewrite E, <- !app_assoc.
      rewrite !replace_go_hit by discriminate.
      rewrite (IH (length x')); [now rewrite <- app_assoc| |reflexivity].
      subst n. rewrite E, length_app. unfold DOT. simpl. lia.
    + change ((a :: x) ++ c :: y) with (a :: (x ++ c :: y)).
      rewrite !replace_go_miss; [|assumption|].
      * rewrite (IH (length x)); [reflexivity| |reflexivity].
        subst n. simpl. lia.
      * destruct (starts_with DOT (a :: x ++ c :: y)) eqn:F; [|reflexivity].
        change (a :: x ++ c :: y) with ((a :: x) ++ c :: y) in F.
        apply starts_with_cut in F; [congruence | exact Nc].
Qed.

Lemma restore_lead (g y : str) :
  blank g = true -> replace DOT PERIOD (g ++ y) = g ++ replace DOT PERIOD y.
Proof.
  induction g as [|c g IH]; intros B; [reflexivity|].
  cbn [blank forallb] in B. apply andb_prop in B as [Bc B].
  change ((c :: g) ++ y) with ([] ++ c :: (g ++ y)).
  rewrite (restore_cut c [] (g ++ y) Bc). cbn [app].
  change (replace DOT PERIOD []) with (@nil char). cbn [app].
  now rewrite (IH B).
Qed.

Lemma restore_gap (g x y : str) :
  is_gap g ->
  replace DOT PERIOD (x ++ g ++ y) =
  replace DOT PERIOD x ++ g ++ replace DOT PERIOD y.
Proof.
  intros [B N]. destruct g as [|c g]; [contradiction|].
  cbn [blank forallb] in B. apply andb_prop in B as [Bc B].
  cbn [app]. rewrite (restore_cut c x (g ++ y) Bc).
  now rewrite (restore_lead g y B).
Qed.

Lemma restore_weave (pieces gaps : list str) :
  Forall is_gap gaps ->
  replace DOT PERIOD (weave pieces gaps) =
  weave (map (replace DOT PERIOD) pieces) gaps.
Proof.
  revert gaps. induction pieces as [|p ps IH]; intros gaps G; [reflexivity|].
  destruct gaps as [|g gs]; [reflexivity|].
  inversion G as [|g' gs' Hg Hgs]; subst.
  cbn [weave map]. rewrite (restore_gap g p _ Hg). now rewrite (IH gs Hgs).
Qed.

(** A text is what [strip] leaves of it with whitespace before and
    after. *)
Lemma strip_split (s : str) :
  exists lead trail,
    s = lead ++ strip s ++ trail /\ blank lead = true /\ blank trail = true /\
    (starts_space s = false -> lead = []) /\
    (ends_space s = false -> trail = []).
Proof.
  destruct (dropwhile_split is_space s) as [lead [E1 B1]].
  destruct (rstrip_split (dropwhile is_space s)) as [trail [E2 B2]].
  exists lead, trail. unfold strip, lstrip.
  split; [now rewrite <- E2|]. split; [exact B1|]. split; [exact B2|]. split.
  - intros H. apply lstrip_fixed in H. unfold lstrip in H. rewrite H in E1.
    destruct lead as [|c lead]; [reflexivity|].
    apply (f_equal (@length _)) in E1. rewrite length_app in E1.
    simpl in E1. lia.
  - intros H. destruct trail as [|c trail]; [reflexivity|]. exfalso.
    rewrite E2 in E1. rewrite E1 in H. unfold ends_space in H.
    rewrite !rev_app_distr in H.
    destruct (@exists_last _ (c :: trail)) as [a [x Ex]]; [discriminate|].
    rewrite Ex in H, B2. rewrite rev_app_distr in H. cbn [rev app starts_space] in H.
    unfold blank in B2. rewrite forallb_app in B2. cbn [forallb] in B2.
    rewrite H in B2. now rewrite andb_false_r in B2.
Qed.

Lemma weave_trim (rs : list str) :
  forall gaps,
    length rs = S (length gaps) ->
    Forall (fun r => starts_space r = false) (tl rs) ->
    Forall (fun r => ends_space r = false) (removelast rs) ->
    exists lead trail,
      weave rs gaps = lead ++ weave (map strip rs) gaps ++ trail /\
      blank lead = true /\ blank trail = true /\
      (starts_space (hd [] rs) = false -> lead = []).
Proof.
  induction rs as [|r [|r' l] IH]; intros gaps L O T.
  - discriminate.
  - destruct gaps; [|discriminate]. cbn [map weave hd].
    destruct (strip_split r) as [lead [trail [E [B1 [B2 [H1 _]]]]]].
    now exists lead, trail.
  - destruct gaps as [|g gs]; [discriminate|].
    cbn [tl] in O. change (removelast (r :: r' :: l)) with (r :: removelast (r' :: l)) in T.
    inversion O as [|? ? O1 O2]; subst. inversion T as [|? ? T1 T2]; subst.
    destruct (IH gs) as [lead' [trail [E [_ [B2 H']]]]];
      [simpl in *; lia | exact O2 | exact T2 |].
    specialize (H' O1). subst lead'. cbn [app] in E.
    destruct (strip_split r) as [lead [tr [Er [B1 [_ [H1 H2]]]]]].
    specialize (H2 T1). subst tr. rewrite app_nil_r in Er.
    exists lead, trail. split; [|split; [exact B1|split; [exact B2|exact H1]]].
    change (weave (r :: r' :: l) (g :: gs)) with (r ++ g ++ weave (r' :: l) gs).
    change (weave (map strip (r :: r' :: l)) (g :: gs))
      with (strip r ++ g ++ weave (map strip (r' :: l)) gs).
    rewrite E. rewrite Er at 1. now rewrite <- !app_assoc.
Qed.

Lemma starts_opening_not_space (s : str) :
  starts_opening s = true -> starts_space s = false.
Proof. destruct s as [|c s]; [reflexivity|]. apply opening_not_space. Qed.

Lemma replace_opening (q : str) :
  starts_opening q = true -> starts_opening (replace DOT PERIOD q) = true.
Proof.
  intros H. destruct q as [|d q]; [discriminate|]. cbn [starts_opening] in H.
  pose proof (replace_dotted (d :: q)) as D.
  apply dotted_copy_inv in D as [t' [-> _]]; [exact H|].
  intros ->. discriminate.
Qed.

Lemma replace_terminal (q : str) :
  ends_terminal q = true -> ends_terminal (replace DOT PERIOD q) = true.
Proof. intros H. eapply dotted_last; [apply replace_dotted|exact H]. Qed.

(** X12: when the text does not hold the sentinel, [split_sentences]
    loses nothing but whitespace, whatever the whitespace of the text:
    the text is its sentences in their order, with a gap of whitespace
    between each two and whitespace, if any, before the first and after
    the last. *)
Theorem X12_the_sentences_weave_back_into_the_text (U : ucd) (text : str) :
  period_uncased U -> contains DOT text = false -> blank text = false ->
  exists lead gaps trail,
    text = lead ++ weave (split_sentences U text) gaps ++ trail /\
    blank lead = true /\ blank trail = true /\ Forall is_gap gaps /\
    length (split_sentences U text) = S (length gaps).
Proof.
  intros P C B.
  destruct (split_sentences_trimmed U text B) as [E _]. rewrite E.
  pose proof (restore_dotted (protect_dotted P text) C) as R.
  destruct (split_weave U (protect U text)) as [gaps [W [G L]]].
  destruct (split_seams U (protect U text)) as [T O].
  set (pieces := split U SENTENCE_END (protect U text)) in *.
  rewrite W, (restore_weave pieces gaps G) in R.
  assert (F : restored pieces = map strip (map (replace DOT PERIOD) pieces)).
  { rewrite map_map. destruct pieces as [|x [|y l]] eqn:Ep.
    - discriminate.
    - unfold restored. cbn [map filter].
      destruct (nonempty (strip (replace DOT PERIOD x))) eqn:N; [reflexivity|].
      exfalso. assert (X : restored (split U SENTENCE_END (protect U text)) = []).
      { fold pieces. rewrite Ep. unfold restored. cbn [map filter]. now rewrite N. }
      apply fallback_blank in X. congruence.
    - cbn [tl] in O. apply (restored_all x y l T O). }
  destruct (weave_trim (map (replace DOT PERIOD) pieces) gaps) as [lead [trail [Ew [B1 [B2 _]]]]].
  - now rewrite length_map.
  - destruct pieces as [|x l]; [constructor|]. cbn [map tl] in *.
    apply Forall_map. eapply Forall_impl; [|exact O].
    intros q H. apply starts_opening_not_space. now apply replace_opening.
  - rewrite removelast_map. apply Forall_map. eapply Forall_impl; [|exact T].
    intros q H. apply replace_terminal in H.
    now apply ends_terminal_not_space in H.
  - exists lead, gaps, trail. rewrite F, <- Ew, R.
    repeat split; auto. now rewrite !length_map.
Qed.

Lemma X12_the_sentences_weave_back_into_the_text_witness :
  let text := [32; 1058; 1072; 1082; 33; 10; 9; 1053; 1110; 46; 32]%N in
  period_uncased latin_cyrillic /\ contains DOT text = false /\
  blank text = false /\
  exists lead gaps trail,
    text = lead ++ weave (split_sentences latin_cyrillic text) gaps ++ trail /\
    blank lead = true /\ blank trail = true /\ Forall is_gap gaps /\
    length (split_sentences latin_cyrillic text) = S (length gaps).
Proof.
  intros text.
  assert (P : period_uncased latin_cyrillic) by reflexivity.
  assert (C : contains DOT text = false) by reflexivity.
  assert (B : blank text = false) by reflexivity.
  split; [exact P|]. split; [exact C|]. split; [exact B|].
  exact (X12_the_sentences_weave_back_into_the_text latin_cyrillic text P C B).
Defined.

(* ----------------------------------------------------------------- *)
(** *** [clean_news_artifacts]: a dateline is removed *)

Section Dateline.

Variable U : ucd.

Lemma in_cls (cs : cset) (c : char) (st : mstate) (t : str) :
  after st = c :: t -> cset_mem U cs c = true ->
  In {| before := c :: before st; after := t; caps := caps st |}
     (m U (Cls cs) st).
Proof.
  intros E H. cbn [m]. unfold eat. rewrite E, H. now left.
Qed.

(** When [NEWS_CITY] matches at the start, what is left is what follows
    the first match. *)
Lemma news_sub_first (text : str) (st' : mstate) (l : list mstate) :
  m U NEWS_CITY {| before := []; after := text; caps := [] |} = st' :: l ->
  clean_news_artifacts U text = after st'.
Proof.
  intros E.
  pose proof (match_at_first U NEWS_CITY [] text
                ltac:(vm_compute; repeat constructor) E) as M.
  pose proof M as M'.
  apply match_at_head in M' as [s1 [l1 [w [E1 [_ [A [_ [L W]]]]]]]].
  rewrite E in E1. injection E1 as <- <-.
  rewrite <- L in M. unfold clean_news_artifacts, sub.
  rewrite A in M |- *.
  rewrite (sub_go_match U NEWS_CITY [] [] (after st') W M).
  cbn [expand app].
  apply sub_go_copy; [apply news_only_at_start|].
  rewrite app_nil_r. intros X. apply (f_equal (@length _)) in X.
  rewrite length_rev in X. destruct w; [contradiction|discriminate].
Qed.

(** [NEWS_CITY] matches a dateline at the start of the text. *)
Lemma news_match_dateline (p t : str) :
  dateline p ->
  exists st', In st' (m U NEWS_CITY {| before := []; after := p ++ t; caps := [] |}).
Proof.
  intros [C [city [w1 [w2 [-> [HC [Hn [Hc [B1 B2]]]]]]]]].
  rewrite <- !app_assoc. cbn [app]. eexists. unfold NEWS_CITY.
  eapply in_cat; [cbn [m before holds]; now left|].
  eapply in_cat; [apply in_lit; cbn [after]; reflexivity|].
  eapply in_cat;
    [apply in_cls; [cbn [after]; reflexivity | now rewrite ua_upper_mem]|].
  eapply in_cat.
  { cbn [m]. apply in_rep_run.
    - erewrite forallb_eq; [exact Hc|]. apply ua_lower_mem.
    - destruct city; [contradiction | simpl; lia]. }
  eapply in_cat; [apply in_lit; cbn [after]; reflexivity|].
  eapply in_cat.
  { cbn [m before caps]. apply in_rep_run.
    - erewrite forallb_eq; [exact B1|]. apply space_mem.
    - lia. }
  eapply in_cat; [apply in_lit; cbn [after]; reflexivity|].
  cbn [m before caps]. apply in_rep_run.
  - erewrite forallb_eq; [exact B2|]. apply space_mem.
  - lia.
Qed.

End Dateline.

(** Two runs of characters of one kind that end at the same place of one
    text are the same run. *)
Lemma run_unique (p : char -> bool) (a a' r r' : str) :
  forallb p a = true -> forallb p a' = true -> a ++ r = a' ++ r' ->
  (forall c r0, r = c :: r0 -> p c = false) ->
  (forall c r0, r' = c :: r0 -> p c = false) ->
  a = a' /\ r = r'.
Proof.
  revert a'. induction a as [|x a IH]; intros [|x' a'] H H' E R R'.
  - now split.
  - cbn [app] in E. cbn [forallb] in H'. apply andb_prop in H' as [H' _].
    rewrite (R _ _ E) in H'. discriminate.
  - cbn [app] in E. cbn [forallb] in H. apply andb_prop in H as [H _].
    symmetry in E. rewrite (R' _ _ E) in H. discriminate.
  - cbn [app] in E. injection E as <- E.
    cbn [forallb] in H, H'. apply andb_prop in H as [_ H].
    apply andb_prop in H' as [_ H'].
    destruct (IH a' H H' E R R') as [-> ->]. now split.
Qed.

Lemma dateline_unique (p p' t t' : str) :
  dateline p -> dateline p' -> p ++ t = p' ++ t' ->
  starts_space t = false -> starts_space t' = false -> t = t'.
Proof.
  intros [C [city [w1 [w2 [-> [_ [_ [Hc [B1 B2]]]]]]]]]
         [C' [city' [w1' [w2' [-> [_ [_ [Hc' [B1' B2']]]]]]]]] E S S'.
  rewrite <- !app_assoc in E. cbn [app] in E. injection E as _ E.
  apply (run_unique is_ua_lower) in E as [_ E]; try assumption;
    try (intros c r0 X; injection X as <- _; reflexivity).
  injection E as E.
  apply (run_unique is_space) in E as [_ E]; try assumption;
    try (intros c r0 X; injection X as <- _; reflexivity).
  injection E as E.
  apply (run_unique is_space) in E as [_ E]; try assumption.
  - intros c r0 X. rewrite X in S. exact S.
  - intros c r0 X. rewrite X in S'. exact S'.
Qed.

(** X13: a dateline at the start of a text is removed whole: for every
    dateline (an opening parenthesis, an uppercase Ukrainian letter,
    lowercase Ukrainian letters, a closing parenthesis and a hyphen with
    any whitespace around it) and every text after it that does not begin
    with whitespace, [clean_news_artifacts] returns that text. *)
Theorem X13_clean_news_artifacts_removes_every_dateline
    (U : ucd) (p t : str) :
  dateline p -> starts_space t = false ->
  clean_news_artifacts U (p ++ t) = t.
Proof.
  intros D S.
  destruct (news_match_dateline U p t D) as [s I].
  destruct (m U NEWS_CITY {| before := []; after := p ++ t; caps := [] |})
    as [|st' l] eqn:E; [contradiction|].
  rewrite (news_sub_first U (p ++ t) st' l E).
  assert (I' : In st' (m U NEWS_CITY {| before := []; after := p ++ t; caps := [] |}))
    by (rewrite E; now left).
  apply news_match_shape in I' as [p' [Hp D']]. cbn [after] in Hp.
  symmetry. apply (dateline_unique p p' t (after st') D D' Hp S).
  eapply news_first, E.
Qed.

Lemma X13_clean_news_artifacts_removes_every_dateline_witness :
  let p := u "(Київ)  - " in
  let t := u "Компанія повідомляє." in
  dateline p /\ starts_space t = false /\
  clean_news_artifacts latin_cyrillic (p ++ t) = t.
Proof.
  intros p t.
  assert (D : dateline p).
  { exists 1050%N, (u "иїв"), (u "  "), (u " ").
    repeat split; try reflexivity. discriminate. }
  assert (S : starts_space t = false) by reflexivity.
  split; [exact D|]. split; [exact S|].
  exact (X13_clean_news_artifacts_removes_every_dateline latin_cyrillic p t D S).
Defined.

(* ----------------------------------------------------------------- *)
(** *** [split_sentences]: initials *)

Section Initials.

Variable U : ucd.

Lemma initial_mem (c : char) :
  cset_mem U [CRange 1040 1071; CChar 1030; CChar 1031; CChar 1028;
              CChar 1168; CRange 65 90]%N c = is_initial c.
Proof.
  unfold cset_mem, is_initial, is_ua_upper, in_range. cbn [existsb item_mem].
  now rewrite orb_false_r, !orb_assoc.
Qed.

(** What [INITIAL_DOT] matches is an initial and its period, and the
    template [\1<DOT>] writes the letter and the sentinel for it. *)
Lemma initial_match_shape (bef w aft : str) (cs : list (nat * str)) :
  match_at U INITIAL_DOT bef (w ++ aft) = Some (length w, cs) ->
  exists X, w = [X; 46%N] /\ expand KEEP1_DOT cs = X :: DOT.
Proof.
  intros M. apply match_at_shape in M as [st' [H [-> [A _]]]].
  unfold INITIAL_DOT in H. cbn [m] in H.
  apply in_flat_map in H as [s1 [H1 H]]. apply holds_inv in H1 as [_ ->].
  apply in_flat_map in H as [s2 [H2 H]].
  apply in_map_iff in H2 as [s [<- H2]].
  pose proof H2 as I. apply eat_inv in H2 as [X [_ [E1 [E2 E3]]]].
  apply eat_inv in H as [d [Hd [E4 [_ E5]]]]. apply N.eqb_eq in Hd. subst d.
  cbn [after before caps] in *.
  exists X. split.
  - rewrite E4, A in E1. change (X :: 46%N :: aft) with ([X; 46%N] ++ aft) in E1.
    now apply app_inv_tail in E1.
  - rewrite E5. unfold KEEP1_DOT. cbn [expand group Nat.eqb].
    assert (Adv : advances {| before := bef; after := w ++ aft; caps := [] |} s [X]).
    { split; cbn [after before rev app]; assumption. }
    rewrite (advances_consumed Adv). now rewrite app_nil_r.
Qed.

(** Where an initial begins, [INITIAL_DOT] matches. *)
Lemma initial_here_match (bef aft : str) :
  initial_here U (word_before U bef) aft = true ->
  match_at U INITIAL_DOT bef aft <> None.
Proof.
  intros H. destruct aft as [|X [|d r]]; try discriminate.
  cbn [initial_here] in H. apply andb_prop in H as [H Hb].
  apply andb_prop in H as [Hd HX]. apply N.eqb_eq in Hd. subst d.
  set (st0 := {| before := bef; after := X :: 46%N :: r; caps := [] |}).
  assert (I : exists st', In st' (m U INITIAL_DOT st0)).
  { eexists. unfold INITIAL_DOT. eapply in_cat.
    - cbn [m]. unfold at_boundary. cbn [before after st0].
      fold (word_before U bef). rewrite Hb. now left.
    - eapply in_cat.
      + cbn [m]. apply in_map.
        apply (in_cls U _ X st0 (46%N :: r) eq_refl).
        now rewrite initial_mem.
      + apply in_lit. cbn [after]. reflexivity. }
  destruct I as [st' I].
  destruct (m U INITIAL_DOT st0) as [|s l] eqn:E; [contradiction|].
  unfold st0 in E.
  intros Hn.
  pose proof (match_at_first U INITIAL_DOT bef _
                ltac:(vm_compute; repeat constructor) E) as M.
  discriminate (eq_trans (eq_sym Hn) M).
Qed.

Lemma initial_here_hd (prev : bool) (c : char) (o t : str) :
  hd_error o = hd_error t ->
  initial_here U prev (c :: o) = initial_here U prev (c :: t).
Proof.
  destruct o as [|x o], t as [|y t]; try discriminate; [reflexivity|].
  intros E. injection E as ->. reflexivity.
Qed.

Hypothesis marks : marks_not_word U.

(** After the substitution of [INITIAL_DOT] no initial is left. *)
Lemma sub_initial_none (s : str) :
  no_initial U false (sub U INITIAL_DOT KEEP1_DOT s) = true.
Proof.
  destruct marks as [W1 [W2 _]]. unfold sub.
  refine (proj2 (sub_ind U INITIAL_DOT KEEP1_DOT
                   (fun bef aft o =>
                      hd_error o = hd_error aft /\
                      no_initial U (word_before U bef) o = true)
                   _ _ _ [] s)).
  - intros bef. now split.
  - intros bef c t o N [Hh Hn]. split; [reflexivity|].
    cbn [no_initial]. cbn [word_before] in Hn. rewrite Hn, andb_true_r.
    rewrite (initial_here_hd _ c o t Hh).
    destruct (initial_here U (word_before U bef) (c :: t)) eqn:I; [|reflexivity].
    apply initial_here_match in I. contradiction.
  - intros bef w aft cs o _ M [Hh Hn].
    apply initial_match_shape in M as [X [-> ->]].
    split; [reflexivity|].
    cbn [rev app word_before] in Hn. rewrite W1 in Hn.
    unfold DOT. cbn [app no_initial initial_here].
    change (is_initial 60%N) with false. change (is_initial 62%N) with false.
    cbn [N.eqb Pos.eqb andb negb]. rewrite W2.
    destruct o; cbn [andb negb]; rewrite ?andb_false_r; exact Hn.
Qed.

Lemma no_initial_app (x y : str) :
  forall prev, no_initial U prev (x ++ y) = true ->
               no_initial U (last_word U prev x) y = true.
Proof.
  induction x as [|c x IH]; intros prev H; [exact H|].
  cbn [app no_initial] in H. apply andb_prop in H as [_ H].
  cbn [last_word]. now apply IH.
Qed.

Lemma last_word_app (x y : str) :
  forall prev, last_word U prev (x ++ y) = last_word U (last_word U prev x) y.
Proof.
  induction x as [|c x IH]; intros prev; [reflexivity|]. cbn [app last_word].
  apply IH.
Qed.

Lemma last_word_blank (g : str) :
  blank g = true -> last_word U false g = false.
Proof.
  destruct marks as [_ [_ W3]].
  assert (G : forall prev, prev = false -> blank g = true ->
                           last_word U prev g = false).
  { induction g as [|c g IH]; intros prev Hp B; [exact Hp|].
    cbn [blank forallb] in B. apply andb_prop in B as [Bc B].
    cbn [last_word]. apply IH; [now apply W3 | exact B]. }
  now apply G.
Qed.

Lemma last_word_gap (g : str) (prev : bool) :
  is_gap g -> last_word U prev g = false.
Proof.
  destruct marks as [_ [_ W3]]. intros [B N].
  destruct g as [|c g]; [contradiction|].
  cbn [blank forallb] in B. apply andb_prop in B as [Bc B].
  cbn [last_word]. rewrite (W3 c Bc). now apply last_word_blank.
Qed.

Lemma dotted_last_word (t p : str) :
  dotted t p -> forall prev, last_word U prev p = last_word U prev t.
Proof.
  destruct marks as [W1 [W2 _]].
  induction 1 as [|c t p H IH|t p H IH]; intros prev; [reflexivity| |].
  - cbn [last_word]. apply IH.
  - unfold DOT. cbn [app last_word]. rewrite W1, W2. apply IH.
Qed.

(** A piece that is not the last stands in the woven text after nothing
    or after whitespace. *)
Lemma weave_locate (q : str) (pieces : list str) :
  forall gaps,
    length pieces = S (length gaps) -> Forall is_gap gaps ->
    In q (removelast pieces) ->
    exists pre post,
      weave pieces gaps = pre ++ q ++ post /\ last_word U false pre = false.
Proof.
  induction pieces as [|p [|p' l] IH]; intros gaps L G I.
  - contradiction.
  - contradiction.
  - destruct gaps as [|g gs]; [discriminate|].
    inversion G as [|? ? Hg Hgs]; subst.
    change (removelast (p :: p' :: l)) with (p :: removelast (p' :: l)) in I.
    change (weave (p :: p' :: l) (g :: gs)) with (p ++ g ++ weave (p' :: l) gs).
    destruct I as [<- | I].
    + exists [], (g ++ weave (p' :: l) gs). now split.
    + destruct (IH gs) as [pre [post [E Q]]];
        [simpl in *; lia | exact Hgs | exact I |].
      exists (p ++ g ++ pre), post. split.
      * rewrite E. now rewrite <- !app_assoc.
      * rewrite !last_word_app. rewrite (last_word_gap g _ Hg).
        exact Q.
Qed.

Lemma ends_with_initial_split (s : str) :
  ends_with_initial U s = true ->
  exists s0 X, s = s0 ++ [X; 46%N] /\ is_initial X = true /\
               xorb (is_word U X) (last_word U false s0) = true.
Proof.
  unfold ends_with_initial. intros H.
  destruct (rev s) as [|d [|X r]] eqn:E; try discriminate.
  apply andb_prop in H as [H Hb]. apply andb_prop in H as [Hd HX].
  apply N.eqb_eq in Hd. subst d.
  exists (rev r), X. split; [|split; [exact HX|]].
  - rewrite <- (rev_involutive s), E. cbn [rev]. now rewrite <- app_assoc.
  - rewrite <- Hb. f_equal.
    destruct r as [|y r]; [reflexivity|]. cbn [rev word_before].
    rewrite last_word_app. reflexivity.
Qed.

Lemma initial_not_period (X : char) : is_initial X = true -> X <> 46%N.
Proof. intros H ->. discriminate. Qed.

(** A piece whose restored text ends with an initial, and which itself
    ends with a terminal mark, ends with that initial. *)
Lemma dotted_initial (a q : str) (X : char) :
  is_initial X = true -> dotted (a ++ [X; 46%N]) q -> ends_terminal q = true ->
  exists a', q = a' ++ [X; 46%N] /\ dotted a a'.
Proof.
  intros HX D T. apply dotted_app_inv in D as [a' [y [-> [Da D]]]].
  apply dotted_keep_inv in D as [y1 [-> D]]; [|now apply initial_not_period].
  exists a'. split; [|exact Da]. f_equal. f_equal.
  assert (Z : forall p, dotted [] p -> p = []) by (intros p Hp; now inversion Hp).
  inversion D as [|c t p1 D1|t p1 D1]; subst.
  - apply Z in D1. now subst.
  - apply Z in D1. subst. exfalso.
    unfold ends_terminal in T.
    rewrite last_app_r in T by discriminate. discriminate.
Qed.

End Initials.

(** X14: an initial never ends a sentence that is not the last: in the
    list [split_sentences] returns, no sentence but the last ends with an
    uppercase Ukrainian or Latin letter that stands at a word boundary
    followed by a period.  (The tables are taken to say, as those of every
    Unicode version do, that the period, the closing angle bracket and
    whitespace are not word characters.) *)
Theorem X14_an_initial_does_not_end_a_sentence (U : ucd) (text : str) :
  marks_not_word U ->
  Forall (fun s => ends_with_initial U s = false)
         (removelast (split_sentences U text)).
Proof.
  intros Wd.
  destruct text as [|c0 t0] eqn:Et; [constructor|]. rewrite <- Et.
  rewrite split_sentences_restored by now rewrite Et.
  destruct (split_weave U (protect U text)) as [gaps [W [G L]]].
  destruct (split_seams U (protect U text)) as [T O].
  pose proof (sub_initial_none U Wd
                (sub U DECIMAL_DOT KEEP1_DOT_KEEP2
                   (sub U UA_ABBREVIATIONS KEEP1_DOT text))) as NI.
  change (sub U INITIAL_DOT KEEP1_DOT _) with (protect U text) in NI.
  destruct (split U SENTENCE_END (protect U text)) as [|x [|y l]] eqn:Ep.
  - constructor.
  - unfold restored. cbn [map filter]. destruct (nonempty _); constructor.
  - cbn [tl] in O. rewrite (restored_all x y l T O).
    assert (R : restored (x :: y :: l) <> []).
    { rewrite (restored_all x y l T O). discriminate. }
    change (match map (fun s => strip (replace DOT PERIOD s)) (x :: y :: l) with
            | [] => [text]
            | x0 :: xs => x0 :: xs
            end) with (map (fun s => strip (replace DOT PERIOD s)) (x :: y :: l)).
    rewrite removelast_map. apply Forall_map. apply Forall_forall. intros q Iq.
    destruct (ends_with_initial U (strip (replace DOT PERIOD q))) eqn:Ei;
      [exfalso|reflexivity].
    assert (Tq : ends_terminal q = true)
      by (rewrite Forall_forall in T; now apply T).
    destruct (weave_locate U Wd q (x :: y :: l) gaps L G Iq) as [pre [post [Ew Q]]].
    destruct (strip_split (replace DOT PERIOD q)) as [lead [trail [Es [Bl [_ [_ Ht]]]]]].
    pose proof (replace_terminal q Tq) as Tr.
    specialize (Ht (proj1 (ends_terminal_not_space _ Tr))). subst trail.
    rewrite app_nil_r in Es.
    apply ends_with_initial_split in Ei as [s0 [X [Es0 [HX Hb]]]].
    rewrite Es0 in Es.
    pose proof (replace_dotted q) as D. rewrite Es, app_assoc in D.
    apply (dotted_initial (lead ++ s0) q X HX) in D as [a' [Eq Da]];
      [|exact Tq].
    rewrite W, Ew, Eq in NI. rewrite <- !app_assoc, app_assoc in NI.
    apply no_initial_app in NI.
    rewrite last_word_app, Q in NI.
    rewrite (dotted_last_word U Wd _ _ Da) in NI.
    rewrite last_word_app, (last_word_blank U Wd lead Bl) in NI.
    cbn [app no_initial initial_here] in NI.
    rewrite N.eqb_refl, HX, Hb in NI. discriminate.
Qed.

Lemma latin_cyrillic_marks : marks_not_word latin_cyrillic.
Proof.
  split; [reflexivity|]. split; [reflexivity|]. intros c H.
  unfold is_word, latin_cyrillic, u_alnum, latin_cyrillic_alnum, is_space in *.
  cbn [existsb fst snd]. unfold in_range.
  rewrite ?orb_true_iff, ?andb_true_iff, ?N.leb_le, ?N.eqb_eq in H.
  rewrite ?orb_false_iff, ?andb_false_iff, ?N.leb_gt, ?N.eqb_neq.
  repeat split; lia.
Qed.

Lemma X14_an_initial_does_not_end_a_sentence_witness :
  let text := u "Про це заявив В. О. Зеленський. Далі буде." in
  marks_not_word latin_cyrillic /\
  Forall (fun s => ends_with_initial latin_cyrillic s = false)
         (removelast (split_sentences latin_cyrillic text)).
Proof.
  intros text. split; [exact latin_cyrillic_marks|].
  exact (X14_an_initial_does_not_end_a_sentence
           latin_cyrillic text latin_cyrillic_marks).
Defined.
